(** * GeoNER address tagging and link rendering

    A shallow embedding of [geo_ner/address_parser.py] (class [AddressParser]),
    of [geo_ner/tagged_text_to_geotext.py] and of [geo_ner/config.py],
    together with the fragment of Python's [re] and [str] that these modules
    rely on.

    Texts are sequences of code points in the range U+0000..U+00FF, carried by
    [ascii]; the character classes ([\s], [\d], [\w], case folding) are the
    ones CPython uses on that range.  Confidence scores are binary64 floats,
    as in Python. *)

From Stdlib Require Import List Ascii String Bool Arith NArith ZArith Lia.
From Stdlib Require Import Floats.PrimFloat.
Import ListNotations.

Set Implicit Arguments.
Set Warnings "-inexact-float".

Local Open Scope list_scope.

(* ================================================================== *)
(** * Texts and characters *)
(* ================================================================== *)

Definition text := list ascii.

(** [T "abc"] is the text of a string literal. *)
Definition T (s : string) : text := list_ascii_of_string s.

(** The double quote and the newline, which string literals cannot hold. *)
Definition dquote : ascii := ascii_of_nat 34.
Definition newline : ascii := ascii_of_nat 10.

Module Char.

Definition code (c : ascii) : N := N_of_ascii c.

Definition between (lo hi : N) (c : ascii) : bool :=
  (N.leb lo (code c) && N.leb (code c) hi)%bool.

(** [\d] and [str.isdigit] restricted to decimal digits. *)
Definition is_digit (c : ascii) : bool := between 48 57 c.

(** [str.isdigit]: decimal digits and the superscripts. *)
Definition is_py_digit (c : ascii) : bool :=
  (is_digit c || between 178 179 c || N.eqb (code c) 185)%bool.

(** [\s] and the characters [str.strip] removes: TAB..CR, FS..US, space,
    NEL and NBSP. *)
Definition is_space (c : ascii) : bool :=
  (between 9 13 c || between 28 32 c || N.eqb (code c) 133
   || N.eqb (code c) 160)%bool.

Definition is_ascii_alpha (c : ascii) : bool :=
  (between 65 90 c || between 97 122 c)%bool.

(** [\w]: alphanumeric code points and the underscore. *)
Definition is_word (c : ascii) : bool :=
  (is_digit c || is_ascii_alpha c || N.eqb (code c) 95
   || N.eqb (code c) 170 || between 178 179 c || N.eqb (code c) 181
   || between 185 186 c || between 188 190 c
   || between 192 214 c || between 216 246 c || between 248 255 c)%bool.

(** [str.lower] on one code point. *)
Definition lower (c : ascii) : ascii :=
  if (between 65 90 c || (between 192 222 c && negb (N.eqb (code c) 215)))%bool
  then ascii_of_N (code c + 32) else c.

(** The upper-case partner of a lower-case code point, when it has one in
    the range. *)
Definition upper (c : ascii) : ascii :=
  if (between 97 122 c || (between 224 254 c && negb (N.eqb (code c) 247)))%bool
  then ascii_of_N (code c - 32) else c.

End Char.

(* ================================================================== *)
(** * Regular expressions: the fragment of [re] the sources use *)
(* ================================================================== *)

Module Re.

(** One member of a bracketed set. *)
Inductive citem : Type :=
| CChar (c : ascii)
| CRange (lo hi : ascii)
| CDigit
| CSpace
| CWord.

(** A set [[...]] or [[^...]]; [\d], [\s] and a quantified literal are
    one-item sets. *)
Record cset : Type := CS { cs_neg : bool; cs_items : list citem }.

(** Every repetition in the sources' patterns is over a single-character
    set, so [RRep] repeats a set; optional groups are [ROpt]. *)
Inductive regex : Type :=
| REps
| RChar (c : ascii)
| RSet (cs : cset)
| RSeq (r1 r2 : regex)
| RAlt (r1 r2 : regex)
| RRep (greedy : bool) (lo : nat) (hi : option nat) (cs : cset)
| ROpt (r : regex)
| RGroup (n : nat) (r : regex)
| RBackref (n : nat)
| RWordB
| REnd.

(** ** Matching one character *)

Definition fold (ic : bool) (c : ascii) : ascii :=
  if ic then Char.lower c else c.

Definition lit_match (ic : bool) (p c : ascii) : bool :=
  Ascii.eqb (fold ic c) (fold ic p).

Definition in_range (lo hi c : ascii) : bool :=
  Char.between (Char.code lo) (Char.code hi) c.

Definition item_match (ic : bool) (it : citem) (c : ascii) : bool :=
  match it with
  | CChar p => Ascii.eqb c (fold ic p)
  | CRange lo hi => (in_range lo hi c || (ic && in_range lo hi (Char.upper c)))%bool
  | CDigit => Char.is_digit c
  | CSpace => Char.is_space c
  | CWord => Char.is_word c
  end.

(** Under IGNORECASE the subject character is folded and compared with the
    folded members of the set. *)
Definition cset_match (ic : bool) (cs : cset) (c : ascii) : bool :=
  xorb (cs_neg cs) (existsb (fun it => item_match ic it (fold ic c)) (cs_items cs)).

(** ** Matcher state *)

(** [ms_prev] is the character before the current position (for [\b]),
    [ms_acc] the characters consumed so far, last first, [ms_rest] the
    input still ahead and [ms_caps] the captured groups, latest first. *)
Record mstate : Type := MS {
  ms_prev : option ascii;
  ms_acc : text;
  ms_rest : text;
  ms_caps : list (nat * text)
}.

Definition advance (c : ascii) (tl : text) (st : mstate) : mstate :=
  MS (Some c) (c :: ms_acc st) tl (ms_caps st).

Definition word_opt (o : option ascii) : bool :=
  match o with Some c => Char.is_word c | None => false end.

Definition at_boundary (st : mstate) : bool :=
  xorb (word_opt (ms_prev st)) (word_opt (hd_error (ms_rest st))).

Fixpoint group_lookup (n : nat) (caps : list (nat * text)) : option text :=
  match caps with
  | [] => None
  | (m, t) :: tl => if Nat.eqb n m then Some t else group_lookup n tl
  end.

Definition more_allowed (hi : option nat) : bool :=
  match hi with Some O => false | _ => true end.

Definition dec_hi (hi : option nat) : option nat :=
  match hi with Some n => Some (pred n) | None => None end.

(** A piece of a scanned text: an unmatched character or a match. *)
Inductive token : Type :=
| TChar (c : ascii)
| TMatch (m : mstate).

Section Matcher.

Variable ic : bool.

(** Greedy repetition: take as many characters as allowed, give back one
    at a time while the continuation fails. *)
Fixpoint rep_greedy (cs : cset) (lo : nat) (hi : option nat) (rs : text)
    (st : mstate) (k : mstate -> option mstate) {struct rs} : option mstate :=
  match rs with
  | c :: tl =>
      if (more_allowed hi && cset_match ic cs c)%bool then
        match rep_greedy cs (pred lo) (dec_hi hi) tl (advance c tl st) k with
        | Some r => Some r
        | None => match lo with O => k st | S _ => None end
        end
      else match lo with O => k st | S _ => None end
  | [] => match lo with O => k st | S _ => None end
  end.

(** Lazy repetition: try the continuation first, take one more character
    only when it fails. *)
Fixpoint rep_lazy (cs : cset) (lo : nat) (hi : option nat) (rs : text)
    (st : mstate) (k : mstate -> option mstate) {struct rs} : option mstate :=
  match (match lo with O => k st | S _ => None end) with
  | Some r => Some r
  | None =>
      match rs with
      | c :: tl =>
          if (more_allowed hi && cset_match ic cs c)%bool
          then rep_lazy cs (pred lo) (dec_hi hi) tl (advance c tl st) k
          else None
      | [] => None
      end
  end.

(** A back-reference consumes a copy of the group's text. *)
Fixpoint match_copy (t : text) (st : mstate) : option mstate :=
  match t with
  | [] => Some st
  | p :: t' =>
      match ms_rest st with
      | c :: tl => if lit_match ic p c then match_copy t' (advance c tl st) else None
      | [] => None
      end
  end.

(** The backtracking matcher, in continuation-passing style: alternatives
    are tried left to right and the first complete match wins. *)
Fixpoint rmatch (r : regex) (st : mstate) (k : mstate -> option mstate)
    {struct r} : option mstate :=
  match r with
  | REps => k st
  | RChar p =>
      match ms_rest st with
      | c :: tl => if lit_match ic p c then k (advance c tl st) else None
      | [] => None
      end
  | RSet cs =>
      match ms_rest st with
      | c :: tl => if cset_match ic cs c then k (advance c tl st) else None
      | [] => None
      end
  | RSeq r1 r2 => rmatch r1 st (fun st' => rmatch r2 st' k)
  | RAlt r1 r2 =>
      match rmatch r1 st k with
      | Some x => Some x
      | None => rmatch r2 st k
      end
  | RRep true lo hi cs => rep_greedy cs lo hi (ms_rest st) st k
  | RRep false lo hi cs => rep_lazy cs lo hi (ms_rest st) st k
  | ROpt r1 =>
      match rmatch r1 st k with
      | Some x => Some x
      | None => k st
      end
  | RGroup n r1 =>
      rmatch r1 (MS (ms_prev st) [] (ms_rest st) (ms_caps st))
        (fun st' => k (MS (ms_prev st') (ms_acc st' ++ ms_acc st) (ms_rest st')
                          ((n, rev (ms_acc st')) :: ms_caps st')))
  | RBackref n =>
      match group_lookup n (ms_caps st) with
      | Some t => match match_copy t st with Some st' => k st' | None => None end
      | None => None
      end
  | RWordB => if at_boundary st then k st else None
  | REnd =>
      match ms_rest st with
      | [] => k st
      | c :: [] => if Ascii.eqb c newline then k st else None
      | _ => None
      end
  end.

Variable r : regex.

(** A match attempt at one position. *)
Definition try_match (prev : option ascii) (rs : text) : option mstate :=
  rmatch r (MS prev [] rs []) (fun st => Some st).

(** The same, refusing the empty match. *)
Definition try_match_nonempty (prev : option ascii) (rs : text) : option mstate :=
  rmatch r (MS prev [] rs [])
    (fun st => match ms_acc st with [] => None | _ :: _ => Some st end).

(** [re.search]: the first position, left to right, at which a match
    attempt succeeds. *)
Fixpoint search_from (prev : option ascii) (rs : text) : option mstate :=
  match try_match prev rs with
  | Some st => Some st
  | None =>
      match rs with
      | c :: tl => search_from (Some c) tl
      | [] => None
      end
  end.

(** The left-to-right scan behind [re.finditer], [re.sub] and [re.split]:
    the text cut into unmatched characters and successive matches. *)
Fixpoint scan_loop (skip : nat) (prev : option ascii) (rs : text) {struct rs}
    : list token :=
  match skip with
  | S n =>
      match rs with
      | c :: tl => scan_loop n (Some c) tl
      | [] => []
      end
  | O =>
      match try_match prev rs with
      | None =>
          match rs with
          | c :: tl => TChar c :: scan_loop 0 (Some c) tl
          | [] => []
          end
      | Some st =>
          match ms_acc st with
          | _ :: a =>
              TMatch st ::
              match rs with
              | c :: tl => scan_loop (List.length a) (Some c) tl
              | [] => []
              end
          | [] =>
              (* an empty match; the next attempt at this position must
                 consume something *)
              TMatch st ::
              match rs with
              | c :: tl =>
                  match try_match_nonempty prev rs with
                  | Some st2 =>
                      TMatch st2 :: scan_loop (pred (List.length (ms_acc st2))) (Some c) tl
                  | None => TChar c :: scan_loop 0 (Some c) tl
                  end
              | [] => []
              end
          end
      end
  end.

End Matcher.

(** Text and groups of a match. *)
Definition group0 (m : mstate) : text := rev (ms_acc m).

Definition group (n : nat) (m : mstate) : text :=
  match group_lookup n (ms_caps m) with Some t => t | None => [] end.

Definition scan (ic : bool) (r : regex) (s : text) : list token :=
  scan_loop ic r 0 None s.

(** [re.search(r, s)]. *)
Definition search (ic : bool) (r : regex) (s : text) : option mstate :=
  search_from ic r None s.

(** [re.finditer(r, s)]. *)
Fixpoint matches_of (ts : list token) : list mstate :=
  match ts with
  | [] => []
  | TChar _ :: ts' => matches_of ts'
  | TMatch m :: ts' => m :: matches_of ts'
  end.

Definition finditer (ic : bool) (r : regex) (s : text) : list mstate :=
  matches_of (scan ic r s).

(** [re.sub(r, repl, s)] with a function [repl] of the match. *)
Fixpoint sub_tokens (repl : mstate -> text) (ts : list token) : text :=
  match ts with
  | [] => []
  | TChar c :: ts' => c :: sub_tokens repl ts'
  | TMatch m :: ts' => repl m ++ sub_tokens repl ts'
  end.

Definition sub (ic : bool) (r : regex) (repl : mstate -> text) (s : text) : text :=
  sub_tokens repl (scan ic r s).

(** [re.split(r, s)] for a pattern without capturing groups: the pieces
    between the matches. *)
Fixpoint split_tokens (cur : text) (ts : list token) : list text :=
  match ts with
  | [] => [rev cur]
  | TChar c :: ts' => split_tokens (c :: cur) ts'
  | TMatch _ :: ts' => rev cur :: split_tokens [] ts'
  end.

Definition split (ic : bool) (r : regex) (s : text) : list text :=
  split_tokens [] (scan ic r s).

(** ** Reading a pattern: [re.compile] *)

Definition digit_val (c : ascii) : nat := N.to_nat (Char.code c - 48).

Fixpoint read_nat (acc : nat) (inp : text) : nat * text :=
  match inp with
  | c :: tl => if Char.is_digit c then read_nat (10 * acc + digit_val c) tl else (acc, inp)
  | [] => (acc, inp)
  end.

(** The members of a set, up to the closing bracket. *)
Fixpoint read_items (inp : text) : option (list citem * text) :=
  match inp with
  | [] => None
  | "]"%char :: tl => Some ([], tl)
  | "\"%char :: e :: tl =>
      let it := if Ascii.eqb e "d" then CDigit
                else if Ascii.eqb e "s" then CSpace
                else if Ascii.eqb e "w" then CWord
                else CChar e in
      match read_items tl with
      | Some (its, rest) => Some (it :: its, rest)
      | None => None
      end
  | c :: tl =>
      match tl with
      | "-"%char :: d :: tl' =>
          if Ascii.eqb d "]" then
            match read_items tl with
            | Some (its, rest) => Some (CChar c :: its, rest)
            | None => None
            end
          else
            match read_items tl' with
            | Some (its, rest) => Some (CRange c d :: its, rest)
            | None => None
            end
      | _ =>
          match read_items tl with
          | Some (its, rest) => Some (CChar c :: its, rest)
          | None => None
          end
      end
  end.

Definition read_set (inp : text) : option (cset * text) :=
  match inp with
  | "^"%char :: tl =>
      match read_items tl with
      | Some (its, rest) => Some (CS true its, rest)
      | None => None
      end
  | _ =>
      match read_items inp with
      | Some (its, rest) => Some (CS false its, rest)
      | None => None
      end
  end.

(** A quantifier, when one follows: bounds, and the text after it. *)
Definition read_bounds (inp : text) : option (nat * option nat * text) :=
  match inp with
  | "+"%char :: tl => Some (1, None, tl)
  | "*"%char :: tl => Some (0, None, tl)
  | "?"%char :: tl => Some (0, Some 1, tl)
  | "{"%char :: tl =>
      let (lo, tl1) := read_nat 0 tl in
      match tl1 with
      | "}"%char :: tl2 => Some (lo, Some lo, tl2)
      | ","%char :: "}"%char :: tl2 => Some (lo, None, tl2)
      | ","%char :: tl2 =>
          let (hi, tl3) := read_nat 0 tl2 in
          match tl3 with
          | "}"%char :: tl4 => Some (lo, Some hi, tl4)
          | _ => None
          end
      | _ => None
      end
  | _ => None
  end.

Definition quantify (a : regex) (inp : text) : option (regex * text) :=
  match read_bounds inp with
  | None => Some (a, inp)
  | Some (lo, hi, tl) =>
      let (greedy, tl') :=
        match tl with
        | "?"%char :: tl' => (false, tl')
        | _ => (true, tl)
        end in
      match a with
      | RChar c => Some (RRep greedy lo hi (CS false [CChar c]), tl')
      | RSet cs => Some (RRep greedy lo hi cs, tl')
      | _ =>
          match lo, hi, greedy with
          | O, Some 1, true => Some (ROpt a, tl')
          | _, _, _ => None
          end
      end
  end.

Definition escape (e : ascii) : regex :=
  if Ascii.eqb e "b" then RWordB
  else if Ascii.eqb e "d" then RSet (CS false [CDigit])
  else if Ascii.eqb e "s" then RSet (CS false [CSpace])
  else if Ascii.eqb e "w" then RSet (CS false [CWord])
  else if (Char.between 49 57 e) then RBackref (digit_val e)
  else RChar e.

(** Alternations, sequences and atoms; [gn] counts the capturing groups
    opened so far, [fuel] bounds the nesting. *)
Fixpoint read_alt (fuel : nat) (inp : text) (gn : nat) {struct fuel}
    : option (regex * text * nat) :=
  match fuel with
  | O => None
  | S fuel' =>
      match read_seq fuel' inp gn with
      | Some (r1, "|"%char :: tl, gn1) =>
          match read_alt fuel' tl gn1 with
          | Some (r2, tl2, gn2) => Some (RAlt r1 r2, tl2, gn2)
          | None => None
          end
      | other => other
      end
  end
with read_seq (fuel : nat) (inp : text) (gn : nat) {struct fuel}
    : option (regex * text * nat) :=
  match fuel with
  | O => None
  | S fuel' =>
      match inp with
      | [] => Some (REps, inp, gn)
      | ")"%char :: _ => Some (REps, inp, gn)
      | "|"%char :: _ => Some (REps, inp, gn)
      | _ =>
          match read_atom fuel' inp gn with
          | Some (a, tl, gn1) =>
              match quantify a tl with
              | Some (q, tl1) =>
                  match read_seq fuel' tl1 gn1 with
                  | Some (r2, tl2, gn2) => Some (RSeq q r2, tl2, gn2)
                  | None => None
                  end
              | None => None
              end
          | None => None
          end
      end
  end
with read_atom (fuel : nat) (inp : text) (gn : nat) {struct fuel}
    : option (regex * text * nat) :=
  match fuel with
  | O => None
  | S fuel' =>
      match inp with
      | "("%char :: "?"%char :: ":"%char :: tl =>
          match read_alt fuel' tl gn with
          | Some (r1, ")"%char :: tl1, gn1) => Some (r1, tl1, gn1)
          | _ => None
          end
      | "("%char :: tl =>
          match read_alt fuel' tl (S gn) with
          | Some (r1, ")"%char :: tl1, gn1) => Some (RGroup (S gn) r1, tl1, gn1)
          | _ => None
          end
      | "["%char :: tl =>
          match read_set tl with
          | Some (cs, tl1) => Some (RSet cs, tl1, gn)
          | None => None
          end
      | "\"%char :: e :: tl => Some (escape e, tl, gn)
      | "$"%char :: tl => Some (REnd, tl, gn)
      | "."%char :: _ => None
      | "^"%char :: _ => None
      | "*"%char :: _ => None
      | "+"%char :: _ => None
      | "?"%char :: _ => None
      | c :: tl => Some (RChar c, tl, gn)
      | [] => None
      end
  end.

(** [compile p] is the regex of the pattern text [p]; a pattern outside the
    fragment (a wildcard, an anchor at the start, a repeated group) compiles
    to a regex that matches nothing. *)
Definition never : regex := RSet (CS false []).

Definition compile (p : text) : regex :=
  match read_alt (3 * List.length p + 3) p 0 with
  | Some (r, [], _) => r
  | _ => never
  end.

End Re.

(* ================================================================== *)
(** * The [str] methods the sources call *)
(* ================================================================== *)

Module Str.

Fixpoint eqb (a b : text) : bool :=
  match a, b with
  | [], [] => true
  | x :: a', y :: b' => (Ascii.eqb x y && eqb a' b')%bool
  | _, _ => false
  end.

Fixpoint lstrip (s : text) : text :=
  match s with
  | c :: tl => if Char.is_space c then lstrip tl else s
  | [] => []
  end.

Definition rstrip (s : text) : text := rev (lstrip (rev s)).

(** [s.strip()]. *)
Definition strip (s : text) : text := rstrip (lstrip s).

(** [s.lower()]. *)
Definition lower (s : text) : text := map Char.lower s.

Fixpoint starts_with (p s : text) : bool :=
  match p, s with
  | [], _ => true
  | x :: p', y :: s' => (Ascii.eqb x y && starts_with p' s')%bool
  | _ :: _, [] => false
  end.

(** [p in s]. *)
Fixpoint contains (p s : text) : bool :=
  (starts_with p s ||
   match s with
   | _ :: tl => contains p tl
   | [] => false
   end)%bool.

Fixpoint replace_loop (old new : text) (skip : nat) (s : text) {struct s} : text :=
  match s with
  | [] => []
  | c :: tl =>
      match skip with
      | S n => replace_loop old new n tl
      | O =>
          if starts_with old s
          then new ++ replace_loop old new (pred (List.length old)) tl
          else c :: replace_loop old new 0 tl
      end
  end.

(** [s.replace(old, new)]: every occurrence, left to right, without
    overlap; an empty [old] matches between all characters. *)
Definition replace (old new s : text) : text :=
  match old with
  | [] => new ++ flat_map (fun c => c :: new) s
  | _ :: _ => replace_loop old new 0 s
  end.

(** [s[a:b]] for integers [a] and [b]. *)
Definition clamp (len i : Z) : Z :=
  let j := if (i <? 0)%Z then (i + len)%Z else i in
  Z.max 0 (Z.min len j).

Definition slice (a b : Z) (s : text) : text :=
  let len := Z.of_nat (List.length s) in
  let lo := clamp len a in
  let hi := clamp len b in
  firstn (Z.to_nat (hi - lo)) (skipn (Z.to_nat lo) s).

End Str.

(* ================================================================== *)
(** * Responses of the recognition service *)
(* ================================================================== *)

(** A JSON number: Python reads it as an [int] or a [float]. *)
Inductive number : Type :=
| NInt (z : Z)
| NFloat (f : float).

(** The address object: keys with string values; [None] is JSON null. *)
Definition address_dict := list (text * option text).

(** [d.get(key)]: the value, or [None] when the key is absent or null. *)
Fixpoint dict_get (key : text) (d : address_dict) : option text :=
  match d with
  | [] => None
  | (k, v) :: tl => if Str.eqb key k then v else dict_get key tl
  end.

(** One recognised entity: its type and its offsets into the input. *)
Record entity : Type := Entity {
  ent_type : option text;
  start_index : option Z;
  end_index : option Z
}.

(** The response object; an absent key is [None]. *)
Record response : Type := Response {
  score : option number;
  address : option address_dict;
  entities : option (list entity)
}.

(** Python truth values. *)
Definition truthy_text (o : option text) : bool :=
  match o with Some (_ :: _) => true | _ => false end.

Definition truthy_list {A : Type} (o : option (list A)) : bool :=
  match o with Some (_ :: _) => true | _ => false end.

(** Exceptions, by the classes the handlers tell apart:
    [requests.exceptions.RequestException], [json.JSONDecodeError], the
    [requests.exceptions.JSONDecodeError] of recent [requests], which is
    both, and anything else. *)
Inductive exn : Type :=
| RequestException
| JSONDecodeError
| RequestsJSONDecodeError
| OtherError.

Definition is_request_exception (e : exn) : bool :=
  match e with RequestException | RequestsJSONDecodeError => true | _ => false end.

Definition is_json_decode_error (e : exn) : bool :=
  match e with JSONDecodeError | RequestsJSONDecodeError => true | _ => false end.

(** What [response.json()] does: raise, or return a value ([None]: JSON
    null or another false value).  A true value is taken to be the response
    object above, shaped as the service's interface gives it; on a true
    value of another shape (a list, a score that is null or a string) the
    code raises [AttributeError] or [TypeError] at line 69 or 175, and
    such answers are outside this model. *)
Inductive json_outcome : Type :=
| JsonRaises (e : exn)
| JsonValue (v : option response).

Record http_response : Type := HttpResponse {
  status_code : Z;
  json : json_outcome
}.

(** What [requests.put] does. *)
Inductive put_outcome : Type :=
| PutRaises (e : exn)
| PutReturns (resp : http_response).

(** A call returns a value or raises. *)
Inductive result (A : Type) : Type :=
| Return (a : A)
| Raise (e : exn).

Arguments Return {A} a.
Arguments Raise {A} e.

(** ** Calls observed during a tagging pass *)

Inductive event : Type :=
| Scanned (t : text)     (* find_address_candidates(t) *)
| Validated (t : text).  (* parse_address_with_shipengine(t) *)

Definition M (A : Type) : Type := (list event * result A)%type.

Definition ret {A : Type} (a : A) : M A := ([], Return a).

Definition bind {A B : Type} (m : M A) (f : A -> M B) : M B :=
  match m with
  | (tr, Return a) => let (tr', r) := f a in (tr ++ tr', r)
  | (tr, Raise e) => (tr, Raise e)
  end.

Definition observe {A : Type} (e : event) (r : result A) : M A := ([e], r).

Notation "x <- m ;; k" := (bind m (fun x => k))
  (at level 61, m at next level, right associativity).

(* ================================================================== *)
(** * [geo_ner/address_parser.py] *)
(* ================================================================== *)

Module AddressParser.

(** ** The patterns, as written in the source *)
(** [has_number], line 101. *)
Definition re_has_number : Re.regex := Eval vm_compute in Re.compile (T "\b\d{1,5}\b").
(** [has_street], line 102 (IGNORECASE). *)
Definition re_has_street : Re.regex := Eval vm_compute in Re.compile (T "\b(?:Street|St\.?|Avenue|Ave\.?|Road|Rd\.?|Lane|Ln\.?|Drive|Dr\.?|Boulevard|Blvd\.?)\b").
(** [has_city_state_zip], line 103. *)
Definition re_has_city_state_zip : Re.regex := Eval vm_compute in Re.compile (T "\b[A-Za-z\s]+,\s*[A-Z]{2}\s+\d{5}(?:-\d{4})?\b").
(** [has_po_box], line 104 (IGNORECASE). *)
Definition re_has_po_box : Re.regex := Eval vm_compute in Re.compile (T "\bP\.?O\.?\s+Box\s+\d+\b").
(** [addr_match], line 122 (IGNORECASE). *)
Definition re_addr_line : Re.regex := Eval vm_compute in Re.compile (T "\b\d{1,5}\s+[A-Za-z0-9\s,.-]+?(?:Street|St\.?|Avenue|Ave\.?|Road|Rd\.?|Lane|Ln\.?|Drive|Dr\.?|Boulevard|Blvd\.?|Circle|Cir\.?|Court|Ct\.?|Place|Pl\.?|Way|Parkway|Pkwy\.?)").
(** [csz_match], line 127. *)
Definition re_csz : Re.regex := Eval vm_compute in Re.compile (T "\b([A-Za-z\s]+),\s*([A-Z]{2})\s+(\d{5}(?:-\d{4})?)\b").
(** Line 192: number, street, city, state name or abbreviation, ZIP. *)
Definition address_pattern_full : Re.regex := Eval vm_compute in Re.compile (T "\b\d{1,5}\s+[A-Za-z0-9\s,.-]+?(?:Street|St\.?|Avenue|Ave\.?|Road|Rd\.?|Lane|Ln\.?|Drive|Dr\.?|Boulevard|Blvd\.?|Circle|Cir\.?|Court|Ct\.?|Place|Pl\.?|Way|Parkway|Pkwy\.?|Highway|Hwy\.?)\b[^.!?]*?[A-Za-z\s]+[,\s]+(?:[A-Z]{2}|Alabama|Alaska|Arizona|Arkansas|California|Colorado|Connecticut|Delaware|Florida|Georgia|Hawaii|Idaho|Illinois|Indiana|Iowa|Kansas|Kentucky|Louisiana|Maine|Maryland|Massachusetts|Michigan|Minnesota|Mississippi|Missouri|Montana|Nebraska|Nevada|New Hampshire|New Jersey|New Mexico|New York|North Carolina|North Dakota|Ohio|Oklahoma|Oregon|Pennsylvania|Rhode Island|South Carolina|South Dakota|Tennessee|Texas|Utah|Vermont|Virginia|Washington|West Virginia|Wisconsin|Wyoming)\s+\d{5}(?:-\d{4})?").
(** Line 195: the same with an optional suite or apartment. *)
Definition address_pattern_suite : Re.regex := Eval vm_compute in Re.compile (T "\b\d{1,5}\s+[A-Za-z0-9\s,.-]+?(?:Street|St\.?|Avenue|Ave\.?|Road|Rd\.?|Lane|Ln\.?|Drive|Dr\.?|Boulevard|Blvd\.?|Circle|Cir\.?|Court|Ct\.?|Place|Pl\.?|Way|Parkway|Pkwy\.?)(?:\s*,?\s*(?:Suite|Ste\.?|Apt\.?|Apartment|Unit|#)\s*[A-Za-z0-9-]+)?[^.!?]*?[A-Za-z\s]+[,\s]+[A-Z]{2}\s+\d{5}(?:-\d{4})?").
(** Line 198: PO Box addresses. *)
Definition address_pattern_po_box : Re.regex := Eval vm_compute in Re.compile (T "\b(?:P\.?O\.?\s+Box|Post\s+Office\s+Box)\s+\d+[^.!?]*?[A-Za-z\s]+[,\s]+[A-Z]{2}\s+\d{5}(?:-\d{4})?").
(** Line 201: number and street name only. *)
Definition address_pattern_simple : Re.regex := Eval vm_compute in Re.compile (T "\b\d{1,5}\s+[A-Za-z][A-Za-z0-9\s,.-]{5,50}(?:Street|St\.?|Avenue|Ave\.?|Road|Rd\.?|Lane|Ln\.?|Drive|Dr\.?|Boulevard|Blvd\.?)").
(** Line 209. *)
Definition re_trailing_punct : Re.regex := Eval vm_compute in Re.compile (T "[,;]\s*$").
(** Line 216. *)
Definition re_sentence_end : Re.regex := Eval vm_compute in Re.compile (T "[.!?]+").
(** Line 221. *)
Definition re_number_space : Re.regex := Eval vm_compute in Re.compile (T "\b\d{1,5}\s").
(** Line 222 (IGNORECASE). *)
Definition re_street_word : Re.regex := Eval vm_compute in Re.compile (T "\b(?:Street|St|Avenue|Ave|Road|Rd|Lane|Ln|Drive|Dr|Boulevard|Blvd)\b").
(** Line 229. *)
Definition re_whitespace : Re.regex := Eval vm_compute in Re.compile (T "\s+").

Definition address_patterns : list Re.regex :=
  [address_pattern_full; address_pattern_suite; address_pattern_po_box;
   address_pattern_simple].

Definition is_some {A : Type} (o : option A) : bool :=
  match o with Some _ => true | None => false end.

(** ** The parser object *)

(** [self]: the [mock_mode] flag; the key and the base URL only shape the
    request, which [requests_put] stands for. *)
Record parser : Type := Parser {
  mock_mode : bool
}.

(** ** The offline scorer *)

Definition has_number (t : text) : bool := is_some (Re.search false re_has_number t).
Definition has_street (t : text) : bool := is_some (Re.search true re_has_street t).
Definition has_city_state_zip (t : text) : bool :=
  is_some (Re.search false re_has_city_state_zip t).
Definition has_po_box (t : text) : bool := is_some (Re.search true re_has_po_box t).

(** Lines 107-111. *)
Definition mock_score (num street csz po_box : bool) : float :=
  let score := 0.0%float in
  let score := if num then (score + 0.3)%float else score in
  let score := if street then (score + 0.4)%float else score in
  let score := if csz then (score + 0.3)%float else score in
  let score := if po_box then (score + 0.5)%float else score in
  score.

Definition mock_address_line1 (t : text) : text :=
  match Re.search true re_addr_line t with
  | Some m => Str.strip (Re.group0 m)
  | None => []
  end.

Definition mock_city_state_zip (t : text) : text * text * text :=
  match Re.search false re_csz t with
  | Some m => (Str.strip (Re.group 1 m), Re.group 2 m, Re.group 3 m)
  | None => ([], [], [])
  end.

(** [_mock_address_validation], lines 90-144. *)
Definition _mock_address_validation (t : text) : option response :=
  let num := has_number t in
  let street := has_street t in
  let csz := has_city_state_zip t in
  let po_box := has_po_box t in
  let score := mock_score num street csz po_box in
  if ((num && street) || po_box)%bool then
    let address_line1 := mock_address_line1 t in
    let '(city, state, postal_code) := mock_city_state_zip t in
    Some (Response (Some (NFloat score))
            (Some [(T "address_line1", Some address_line1);
                   (T "city_locality", Some city);
                   (T "state_province", Some state);
                   (T "postal_code", Some postal_code);
                   (T "country_code", Some (T "US"))])
            None)
  else None.

Section WithService.

(** [requests.put(url, json={"text": t}, headers=..., timeout=10)]. *)
Variable requests_put : text -> put_outcome.

Variable self : parser.

(** The two [except] clauses of lines 81-86, in order. *)
Definition handle (t : text) (e : exn) : result (option response) :=
  if is_request_exception e then Return (_mock_address_validation t)
  else if is_json_decode_error e then Return None
  else Raise e.

(** [parse_address_with_shipengine], lines 46-88. *)
Definition parse_address_with_shipengine (t : text) : result (option response) :=
  if mock_mode self then Return (_mock_address_validation t)
  else
    match requests_put t with
    | PutRaises e => handle t e
    | PutReturns resp =>
        if (status_code resp =? 200)%Z then
          match json resp with
          | JsonRaises e => handle t e
          | JsonValue (Some res) =>
              if truthy_list (address res) then Return (Some res) else Return None
          | JsonValue None => Return None
          end
        else if (status_code resp =? 402)%Z then Return (_mock_address_validation t)
        else if (status_code resp =? 401)%Z then Return (_mock_address_validation t)
        else Return None
    end.

End WithService.

(** [score >= confidence_threshold] with the threshold 0.5. *)
Definition score_ok (n : number) : bool :=
  match n with
  | NInt z => (1 <=? z)%Z
  | NFloat f => PrimFloat.leb 0.5%float f
  end.

(** [is_valid_address], lines 146-175. *)
Definition is_valid_address (parsed_response : option response) : bool :=
  match parsed_response with
  | None => false
  | Some res =>
      if negb (truthy_list (address res)) then false
      else
        match address res with
        | None => false
        | Some addr =>
            if negb (truthy_text (dict_get (T "address_line1") addr)) then false
            else
              let optional_but_helpful :=
                [T "city_locality"; T "state_province"; T "postal_code"] in
              let has_additional_component :=
                existsb (fun field => truthy_text (dict_get field addr))
                        optional_but_helpful in
              let score :=
                match score res with Some n => n | None => NInt 0 end in
              (has_additional_component && score_ok score)%bool
        end
  end.

(** ** The candidate scanner *)

Definition scan_flags := true.  (* IGNORECASE | MULTILINE | DOTALL *)

(** Lines 206-212, for the matches of one pattern. *)
Definition candidates_of_pattern (t : text) (pattern : Re.regex) : list text :=
  flat_map
    (fun m =>
       let candidate := Str.strip (Re.group0 m) in
       let candidate := Re.sub false re_trailing_punct (fun _ => []) candidate in
       if (15 <? List.length candidate) then [candidate] else [])
    (Re.finditer scan_flags pattern t).

(** Lines 216-223. *)
Definition candidates_of_sentences (t : text) : list text :=
  flat_map
    (fun sentence =>
       let sentence := Str.strip sentence in
       if ((20 <? List.length sentence)
           && is_some (Re.search false re_number_space sentence)
           && is_some (Re.search true re_street_word sentence))%bool
       then [sentence] else [])
    (Re.split false re_sentence_end t).

(** The list [candidates] at line 225. *)
Definition pooled_candidates (t : text) : list text :=
  flat_map (candidates_of_pattern t) address_patterns ++ candidates_of_sentences t.

(** Line 229. *)
Definition normalize (candidate : text) : text :=
  Re.sub false re_whitespace (fun _ => T " ") (Str.strip (Str.lower candidate)).

Definition mem (x : text) (seen : list text) : bool := existsb (Str.eqb x) seen.

(** Lines 226-232: [seen] is the set of normal forms met so far. *)
Fixpoint unique_loop (seen : list text) (candidates : list text) : list text :=
  match candidates with
  | [] => []
  | candidate :: rest =>
      let candidate_clean := normalize candidate in
      if (negb (mem candidate_clean seen) && (15 <? List.length candidate))%bool
      then candidate :: unique_loop (candidate_clean :: seen) rest
      else unique_loop seen rest
  end.

(** [find_address_candidates], lines 177-234. *)
Definition find_address_candidates (t : text) : list text :=
  unique_loop [] (pooled_candidates t).

(** ** Recovering the span from the entities *)

Definition address_entity_types : list text :=
  [T "address"; T "address_line"; T "city_locality"; T "state_province";
   T "postal_code"].

Definition entity_span (e : entity) : list (Z * Z) :=
  match ent_type e with
  | Some ty =>
      if mem ty address_entity_types then
        match start_index e, end_index e with
        | Some s, Some n => [(s, n)]
        | _, _ => []
        end
      else []
  | None => []
  end.

(** [_extract_address_text_from_entities], lines 292-329. *)
Definition _extract_address_text_from_entities (res : response) (original_text : text)
    : option text :=
  if negb (truthy_list (entities res)) then None
  else
    let address_entities :=
      flat_map entity_span (match entities res with Some es => es | None => [] end) in
    match address_entities with
    | [] => None
    | (s0, e0) :: more =>
        let min_start := fold_left Z.min (map fst more) s0 in
        let max_end := fold_left Z.max (map snd more) e0 in
        let address_text := Str.strip (Str.slice min_start max_end original_text) in
        if ((10 <? List.length address_text) && existsb Char.is_py_digit address_text)%bool
        then Some address_text else None
    end.

(** ** The tagger *)

Definition wrap (candidate : text) : text :=
  T "<address>" ++ candidate ++ T "</address>".

Section Tagger.

Variable requests_put : text -> put_outcome.
Variable self : parser.

Definition validate (t : text) : M (option response) :=
  observe (Validated t) (parse_address_with_shipengine requests_put self t).

(** Lines 271-283: the loop over the candidates. *)
Fixpoint tag_candidates (candidates : list text) (tagged_text : text) : M text :=
  match candidates with
  | [] => ret tagged_text
  | candidate :: rest =>
      parsed_response <- validate candidate ;;
      if (is_some parsed_response && is_valid_address parsed_response)%bool then
        if negb (Str.contains (wrap candidate) tagged_text)
        then tag_candidates rest (Str.replace candidate (wrap candidate) tagged_text)
        else tag_candidates rest tagged_text
      else tag_candidates rest tagged_text
  end.

(** [tag_addresses_in_text], lines 236-290, with the calls it makes. *)
Definition tag_addresses_in_text_M (t : text) : M text :=
  match t with
  | [] => ret t
  | _ :: _ =>
      match Str.strip t with
      | [] => ret t
      | _ :: _ =>
          candidates <- observe (Scanned t) (Return (find_address_candidates t)) ;;
          match candidates with
          | [] =>
              parsed_response <- validate t ;;
              match parsed_response with
              | Some res =>
                  if is_valid_address parsed_response then
                    match _extract_address_text_from_entities res t with
                    | Some (c :: address_text') =>
                        let address_text := c :: address_text' in
                        ret (Str.replace address_text (wrap address_text) t)
                    | _ => ret t
                    end
                  else ret t
              | None => ret t
              end
          | _ :: _ => tag_candidates candidates t
          end
      end
  end.

(** The returned text, or the exception that escapes. *)
Definition tag_addresses_in_text (t : text) : result text :=
  snd (tag_addresses_in_text_M t).

End Tagger.

End AddressParser.

(* ================================================================== *)
(** * [geo_ner/tagged_text_to_geotext.py] *)
(* ================================================================== *)

(** [TQ "..."] is the text of a literal in which every apostrophe stands
    for a double quote. *)
Definition TQ (s : string) : text :=
  map (fun c => if Ascii.eqb c "'" then dquote else c) (list_ascii_of_string s).

Module LinkRenderer.

(** Line 30: the current schema. *)
Definition pattern : Re.regex := Eval vm_compute in
  Re.compile (TQ "<(GPE|LOC|address)\s+lat='([^']+)'\s+lon='([^']+)'\s+zoom_level='([^']+)'>([^<]+)</\1>").

(** Line 59: the legacy schema. *)
Definition legacy_pattern : Re.regex := Eval vm_compute in
  Re.compile (TQ "<(GPE|LOC|address)\s+lat='([^']+)'\s+lon='([^']+)'>([^<]+)</\1>").

(** Line 83. *)
Definition simple_pattern : Re.regex := Eval vm_compute in
  Re.compile (T "<(GPE|LOC|address)>([^<]+)</\1>").

(** Line 90. *)
Definition address_pattern : Re.regex := Eval vm_compute in
  Re.compile (T "<address>([^<]+)</address>").

Definition none : text := T "none".

(** The f-string of lines 51-53 and 75-77. *)
Definition anchor (lon lat zoom_level entity_text : text) : text :=
  let map_url :=
    T "https://www.arcgis.com/apps/mapviewer/index.html?center=" ++ lon ++ T ","
      ++ lat ++ T "&level=" ++ zoom_level ++ T "&marker=" ++ lon ++ T "," ++ lat in
  TQ "<a href='" ++ map_url ++ TQ "' target='_blank'>" ++ entity_text ++ T "</a>".

(** [replace_with_html_link], lines 36-53. *)
Definition replace_with_html_link (m : Re.mstate) : text :=
  let lat := Re.group 2 m in
  let lon := Re.group 3 m in
  let zoom_level := Re.group 4 m in
  let entity_text := Re.group 5 m in
  if (Str.eqb lat none || Str.eqb lon none || Str.eqb zoom_level none)%bool
  then entity_text
  else anchor lon lat zoom_level entity_text.

(** [replace_legacy_with_html_link], lines 61-77. *)
Definition replace_legacy_with_html_link (m : Re.mstate) : text :=
  let lat := Re.group 2 m in
  let lon := Re.group 3 m in
  let entity_text := Re.group 4 m in
  if (Str.eqb lat none || Str.eqb lon none)%bool
  then entity_text
  else anchor lon lat (T "16") entity_text.

Definition count_matches (r : Re.regex) (s : text) : nat :=
  List.length (Re.finditer false r s).

(** [transform_xml_to_html_links], lines 17-100. *)
Definition transform_xml_to_html_links (geocoded_text : text) : text :=
  let html_text := Re.sub false pattern replace_with_html_link geocoded_text in
  let html_text := Re.sub false legacy_pattern replace_legacy_with_html_link html_text in
  let simple_tags := count_matches simple_pattern html_text in
  let html_text :=
    if (0 <? simple_tags) then Re.sub false simple_pattern (Re.group 2) html_text
    else html_text in
  let ungeocoded_addresses := count_matches address_pattern html_text in
  let html_text :=
    if (0 <? ungeocoded_addresses) then Re.sub false address_pattern (Re.group 1) html_text
    else html_text in
  html_text.

End LinkRenderer.

(* ================================================================== *)
(** * Inputs used in the scenarios *)
(* ================================================================== *)

Import AddressParser.

(** The parser in offline ([mock_mode]) and in remote mode. *)
Definition offline : parser := Parser true.
Definition remote : parser := Parser false.

(** A service that cannot be reached, and one that answers 500. *)
Definition unreachable (_ : text) : put_outcome := PutRaises RequestException.
Definition server_error (_ : text) : put_outcome :=
  PutReturns (HttpResponse 500 (JsonValue None)).

Definition scenario_a : text := T "123 Main Street, Anytown, CA 90210".

(** Two addresses, the PO box first. *)
Definition two_addresses : text :=
  T "P.O. Box 789, Reno, NV 89501 or 123 Main Street, Anytown, CA 90210".

(** An address with a [<] between street and city. *)
Definition address_with_angle : text := T "123 Main Street < Anytown, CA 90210".

(** [s.find(p)]: the index of the first occurrence. *)
Fixpoint find_index (p s : text) : option nat :=
  if Str.starts_with p s then Some 0
  else match s with
       | _ :: tl => option_map S (find_index p tl)
       | [] => None
       end.

(** The candidates appear in the order of their first occurrence in [t]. *)
Fixpoint positions_ascending (t : text) (cands : list text) : bool :=
  match cands with
  | a :: ((b :: _) as rest) =>
      match find_index a t, find_index b t with
      | Some i, Some j => (i <=? j) && positions_ascending t rest
      | _, _ => false
      end
  | _ => true
  end.

(** [c] occurs in [t] as a contiguous piece. *)
Definition substring_of (c t : text) : Prop := exists pre post, t = pre ++ c ++ post.

(** [l1] is [l2] with some elements left out, the order kept. *)
Inductive subseq {A : Type} : list A -> list A -> Prop :=
| subseq_nil : subseq [] []
| subseq_skip : forall x l1 l2, subseq l1 l2 -> subseq l1 (x :: l2)
| subseq_keep : forall x l1 l2, subseq l1 l2 -> subseq (x :: l1) (x :: l2).

(** The texts of [cs] stand in [t] one after another, without overlap. *)
Inductive in_order : list text -> text -> Prop :=
| in_order_nil : forall t, in_order [] t
| in_order_cons : forall pre c cs rest,
    in_order cs rest -> in_order (c :: cs) (pre ++ c ++ rest).

(** Two candidates with one normal form. *)
Definition same_form (a b : text) : bool := Str.eqb (normalize a) (normalize b).

(** Among [earlier] there is a candidate longer than 15 characters with the
    normal form of [c]. *)
Definition form_met (earlier : list text) (c : text) : bool :=
  existsb (fun c' => (15 <? List.length c') && same_form c' c)%bool earlier.

(** The selection the amended C4 describes, written without the set [seen]:
    the candidates are passed in their order, [earlier] holding those already
    passed; one is kept when it is longer than 15 characters and no such
    candidate with its normal form was passed before. *)
Fixpoint first_of_each_form (earlier candidates : list text) : list text :=
  match candidates with
  | [] => []
  | c :: rest =>
      if ((15 <? List.length c) && negb (form_met earlier c))%bool
      then c :: first_of_each_form (c :: earlier) rest
      else first_of_each_form (c :: earlier) rest
  end.

(** A text with a street name and numbers, but no city, state and ZIP code. *)
Definition street_fair : text := T "Call 555 1234 about the Main Street fair today".

(** One address in two spellings. *)
Definition two_spellings : text :=
  T "123 Main Street, Anytown, CA 90210! 123 MAIN STREET, ANYTOWN, CA 90210".

(* ================================================================== *)
(** * Notions used in the statements and proofs *)
(* ================================================================== *)

Import Re LinkRenderer.

(** [st'] is reached from [st] by consuming a prefix of the input. *)
Definition extends (st st' : mstate) : Prop :=
  exists x, ms_acc st' = x ++ ms_acc st /\ ms_rest st = rev x ++ ms_rest st'.

(** The set [\d]. *)
Definition is_digit_set (cs : cset) : bool :=
  match cs with
  | CS false [CDigit] => true
  | _ => false
  end.

(** A regex every match of which consumes a digit. *)
Fixpoint needs_digit (r : regex) : bool :=
  match r with
  | RSet cs => is_digit_set cs
  | RSeq r1 r2 => needs_digit r1 || needs_digit r2
  | RAlt r1 r2 => needs_digit r1 && needs_digit r2
  | RRep _ (S _) _ cs => is_digit_set cs
  | RGroup _ r1 => needs_digit r1
  | _ => false
  end.

(** A text without decimal digits. *)
Definition no_digit (t : text) : Prop := Forall (fun c => Char.is_digit c = false) t.

(** The text a list of tokens spells. *)
Fixpoint tokens_text (ts : list token) : text :=
  match ts with
  | [] => []
  | TChar c :: ts' => c :: tokens_text ts'
  | TMatch m :: ts' => group0 m ++ tokens_text ts'
  end.


(** The end-of-text test that closes the pattern of line 209. *)
Definition at_end (st : mstate) : option mstate :=
  rmatch false (RSeq REnd REps) st (fun st' => Some st').

(** ** The renderer's input as a document *)

Inductive kind : Type := GPE | LOC | Address.

Definition kind_name (k : kind) : text :=
  match k with
  | GPE => T "GPE"
  | LOC => T "LOC"
  | Address => T "address"
  end.

(** The pieces of a tagged text: text between the tags, a current-schema
    tag, a legacy-schema tag, a tag without coordinates, and an anchor the
    renderer has produced. *)
Inductive segment : Type :=
| Plain (s : text)
| Current (k : kind) (lat lon zoom_level txt : text)
| Legacy (k : kind) (lat lon txt : text)
| Bare (k : kind) (txt : text)
| Link (lon lat zoom_level txt : text).

(** The pieces as they are written, in the schemas of the interface. *)

Definition seg_text (g : segment) : text :=
  match g with
  | Plain s => s
  | Current k lat lon z txt =>
      T "<" ++ kind_name k ++ TQ " lat='" ++ lat ++ TQ "' lon='" ++ lon
        ++ TQ "' zoom_level='" ++ z ++ TQ "'>" ++ txt ++ T "</" ++ kind_name k ++ T ">"
  | Legacy k lat lon txt =>
      T "<" ++ kind_name k ++ TQ " lat='" ++ lat ++ TQ "' lon='" ++ lon
        ++ TQ "'>" ++ txt ++ T "</" ++ kind_name k ++ T ">"
  | Bare k txt => T "<" ++ kind_name k ++ T ">" ++ txt ++ T "</" ++ kind_name k ++ T ">"
  | Link lon lat z txt => anchor lon lat z txt
  end.

Definition document := list segment.

Definition doc_text (d : document) : text := flat_map seg_text d.

Definition lt : ascii := "<"%char.

(** No match of [r] starts inside [s], whatever follows. *)
Definition inert (ic : bool) (r : regex) (s : text) : Prop :=
  forall pre c suf rest prev,
    s = pre ++ c :: suf -> try_match ic r prev (c :: suf ++ rest) = None.

(** A text inside which no tag starts: none of the renderer's four
    patterns matches from a position inside it, whatever follows. *)
Definition tagless (s : text) : Prop :=
  inert false pattern s /\ inert false legacy_pattern s /\
  inert false simple_pattern s /\ inert false address_pattern s.

(** An attribute value: not empty, without quote or [<]. *)
Definition attr_value (v : text) : Prop := v <> [] /\ ~ In dquote v /\ ~ In lt v.

(** A tag's inner text: not empty, without [<]. *)
Definition inner_text (v : text) : Prop := v <> [] /\ ~ In lt v.

(** A piece is well formed when its parts are what the schemas allow. *)
Definition well_formed (g : segment) : Prop :=
  match g with
  | Plain s => tagless s
  | Current _ lat lon z txt =>
      attr_value lat /\ attr_value lon /\ attr_value z /\ inner_text txt
  | Legacy _ lat lon txt => attr_value lat /\ attr_value lon /\ inner_text txt
  | Bare _ txt => inner_text txt
  | Link lon lat z txt => attr_value lon /\ attr_value lat /\ attr_value z /\ inner_text txt
  end.

Definition is_none (v : text) : bool := Str.eqb v none.

(** The produced hyperlink, as the interface describes it. *)
Definition map_link (lon lat z txt : text) : text :=
  TQ "<a href='https://www.arcgis.com/apps/mapviewer/index.html?center="
    ++ lon ++ T "," ++ lat ++ T "&level=" ++ z ++ T "&marker=" ++ lon ++ T "," ++ lat
    ++ TQ "' target='_blank'>" ++ txt ++ T "</a>".

(** What the renderer is to make of each piece: the hyperlink with the
    tag's own zoom level, or with level 16 for a legacy tag, and the inner
    text alone when a coordinate is "none" or absent. *)
Definition rendered (g : segment) : text :=
  match g with
  | Plain s => s
  | Current _ lat lon z txt =>
      if (is_none lat || is_none lon || is_none z)%bool then txt
      else map_link lon lat z txt
  | Legacy _ lat lon txt =>
      if (is_none lat || is_none lon)%bool then txt
      else map_link lon lat (T "16") txt
  | Bare _ txt => txt
  | Link lon lat z txt => map_link lon lat z txt
  end.

(** The pieces after each of the renderer's substitutions. *)
Definition after_current (g : segment) : segment :=
  match g with
  | Current _ lat lon z txt =>
      if (is_none lat || is_none lon || is_none z)%bool then Plain txt
      else Link lon lat z txt
  | _ => g
  end.

Definition after_legacy (g : segment) : segment :=
  match g with
  | Legacy _ lat lon txt =>
      if (is_none lat || is_none lon)%bool then Plain txt
      else Link lon lat (T "16") txt
  | _ => g
  end.

Definition after_simple (g : segment) : segment :=
  match g with
  | Bare _ txt => Plain txt
  | _ => g
  end.

Definition is_current (g : segment) : bool :=
  match g with Current _ _ _ _ _ => true | _ => false end.

Definition is_legacy (g : segment) : bool :=
  match g with Legacy _ _ _ _ => true | _ => false end.

Definition is_bare (g : segment) : bool :=
  match g with Bare _ _ => true | _ => false end.

(** A regex whose matches start with [<]. *)
Definition starts_with_lt (r : regex) : Prop :=
  forall prev c tl, c <> lt -> try_match false r prev (c :: tl) = None.

(** No match of [r] starts at a closing tag, at an anchor, or at the end. *)
Definition skips_markup (r : regex) : Prop :=
  (forall prev tl, try_match false r prev (lt :: "/"%char :: tl) = None) /\
  (forall prev tl, try_match false r prev (lt :: "a"%char :: " "%char :: tl) = None) /\
  (forall prev, try_match false r prev [] = None).

(** The opening of a coordinate-less tag. *)
Definition skips_bare (r : regex) : Prop :=
  forall k prev tl, try_match false r prev (lt :: kind_name k ++ ">"%char :: tl) = None.


(** [transform_xml_to_html_links(tag_addresses_in_text(t))]. *)
Definition render_after_tag (requests_put : text -> put_outcome) (self : parser)
    (t : text) : result text :=
  match tag_addresses_in_text requests_put self t with
  | Return tagged => Return (transform_xml_to_html_links tagged)
  | Raise e => Raise e
  end.

(** A current-schema and a legacy-schema tag in one text, and a tag whose
    coordinates are "none". *)
Definition both_schemas : document :=
  [Plain (T "If a < b, see ");
   Current GPE (T "34.05") (T "-118.25") (T "10") (T "Los Angeles");
   Plain (T " and ");
   Legacy Address (T "40.7") (T "-74.0") (T "1 Main St");
   Plain (T ", not ");
   Current LOC none none none (T "Somewhere")].

Definition visit : text := T "Visit 123 Main Street, Anytown, CA 90210 today".

(** ** Tags beside one another and tags two deep *)

Definition gt : ascii := ">"%char.

(** The test of line 277 on a candidate: the validator's result is a true
    value and [is_valid_address] accepts it. *)
Definition accepted (requests_put : text -> put_outcome) (self : parser)
    (candidate : text) : bool :=
  match parse_address_with_shipengine requests_put self candidate with
  | Return parsed_response =>
      (is_some parsed_response && is_valid_address parsed_response)%bool
  | Raise _ => false
  end.

(** No accepted candidate occurs inside an accepted candidate that itself
    occurs inside a candidate accepted before it: [outer] holds the
    accepted candidates already passed, [inner] those of them that occur
    inside one accepted before. *)
Fixpoint two_deep (accepts : text -> bool) (outer inner candidates : list text)
    : bool :=
  match candidates with
  | [] => true
  | c :: rest =>
      if accepts c then
        if existsb (Str.contains c) outer
        then (forallb (fun b => negb (Str.contains c b)) inner
              && two_deep accepts (c :: outer) (c :: inner) rest)%bool
        else two_deep accepts (c :: outer) inner rest
      else two_deep accepts outer inner rest
  end.

(** [tagged_flat W t s]: the text [s] is [t] with address tags put around
    pieces of it, each piece one of [W] and not empty, no tag inside
    another. *)
Inductive tagged_flat (W : list text) : text -> text -> Prop :=
| flat_leaf : forall x, tagged_flat W x x
| flat_wrap : forall x c y s,
    In c W -> c <> [] -> tagged_flat W y s ->
    tagged_flat W (x ++ c ++ y) (x ++ wrap c ++ s).

(** [tagged_two W1 W2 t s]: the text [s] is [t] with address tags put
    around pieces of it, each piece one of [W1] and not empty, and inside
    such a piece around pieces of it that are among [W2]: tags at most two
    deep. *)
Inductive tagged_two (W1 W2 : list text) : text -> text -> Prop :=
| two_leaf : forall x, tagged_two W1 W2 x x
| two_wrap : forall x b y sb s,
    In b W1 -> b <> [] -> tagged_flat W2 b sb -> tagged_two W1 W2 y s ->
    tagged_two W1 W2 (x ++ b ++ y)
      (x ++ T "<address>" ++ sb ++ T "</address>" ++ s).

(** Two addresses in two sentences. *)
Definition two_stops : text :=
  T "Send it to 123 Main Street, Anytown, CA 90210. Bill 77 Oak Avenue, Reno, NV 89501.".

(** Two candidates inside a third, neither inside the other. *)
Definition one_inside : text :=
  T "1 A. Reno, NV 89501 is near 22 Oak Street, Reno, NV 89501".

(** Three candidates, each inside the one found before it. *)
Definition three_deep : text :=
  T "1 A. Reno, NV 89501 is near 22 Oak Street. B Street, Reno, NV 89501".

(** Sentences that begin like the end of a tag. *)
Definition tag_ends : text :=
  T "s>1234 Main Street, Anytown, CA 90210! ss>s>1234 Main Street, Anytown, CA 90210".

(** ** Scanning and repetition *)

(** The last character of [x], or [p] when [x] is empty. *)
Fixpoint last_or (x : text) (p : option ascii) : option ascii :=
  match x with
  | [] => p
  | c :: x' => last_or x' (Some c)
  end.

(** The state after consuming [x], [rest] being what follows. *)
Definition consumed (x rest : text) (st : mstate) : mstate :=
  MS (last_or x (ms_prev st)) (rev x ++ ms_acc st) rest (ms_caps st).

(** [re.sub] from the middle of a text. *)
Definition sub_from (ic : bool) (r : regex) (repl : mstate -> text)
    (prev : option ascii) (rs : text) : text :=
  sub_tokens repl (scan_loop ic r 0 prev rs).

(** The characters of [x] all belong to [cs], and [rest] does not go on
    with one that does. *)
Definition run_of (ic : bool) (cs : cset) (x rest : text) : Prop :=
  Forall (fun c => cset_match ic cs c = true) x /\
  match rest with
  | [] => True
  | d :: _ => cset_match ic cs d = false
  end.

(** The validity predicate in the words of the specification: the response
    carries an address whose line is non-empty, one of city, state and
    postal code is non-empty, and the score is at least 0.5. *)
Definition score_at_least_half (n : number) : Prop :=
  match n with
  | NInt z => (1 <= 2 * z)%Z
  | NFloat f => PrimFloat.leb 0.5%float f = true
  end.

Definition carries_valid_address (pr : option response) : Prop :=
  exists res addr n,
    pr = Some res /\ address res = Some addr /\
    truthy_text (dict_get (T "address_line1") addr) = true /\
    (truthy_text (dict_get (T "city_locality") addr) = true \/
     truthy_text (dict_get (T "state_province") addr) = true \/
     truthy_text (dict_get (T "postal_code") addr) = true) /\
    score res = Some n /\ score_at_least_half n.

(** The response has no address line. *)
Definition no_address_line (pr : option response) : Prop :=
  forall res addr, pr = Some res -> address res = Some addr ->
    truthy_text (dict_get (T "address_line1") addr) = false.

(* ================================================================== *)
(** * The other functions of the two modules *)
(* ================================================================== *)

(** ** Construction and the module's entry point *)

(** What a call of [process_text_for_addresses] does: return, raise the
    [ValueError] of the constructor, or let an exception of the service
    escape. *)
Inductive outcome (A : Type) : Type :=
| Returns (a : A)
| RaisesValueError
| Raises (e : exn).

Arguments Returns {A} a.
Arguments RaisesValueError {A}.
Arguments Raises {A} e.

(** [AddressParser.__init__], lines 23-44; [api_key] is [None] or a
    string, and the result [None] stands for the [ValueError] of line 33. *)
Definition __init__ (api_key : option text) (mock_mode : bool) : option parser :=
  if (negb (truthy_text api_key) && negb mock_mode)%bool then None
  else Some (Parser mock_mode).

(** [process_text_for_addresses], lines 346-359; [requests_put] is the
    service as it answers requests that carry this key. *)
Definition process_text_for_addresses (requests_put : text -> put_outcome)
    (t : text) (api_key : option text) (mock_mode : bool) : outcome text :=
  match __init__ api_key mock_mode with
  | None => RaisesValueError
  | Some parser =>
      match tag_addresses_in_text requests_put parser t with
      | Return tagged => Returns tagged
      | Raise e => Raises e
      end
  end.

(** ** Reading the tags back *)

(** [.] under DOTALL: every character. *)
Definition any_char : cset := CS true [].

(** The regex of a literal text, followed by [r]. *)
Fixpoint literal (s : text) (r : regex) : regex :=
  match s with
  | [] => r
  | c :: s' => RSeq (RChar c) (literal s' r)
  end.

(** Line 341: [<address>(.*?)</address>], read with DOTALL. *)
Definition tagged_address_pattern : regex := Eval vm_compute in
  literal (T "<address>")
    (RSeq (RGroup 1 (RSeq (RRep false 0 None any_char) REps))
       (literal (T "</address>") REps)).

(** [extract_tagged_addresses], lines 331-343: [re.findall] with one group
    lists the group's text of every match. *)
Definition extract_tagged_addresses (tagged_text : text) : list text :=
  map (group 1) (finditer false tagged_address_pattern tagged_text).

(** ** The analysis functions of [tagged_text_to_geotext.py] *)

(** Line 162. *)
Definition entity_tag_pattern : regex := Eval vm_compute in
  compile (T "<(GPE|LOC|address)[^>]*>").
(** Lines 179-181. *)
Definition gpe_tag_pattern : regex := Eval vm_compute in compile (T "<GPE[^>]*>").
Definition loc_tag_pattern : regex := Eval vm_compute in compile (T "<LOC[^>]*>").
Definition address_tag_pattern : regex := Eval vm_compute in compile (T "<address[^>]*>").

(** A tuple [(entity_type, entity_text, lat, lon, zoom_level)]. *)
Definition coordinates := (text * text * text * text * option text)%type.

(** [extract_coordinates_from_xml], lines 103-138. *)
Definition extract_coordinates_from_xml (xml_text : text) : list coordinates :=
  let coordinates :=
    map (fun m => (group 1 m, group 5 m, group 2 m, group 3 m, Some (group 4 m)))
        (finditer false pattern xml_text) in
  match coordinates with
  | [] =>
      map (fun m => (group 1 m, group 4 m, group 2 m, group 3 m, None))
          (finditer false legacy_pattern xml_text)
  | _ :: _ => coordinates
  end.

(** [validate_xml_format], lines 141-165. *)
Definition validate_xml_format (xml_text : text) : bool :=
  let xml_tags_new := count_matches pattern xml_text in
  let xml_tags_legacy := count_matches legacy_pattern xml_text in
  let all_entity_tags := count_matches entity_tag_pattern xml_text in
  let total_matching_tags := xml_tags_new + xml_tags_legacy in
  all_entity_tags =? total_matching_tags.

(** [count_entities_by_type], lines 168-188: the dictionary, as the list of
    its items. *)
Definition count_entities_by_type (xml_text : text) : list (text * nat) :=
  let gpe_count := count_matches gpe_tag_pattern xml_text in
  let loc_count := count_matches loc_tag_pattern xml_text in
  let address_count := count_matches address_tag_pattern xml_text in
  [(T "GPE", gpe_count); (T "LOC", loc_count); (T "address", address_count);
   (T "total", gpe_count + loc_count + address_count)].

(** [process_geocoded_text], lines 192-202. *)
Definition process_geocoded_text (geocoded_text : text) : text :=
  transform_xml_to_html_links geocoded_text.

(* ================================================================== *)
(** * [geo_ner/config.py] *)
(* ================================================================== *)

Module Config.

(** The boundaries [str.splitlines] cuts at: LF, VT, FF, CR, FS, GS, RS and
    NEL; CR LF counts once. *)
Definition is_line_break (c : ascii) : bool :=
  (Char.between 10 13 c || Char.between 28 30 c || N.eqb (Char.code c) 133)%bool.

Definition carriage_return : ascii := ascii_of_nat 13.

Fixpoint splitlines_loop (cur : text) (s : text) : list text :=
  match s with
  | [] => match cur with [] => [] | _ :: _ => [rev cur] end
  | c :: tl =>
      if is_line_break c then
        rev cur ::
        match tl with
        | d :: tl' =>
            if (Ascii.eqb c carriage_return && Ascii.eqb d newline)%bool
            then splitlines_loop [] tl'
            else splitlines_loop [] tl
        | [] => splitlines_loop [] tl
        end
      else splitlines_loop (c :: cur) tl
  end.

(** [s.splitlines()]. *)
Definition splitlines (s : text) : list text := splitlines_loop [] s.

(** [s.upper()] on a text of ASCII letters, digits and underscores, as the
    keys are. *)
Definition upper (s : text) : text := map Char.upper s.

(** A pattern used with [match]: the attempt is made at the start of the
    text only, where a leading [^] holds. *)
Definition compile_anchored (p : text) : regex :=
  match p with
  | "^"%char :: p' => compile p'
  | _ => compile p
  end.

(** Line 22. *)
Definition LINE_RE : regex := Eval vm_compute in
  compile_anchored (TQ "^\s*([A-Za-z_][A-Za-z0-9_]*)\s*=\s*\'([^\']+)\'\s*$").

(** [LINE_RE.match(line)]. *)
Definition line_match (line : text) : option mstate := try_match false LINE_RE None line.

(** The dictionary [cfg], as the list of its items in insertion order. *)
Definition config := list (text * text).

(** [cfg[key] = value]. *)
Fixpoint set (key value : text) (cfg : config) : config :=
  match cfg with
  | [] => [(key, value)]
  | (k, v) :: tl =>
      if Str.eqb key k then (key, value) :: tl else (k, v) :: set key value tl
  end.

(** [cfg.get(key)]. *)
Fixpoint get (key : text) (cfg : config) : option text :=
  match cfg with
  | [] => None
  | (k, v) :: tl => if Str.eqb key k then Some v else get key tl
  end.

(** The body of the loop, lines 28-36. *)
Definition parse_line (cfg : config) (line : text) : config :=
  let stripped := Str.strip line in
  if (match stripped with [] => true | _ :: _ => false end
      || Str.starts_with (T "#") stripped)%bool
  then cfg
  else
    match line_match line with
    | None => cfg
    | Some m =>
        let key := group 1 m in
        let value := group 2 m in
        set (upper key) value cfg
    end.

(** [_parse_config], lines 25-37. *)
Definition _parse_config (t : text) : config :=
  fold_left parse_line (splitlines t) [].

(** The file [models.cfg]: absent, unreadable, or its text. *)
Inductive config_file : Type :=
| NoFile
| Unreadable
| Contents (t : text).

(** [load_config], lines 40-54: the configuration returned and the new
    value of the global [_CONFIG_CACHE]. *)
Definition load_config (file : config_file) (force : bool) (cache : option config)
    : config * option config :=
  match cache, force with
  | Some cfg, false => (cfg, cache)
  | _, _ =>
      match file with
      | NoFile => ([], Some [])
      | Unreadable => ([], Some [])
      | Contents t => let cfg := _parse_config t in (cfg, Some cfg)
      end
  end.

Definition DEFAULT_SPACY_MODEL : text := T "en_core_web_sm".

(** [get_spacy_model_name], lines 57-73. *)
Definition get_spacy_model_name (file : config_file) (override : option text)
    (cache : option config) : text * option config :=
  if truthy_text override then
    (match override with Some o => o | None => [] end, cache)
  else
    let (cfg, cache') := load_config file false cache in
    let model :=
      match get (T "SPACY_MODEL") cfg with
      | Some m => m
      | None => DEFAULT_SPACY_MODEL
      end in
    (model, cache').

End Config.

(* ================================================================== *)
(** * Notions used in the properties of these functions *)
(* ================================================================== *)

(** A service whose client fails with an exception of neither class. *)
Definition broken (_ : text) : put_outcome := PutRaises OtherError.

(** A valid address too short to be a candidate. *)
Definition short_address : text := T "1 A St,CA 12345".

(** [e] is raised by the request for [c] or by the decoding of its answer. *)
Definition raised_by_service (requests_put : text -> put_outcome) (c : text) (e : exn)
    : Prop :=
  requests_put c = PutRaises e \/
  exists resp, requests_put c = PutReturns resp /\ status_code resp = 200%Z /\
               json resp = JsonRaises e.

(** A text with a decimal digit in it. *)
Definition has_digit (t : text) : bool := existsb Char.is_digit t.

(** [st'] is reached from [st] by consuming a piece with a digit in it. *)
Definition took_digit (st st' : mstate) : Prop :=
  exists x, ms_acc st' = x ++ ms_acc st /\ ms_rest st = rev x ++ ms_rest st' /\
            has_digit x = true.

(** ** Patterns that differ in their groups only *)

(** Nothing in [r] reads a captured group. *)
Fixpoint backref_free (r : regex) : bool :=
  match r with
  | RBackref _ => false
  | RSeq a b | RAlt a b => backref_free a && backref_free b
  | ROpt a | RGroup _ a => backref_free a
  | _ => true
  end.

(** Two states at the same place of the text. *)
Definition same_position (s1 s2 : mstate) : Prop :=
  ms_prev s1 = ms_prev s2 /\ ms_rest s1 = ms_rest s2.

(** [r] followed by [t], the groups of [r] dropped and its sequences nested
    to the right. *)
Fixpoint flatten (r t : regex) : regex :=
  match r with
  | REps => t
  | RSeq a b => flatten a (flatten b t)
  | RGroup _ a => flatten a t
  | RAlt a b => RSeq (RAlt (flatten a REps) (flatten b REps)) t
  | ROpt a => RSeq (ROpt (flatten a REps)) t
  | _ => RSeq r t
  end.

(** Two continuations that succeed at the same places. *)
Definition alike (k1 k2 : mstate -> option mstate) : Prop :=
  forall s1 s2, same_position s1 s2 -> is_some (k1 s1) = is_some (k2 s2).

(** ** Matches over a document *)

(** [re.finditer] from the middle of a text. *)
Definition matches_from (ic : bool) (r : regex) (prev : option ascii) (rs : text)
    : list mstate :=
  matches_of (scan_loop ic r 0 prev rs).

(** Every [<] of [s] opens a closing tag. *)
Fixpoint closing_only (s : text) : bool :=
  match s with
  | [] => true
  | c :: tl =>
      if Ascii.eqb c lt then
        match tl with
        | "/"%char :: _ => closing_only tl
        | _ => false
        end
      else closing_only tl
  end.

(** A piece of a document whose text between the tags holds no [<]. *)
Definition clean (g : segment) : Prop :=
  match g with
  | Plain s => ~ In lt s
  | _ => well_formed g
  end.

(** The kind of a tag, and what follows [<K] in it. *)
Definition tag_kind (g : segment) : option kind :=
  match g with
  | Current k _ _ _ _ | Legacy k _ _ _ | Bare k _ => Some k
  | _ => None
  end.

Definition tag_tail (g : segment) : text :=
  match g with
  | Current k lat lon z txt =>
      TQ " lat='" ++ lat ++ TQ "' lon='" ++ lon ++ TQ "' zoom_level='" ++ z
        ++ TQ "'>" ++ txt ++ T "</" ++ kind_name k ++ T ">"
  | Legacy k lat lon txt =>
      TQ " lat='" ++ lat ++ TQ "' lon='" ++ lon ++ TQ "'>" ++ txt
        ++ T "</" ++ kind_name k ++ T ">"
  | Bare k txt => T ">" ++ txt ++ T "</" ++ kind_name k ++ T ">"
  | _ => []
  end.

Definition kind_eqb (a b : kind) : bool :=
  match a, b with
  | GPE, GPE | LOC, LOC | Address, Address => true
  | _, _ => false
  end.

Definition has_kind (k : kind) (g : segment) : bool :=
  match tag_kind g with
  | Some k' => kind_eqb k k'
  | None => false
  end.

Definition is_tag (g : segment) : bool :=
  match tag_kind g with Some _ => true | None => false end.

(** The tags of each kind in a document. *)
Definition count_kind (k : kind) (d : document) : nat :=
  List.length (filter (has_kind k) d).

(** The tuples [extract_coordinates_from_xml] is to report. *)
Definition current_coordinates (g : segment) : list coordinates :=
  match g with
  | Current k lat lon z txt => [(kind_name k, txt, lat, lon, Some z)]
  | _ => []
  end.

Definition legacy_coordinates (g : segment) : list coordinates :=
  match g with
  | Legacy k lat lon txt => [(kind_name k, txt, lat, lon, None)]
  | _ => []
  end.

(** The address tags without coordinates. *)
Definition bare_address (g : segment) : list text :=
  match g with
  | Bare Address txt => [txt]
  | _ => []
  end.

(** The tags whose kind is among the selected ones. *)
Definition selected (sel : kind -> bool) (g : segment) : bool :=
  match tag_kind g with
  | Some k => sel k
  | None => false
  end.

(** The opening of a tag is matched up to its first [>]. *)
Definition opens (r : regex) (k : kind) : Prop :=
  forall tail rest prev, In ">"%char tail ->
  exists st y,
    try_match false r prev (lt :: kind_name k ++ tail ++ rest) = Some st /\
    ms_acc st <> [] /\ ms_rest st = y ++ rest /\ exists x, tail = x ++ ">"%char :: y.

(** The opening of a tag of another kind is not matched. *)
Definition passes (r : regex) (k : kind) : Prop :=
  forall tl prev, try_match false r prev (lt :: kind_name k ++ tl) = None.

(** The tuple made of a match of the current and of the legacy pattern,
    lines 118-124 and 131-136. *)
Definition current_tuple (m : mstate) : coordinates :=
  (group 1 m, group 5 m, group 2 m, group 3 m, Some (group 4 m)).

Definition legacy_tuple (m : mstate) : coordinates :=
  (group 1 m, group 4 m, group 2 m, group 3 m, None).

(** A text with tags of the three kinds and of the three shapes, and an
    anchor. *)
Definition sample_document : document :=
  [Plain (T "From ");
   Current GPE (T "34.05") (T "-118.25") (T "10") (T "Los Angeles");
   Plain (T " to ");
   Legacy Address (T "40.7") (T "-74.0") (T "1 Main St");
   Plain (T ", ");
   Bare LOC (T "Somewhere");
   Plain (T " or ");
   Bare Address scenario_a;
   Plain (T " and ");
   Link (T "2.35") (T "48.85") (T "12") (T "Paris")].

(** A piece after the renderer's four substitutions. *)
Definition after_all (g : segment) : segment :=
  after_simple (after_legacy (after_current g)).

(** A response of the service for [visit]: the address and its span. *)
Definition visit_response : response :=
  Response (Some (NFloat 0.98%float))
    (Some [(T "address_line1", Some (T "123 Main Street"))])
    (Some [Entity (Some (T "person")) (Some 0%Z) (Some 5%Z);
           Entity (Some (T "address_line")) (Some 6%Z) (Some 21%Z);
           Entity (Some (T "postal_code")) (Some 35%Z) (Some 40%Z)]).

(** ** A configuration file, line by line *)

(** The characters of a key: an ASCII letter or the underscore first, then
    letters, digits and underscores. *)
Definition is_key_start (c : ascii) : bool :=
  (Char.is_ascii_alpha c || Ascii.eqb c "_")%bool.

Definition is_key_char (c : ascii) : bool :=
  (Char.is_ascii_alpha c || Char.is_digit c || Ascii.eqb c "_")%bool.

Definition key_ok (key : text) : Prop :=
  match key with
  | [] => False
  | c :: rest => is_key_start c = true /\ Forall (fun d => is_key_char d = true) rest
  end.

(** A text that stays on its line. *)
Definition one_line (s : text) : Prop := Forall (fun c => Config.is_line_break c = false) s.

(** A value: not empty, on one line, without a double quote. *)
Definition value_ok (value : text) : Prop :=
  value <> [] /\ ~ In dquote value /\ one_line value.

(** The lines of a configuration file: an assignment, a comment, an empty
    line. *)
Inductive entry : Type :=
| Assign (key value : text)
| Comment (s : text)
| Blank.

Definition entry_line (e : entry) : text :=
  match e with
  | Assign key value => key ++ T " = " ++ dquote :: value ++ [dquote]
  | Comment s => "#"%char :: s
  | Blank => []
  end.

Definition entry_ok (e : entry) : Prop :=
  match e with
  | Assign key value => key_ok key /\ value_ok value
  | Comment s => one_line s
  | Blank => True
  end.

(** The file: every line ended by a newline. *)
Definition file_text (es : list entry) : text :=
  flat_map (fun e => entry_line e ++ [newline]) es.

(** What an entry does to the configuration read so far. *)
Definition assigned (cfg : Config.config) (e : entry) : Config.config :=
  match e with
  | Assign key value => Config.set (Config.upper key) value cfg
  | _ => cfg
  end.

(** An assignment to the key the model name is read from. *)
Definition assigns_model (e : entry) : bool :=
  match e with
  | Assign key _ => Str.eqb (T "SPACY_MODEL") (Config.upper key)
  | _ => false
  end.

(** A configuration file with a comment, an empty line and two assignments
    to one key. *)
Definition sample_config : list entry :=
  [Comment (T " which model to load");
   Assign (T "spacy_model") (T "en_core_web_sm");
   Blank;
   Assign (T "timeout") (T "10");
   Assign (T "Spacy_Model") (T "en_core_web_lg")].

(* ================================================================== *)
(** * Properties *)
(* ================================================================== *)

(** ** The pattern reader and the matcher on small inputs *)

Example compile_number :
  Re.compile (T "\b\d{1,5}\b") =
  Re.RSeq Re.RWordB
    (Re.RSeq (Re.RRep true 1 (Some 5) (Re.CS false [Re.CDigit]))
       (Re.RSeq Re.RWordB Re.REps)).
Proof. reflexivity. Qed.

Example compile_alt_opt :
  Re.compile (T "(?:St\.?|Rd)x+?") =
  Re.RSeq (Re.RAlt
            (Re.RSeq (Re.RChar "S") (Re.RSeq (Re.RChar "t")
               (Re.RSeq (Re.RRep true 0 (Some 1) (Re.CS false [Re.CChar "."])) Re.REps)))
            (Re.RSeq (Re.RChar "R") (Re.RSeq (Re.RChar "d") Re.REps)))
    (Re.RSeq (Re.RRep false 1 None (Re.CS false [Re.CChar "x"])) Re.REps).
Proof. reflexivity. Qed.

Example compile_set_group :
  Re.compile (T "<(a|b)>([^<,\s-]+)</\1>") =
  Re.RSeq (Re.RChar "<")
   (Re.RSeq (Re.RGroup 1 (Re.RAlt (Re.RSeq (Re.RChar "a") Re.REps) (Re.RSeq (Re.RChar "b") Re.REps)))
    (Re.RSeq (Re.RChar ">")
     (Re.RSeq (Re.RGroup 2 (Re.RSeq (Re.RRep true 1 None
                  (Re.CS true [Re.CChar "<"; Re.CChar ","; Re.CSpace; Re.CChar "-"])) Re.REps))
      (Re.RSeq (Re.RChar "<") (Re.RSeq (Re.RChar "/") (Re.RSeq (Re.RBackref 1)
         (Re.RSeq (Re.RChar ">") Re.REps))))))).
Proof. reflexivity. Qed.

Example search_lazy_then_greedy :
  option_map Re.group0 (Re.search true (Re.compile (T "\b\d{1,5}\s+[a-z ]+?(?:st|road)\b")) (T "at 12 Main St and 7 High Road."))
  = Some (T "12 Main St").
Proof. vm_compute. reflexivity. Qed.

(** Every pattern of the two modules lies in the fragment. *)
Example patterns_in_fragment :
  forallb (fun r => match r with Re.RSet (Re.CS false []) => false | _ => true end)
    [re_has_number; re_has_street; re_has_city_state_zip; re_has_po_box;
     re_addr_line; re_csz; address_pattern_full; address_pattern_suite;
     address_pattern_po_box; address_pattern_simple; re_trailing_punct;
     re_sentence_end; re_number_space; re_street_word; re_whitespace;
     LinkRenderer.pattern; LinkRenderer.legacy_pattern;
     LinkRenderer.simple_pattern; LinkRenderer.address_pattern] = true.
Proof. reflexivity. Qed.

Example compile_outside_fragment : Re.compile (T "<address>(.*?)</address>") = Re.never.
Proof. reflexivity. Qed.

(** ** The validity predicate *)

Lemma score_ok_iff (n : number) : score_ok n = true <-> score_at_least_half n.
Proof.
  destruct n as [z|f]; unfold score_ok, score_at_least_half.
  - rewrite Z.leb_le. lia.
  - tauto.
Qed.

Lemma is_valid_address_unfold (pr : option response) :
  is_valid_address pr =
  match pr with
  | Some res =>
      match address res with
      | Some ((_ :: _) as addr) =>
          (truthy_text (dict_get (T "address_line1") addr)
           && ((truthy_text (dict_get (T "city_locality") addr)
                || truthy_text (dict_get (T "state_province") addr)
                || truthy_text (dict_get (T "postal_code") addr))
               && score_ok (match score res with Some n => n | None => NInt 0 end)))%bool
      | _ => false
      end
  | None => false
  end.
Proof.
  unfold is_valid_address.
  destruct pr as [res|]; [|reflexivity].
  destruct (address res) as [[|kv addr]|]; try reflexivity.
  cbn [truthy_list negb].
  destruct (truthy_text (dict_get (T "address_line1") (kv :: addr))); [|reflexivity].
  cbn [negb andb existsb]. rewrite orb_false_r, orb_assoc. reflexivity.
Qed.

(** C3: [is_valid_address] holds exactly of the responses that carry an
    address with a non-empty address line, a non-empty city, state or postal
    code, and a score of at least 0.5; a response without an address line is
    never valid, whatever its score. *)
Theorem is_valid_address_iff (pr : option response) :
  (is_valid_address pr = true <-> carries_valid_address pr) /\
  (no_address_line pr -> is_valid_address pr = false).
Proof.
  rewrite is_valid_address_unfold.
  split; [split|].
  - destruct pr as [res|]; [|discriminate].
    destruct (address res) as [[|kv addr]|] eqn:Ha; try discriminate.
    rewrite !andb_true_iff, !orb_true_iff.
    intros (Hl & Hc & Hs).
    destruct (score res) as [n|] eqn:Hn; [|discriminate Hs].
    exists res, (kv :: addr), n.
    repeat split; auto; [tauto | apply score_ok_iff; exact Hs].
  - intros (res & addr & n & -> & Ha & Hl & Hc & Hn & Hs).
    rewrite Ha, Hn.
    destruct addr as [|kv addr]; [discriminate Hl|].
    rewrite !andb_true_iff, !orb_true_iff.
    repeat split; auto; [tauto | apply score_ok_iff; exact Hs].
  - intros Hno.
    destruct pr as [res|]; [|reflexivity].
    destruct (address res) as [[|kv addr]|] eqn:Ha; try reflexivity.
    rewrite (Hno res (kv :: addr) eq_refl Ha). reflexivity.
Qed.

(** ** The offline scorer *)

(** The condition of line 114 forces a weight sum of at least 0.5. *)
Lemma mock_score_at_least_half (num street csz po : bool) :
  ((num && street) || po)%bool = true ->
  PrimFloat.leb 0.5%float (mock_score num street csz po) = true.
Proof.
  destruct num, street, csz, po; simpl; intros H; try discriminate H; reflexivity.
Qed.

(** C9: whenever the offline scorer returns a result, its score is at
    least 0.5, so [is_valid_address] on it is decided by the extracted
    components alone: a non-empty address line and a non-empty city, state
    or postal code. *)
Theorem offline_score_never_rejects (t : text) (res : response) :
  _mock_address_validation t = Some res ->
  exists f addr,
    score res = Some (NFloat f) /\ PrimFloat.leb 0.5%float f = true /\
    address res = Some addr /\
    is_valid_address (Some res) =
      (truthy_text (dict_get (T "address_line1") addr)
       && (truthy_text (dict_get (T "city_locality") addr)
           || truthy_text (dict_get (T "state_province") addr)
           || truthy_text (dict_get (T "postal_code") addr)))%bool.
Proof.
  unfold _mock_address_validation.
  destruct ((has_number t && has_street t) || has_po_box t)%bool eqn:Hcond;
    [|discriminate].
  destruct (mock_city_state_zip t) as [[city state] postal_code].
  intros H. injection H as <-.
  pose proof (mock_score_at_least_half _ _ (has_city_state_zip t) _ Hcond) as Hs.
  eexists _, _. split; [reflexivity|]. split; [exact Hs|]. split; [reflexivity|].
  rewrite is_valid_address_unfold.
  cbn [address score score_ok]. rewrite Hs, andb_true_r. reflexivity.
Qed.

Lemma offline_score_never_rejects_witness :
  exists res, _mock_address_validation scenario_a = Some res /\
  exists f addr,
    score res = Some (NFloat f) /\ PrimFloat.leb 0.5%float f = true /\
    address res = Some addr /\
    is_valid_address (Some res) =
      (truthy_text (dict_get (T "address_line1") addr)
       && (truthy_text (dict_get (T "city_locality") addr)
           || truthy_text (dict_get (T "state_province") addr)
           || truthy_text (dict_get (T "postal_code") addr)))%bool.
Proof.
  eexists. split.
  - vm_compute. reflexivity.
  - apply (offline_score_never_rejects scenario_a). vm_compute. reflexivity.
Defined.

(** ** Empty and blank inputs *)

Lemma lstrip_blank (t : text) :
  Forall (fun c => Char.is_space c = true) t -> Str.lstrip t = [].
Proof.
  induction 1 as [|c t Hc _ IH]; simpl; [reflexivity|].
  rewrite Hc. exact IH.
Qed.

Lemma strip_blank (t : text) :
  Forall (fun c => Char.is_space c = true) t -> Str.strip t = [].
Proof.
  intros H. unfold Str.strip. rewrite (lstrip_blank H). reflexivity.
Qed.

(** C10: on an empty or blank input [tag_addresses_in_text] returns the
    input unchanged, and neither the candidate scanner nor the validator is
    called. *)
Theorem tag_blank_unchanged (requests_put : text -> put_outcome) (self : parser)
    (t : text) :
  Forall (fun c => Char.is_space c = true) t ->
  tag_addresses_in_text_M requests_put self t = ([], Return t) /\
  tag_addresses_in_text requests_put self t = Return t.
Proof.
  intros H. unfold tag_addresses_in_text, tag_addresses_in_text_M.
  rewrite (strip_blank H). destruct t; split; reflexivity.
Qed.

Lemma tag_blank_unchanged_witness :
  Forall (fun c => Char.is_space c = true) (T "   ") /\
  tag_addresses_in_text_M unreachable remote (T "   ") = ([], Return (T "   ")) /\
  tag_addresses_in_text unreachable remote (T "   ") = Return (T "   ").
Proof.
  assert (H : Forall (fun c => Char.is_space c = true) (T "   ")).
  { repeat constructor. }
  split; [exact H | exact (tag_blank_unchanged unreachable remote H)].
Defined.

(** ** Failures of the remote call *)

(** C1, as stated, fails: on a 500 answer the call returns [None] although
    the offline scorer accepts the text. *)
Lemma server_error_not_delegated :
  parse_address_with_shipengine server_error remote scenario_a = Return None /\
  is_some (_mock_address_validation scenario_a) = true.
Proof. split; vm_compute; reflexivity. Qed.

(** C1, amended: in remote mode a transport failure or timeout
    ([RequestException]), a 401 and a 402 are answered with the offline
    scorer's result, and so is an unparseable payload whose exception is a
    [RequestException]; an unparseable payload raising a plain
    [JSONDecodeError] and every status other than 200, 401 and 402 (any 5xx
    among them) give [None]. None of these raises. *)
Theorem parse_failure_handling (requests_put : text -> put_outcome) (self : parser)
    (t : text) :
  mock_mode self = false ->
  (forall e, requests_put t = PutRaises e -> is_request_exception e = true ->
     parse_address_with_shipengine requests_put self t
     = Return (_mock_address_validation t)) /\
  (forall resp, requests_put t = PutReturns resp ->
     (status_code resp = 401 \/ status_code resp = 402)%Z ->
     parse_address_with_shipengine requests_put self t
     = Return (_mock_address_validation t)) /\
  (forall resp e, requests_put t = PutReturns resp -> status_code resp = 200%Z ->
     json resp = JsonRaises e -> is_request_exception e = true ->
     parse_address_with_shipengine requests_put self t
     = Return (_mock_address_validation t)) /\
  (forall resp e, requests_put t = PutReturns resp -> status_code resp = 200%Z ->
     json resp = JsonRaises e -> is_request_exception e = false ->
     is_json_decode_error e = true ->
     parse_address_with_shipengine requests_put self t = Return None) /\
  (forall resp, requests_put t = PutReturns resp ->
     status_code resp <> 200%Z -> status_code resp <> 401%Z ->
     status_code resp <> 402%Z ->
     parse_address_with_shipengine requests_put self t = Return None).
Proof.
  intros Hm. unfold parse_address_with_shipengine. rewrite Hm.
  repeat split.
  - intros e -> He. unfold handle. rewrite He. reflexivity.
  - intros resp -> [H|H]; rewrite H; reflexivity.
  - intros resp e -> -> -> He. simpl. unfold handle. rewrite He. reflexivity.
  - intros resp e -> -> -> He Hj. simpl. unfold handle. rewrite He, Hj. reflexivity.
  - intros resp -> H1 H2 H3.
    apply Z.eqb_neq in H1, H2, H3. rewrite H1, H2, H3. reflexivity.
Qed.

Lemma parse_failure_handling_witness :
  parse_address_with_shipengine unreachable remote scenario_a
  = Return (_mock_address_validation scenario_a).
Proof.
  exact (proj1 (parse_failure_handling unreachable remote scenario_a eq_refl)
           RequestException eq_refl eq_refl).
Defined.

(** ** Scenario A *)

(** C5: on "123 Main Street, Anytown, CA 90210" the number, street and
    City-ST-ZIP signals are present and the PO-Box signal is not, the
    offline score is 0.3 + 0.4 + 0.3 = 1.0, which is at least 0.5, the
    result is valid, and tagging in offline mode wraps the whole text. *)
Theorem scenario_a_tagged (requests_put : text -> put_outcome) :
  has_number scenario_a = true /\ has_street scenario_a = true /\
  has_city_state_zip scenario_a = true /\ has_po_box scenario_a = false /\
  option_map score (_mock_address_validation scenario_a) = Some (Some (NFloat 1.0)) /\
  mock_score true true true false = (0.3 + 0.4 + 0.3)%float /\
  PrimFloat.leb 0.5 1.0 = true /\
  is_valid_address (_mock_address_validation scenario_a) = true /\
  tag_addresses_in_text requests_put offline scenario_a
  = Return (T "<address>123 Main Street, Anytown, CA 90210</address>").
Proof.
  repeat split; vm_compute; reflexivity.
Qed.

(** ** Texts that are already tagged *)

(** C2 fails on the code: a text that is one tagged address is proposed
    again as a candidate by the sentence heuristic, tags included, and is
    wrapped a second time. *)
Theorem tagged_sentence_is_wrapped_again (requests_put : text -> put_outcome) :
  find_address_candidates (wrap scenario_a) = [scenario_a; wrap scenario_a] /\
  tag_addresses_in_text requests_put offline (wrap scenario_a)
  = Return (T "<address><address>123 Main Street, Anytown, CA 90210</address></address>").
Proof. split; vm_compute; reflexivity. Qed.

(** ** The matcher consumes a prefix of its input *)

Section MatcherFacts.

Variable ic : bool.

Lemma extends_refl st : extends st st.
Proof. exists []. split; reflexivity. Qed.

Lemma extends_trans st1 st2 st3 : extends st1 st2 -> extends st2 st3 -> extends st1 st3.
Proof.
  intros (x & Ha & Hr) (y & Ha' & Hr'). exists (y ++ x). split.
  - rewrite Ha', Ha. apply app_assoc.
  - rewrite Hr, Hr', rev_app_distr. apply app_assoc.
Qed.

Lemma extends_advance c tl st : ms_rest st = c :: tl -> extends st (advance c tl st).
Proof. intros H. exists [c]. split; [reflexivity | exact H]. Qed.

Lemma rep_greedy_sound cs : forall rs lo hi st k res,
  ms_rest st = rs ->
  rep_greedy ic cs lo hi rs st k = Some res ->
  exists st', extends st st' /\ k st' = Some res.
Proof.
  induction rs as [|c tl IH]; intros lo hi st k res Hrs H; simpl in H.
  - destruct lo; [|discriminate]. exists st. split; [apply extends_refl | exact H].
  - destruct (more_allowed hi && cset_match ic cs c)%bool.
    + destruct (rep_greedy ic cs (pred lo) (dec_hi hi) tl (advance c tl st) k) eqn:E.
      * injection H as <-.
        destruct (IH _ _ (advance c tl st) _ _ eq_refl E) as (st' & Hx & Hk).
        exists st'. split; [|exact Hk].
        eapply extends_trans; [apply extends_advance; exact Hrs | exact Hx].
      * destruct lo; [|discriminate]. exists st. split; [apply extends_refl | exact H].
    + destruct lo; [|discriminate]. exists st. split; [apply extends_refl | exact H].
Qed.

Lemma rep_lazy_sound cs : forall rs lo hi st k res,
  ms_rest st = rs ->
  rep_lazy ic cs lo hi rs st k = Some res ->
  exists st', extends st st' /\ k st' = Some res.
Proof.
  induction rs as [|c tl IH]; intros lo hi st k res Hrs H; simpl in H.
  - destruct lo; [|discriminate].
    destruct (k st) eqn:E; [|discriminate]. injection H as <-.
    exists st. split; [apply extends_refl | exact E].
  - destruct (match lo with O => k st | S _ => None end) eqn:E.
    + injection H as <-. destruct lo; [|discriminate].
      exists st. split; [apply extends_refl | exact E].
    + destruct (more_allowed hi && cset_match ic cs c)%bool; [|discriminate].
      destruct (IH _ _ (advance c tl st) _ _ eq_refl H) as (st' & Hx & Hk).
      exists st'. split; [|exact Hk].
      eapply extends_trans; [apply extends_advance; exact Hrs | exact Hx].
Qed.

Lemma match_copy_sound : forall t st st',
  match_copy ic t st = Some st' -> extends st st'.
Proof.
  induction t as [|p t IH]; intros st st' H; simpl in H.
  - injection H as <-. apply extends_refl.
  - destruct (ms_rest st) as [|c tl] eqn:Hrs; [discriminate|].
    destruct (lit_match ic p c); [|discriminate].
    eapply extends_trans; [apply extends_advance; exact Hrs | apply IH; exact H].
Qed.

(** Whatever the matcher returns, the continuation returned it, from a
    state reached by consuming a prefix of the input. *)
Lemma rmatch_sound : forall r st k res,
  rmatch ic r st k = Some res ->
  exists st', extends st st' /\ k st' = Some res.
Proof.
  induction r as [|p|cs|r1 IH1 r2 IH2|r1 IH1 r2 IH2|g lo hi cs|r1 IH1|n r1 IH1|n| |];
    intros st k res H; simpl in H.
  - exists st. split; [apply extends_refl | exact H].
  - destruct (ms_rest st) as [|c tl] eqn:Hrs; [discriminate|].
    destruct (lit_match ic p c); [|discriminate].
    exists (advance c tl st). split; [apply extends_advance; exact Hrs | exact H].
  - destruct (ms_rest st) as [|c tl] eqn:Hrs; [discriminate|].
    destruct (cset_match ic cs c); [|discriminate].
    exists (advance c tl st). split; [apply extends_advance; exact Hrs | exact H].
  - destruct (IH1 _ _ _ H) as (st1 & Hx1 & H1).
    destruct (IH2 _ _ _ H1) as (st2 & Hx2 & H2).
    exists st2. split; [eapply extends_trans; eassumption | exact H2].
  - destruct (rmatch ic r1 st k) eqn:E.
    + injection H as <-. apply IH1. exact E.
    + apply IH2. exact H.
  - destruct g.
    + eapply rep_greedy_sound; [reflexivity | exact H].
    + eapply rep_lazy_sound; [reflexivity | exact H].
  - destruct (rmatch ic r1 st k) eqn:E.
    + injection H as <-. apply IH1. exact E.
    + exists st. split; [apply extends_refl | exact H].
  - destruct (IH1 _ _ _ H) as (st1 & (x & Ha & Hr) & H1).
    eexists. split; [|exact H1].
    exists x. simpl in *. rewrite Ha, app_nil_r. split; [reflexivity | exact Hr].
  - destruct (group_lookup n (ms_caps st)) as [t|]; [|discriminate].
    destruct (match_copy ic t st) as [st'|] eqn:E; [|discriminate].
    exists st'. split; [eapply match_copy_sound; exact E | exact H].
  - destruct (at_boundary st); [|discriminate].
    exists st. split; [apply extends_refl | exact H].
  - exists st. split; [apply extends_refl|].
    destruct (ms_rest st) as [|c [|d tl]]; try discriminate; [exact H|].
    destruct (Ascii.eqb c newline); [exact H | discriminate].
Qed.

(** A match is a prefix of the text it was tried on. *)
Lemma try_match_prefix r prev rs st :
  try_match ic r prev rs = Some st -> rs = group0 st ++ ms_rest st.
Proof.
  unfold try_match. intros H.
  destruct (rmatch_sound _ _ _ H) as (st' & (x & Ha & Hr) & Hk).
  injection Hk as <-. simpl in *. unfold group0.
  rewrite Ha, app_nil_r. exact Hr.
Qed.

Lemma try_match_nonempty_prefix r prev rs st :
  try_match_nonempty ic r prev rs = Some st ->
  rs = group0 st ++ ms_rest st /\ ms_acc st <> [].
Proof.
  unfold try_match_nonempty. intros H.
  destruct (rmatch_sound _ _ _ H) as (st' & (x & Ha & Hr) & Hk).
  simpl in Ha, Hr. rewrite app_nil_r in Ha.
  destruct (ms_acc st') as [|a l] eqn:E; [discriminate|]. injection Hk as <-.
  split; [unfold group0; rewrite E, Ha; exact Hr | rewrite E; discriminate].
Qed.

End MatcherFacts.

(** ** Scans *)

Section ScanFacts.

Variable ic : bool.
Variable r : regex.

Lemma skipn_length_app {A : Type} (l1 l2 : list A) :
  skipn (List.length l1) (l1 ++ l2) = l2.
Proof. induction l1; simpl; auto. Qed.

Lemma match_skip c tl st :
  c :: tl = group0 st ++ ms_rest st -> ms_acc st <> [] ->
  group0 st ++ skipn (pred (List.length (ms_acc st))) tl = c :: tl.
Proof.
  unfold group0. intros H Hne.
  rewrite <- length_rev.
  destruct (rev (ms_acc st)) as [|c' g'] eqn:E.
  - exfalso. apply Hne. apply (f_equal (@rev ascii)) in E.
    rewrite rev_involutive in E. exact E.
  - simpl in H. injection H as -> ->. simpl.
    rewrite skipn_length_app. reflexivity.
Qed.

(** Scanning loses nothing: the tokens spell the text that was scanned. *)
Lemma scan_loop_text : forall rs skip prev,
  tokens_text (scan_loop ic r skip prev rs) = skipn skip rs.
Proof.
  induction rs as [|c tl IH]; intros skip prev; destruct skip as [|n]; simpl.
  - destruct (try_match ic r prev []) as [st|] eqn:E; [|reflexivity].
    apply try_match_prefix in E. symmetry in E. apply app_eq_nil in E.
    destruct (ms_acc st); simpl; rewrite (proj1 E); reflexivity.
  - reflexivity.
  - destruct (try_match ic r prev (c :: tl)) as [st|] eqn:E.
    + apply try_match_prefix in E.
      destruct (ms_acc st) as [|x a] eqn:Ea.
      * simpl. unfold group0 at 1. rewrite Ea. simpl.
        destruct (try_match_nonempty ic r prev (c :: tl)) as [st2|] eqn:E2.
        -- apply try_match_nonempty_prefix in E2. destruct E2 as [E2 Hne].
           simpl. rewrite IH. apply match_skip; assumption.
        -- simpl. rewrite IH. reflexivity.
      * simpl. rewrite IH.
        assert (Hne : ms_acc st <> []) by (rewrite Ea; discriminate).
        pose proof (match_skip _ E Hne) as Hs. rewrite Ea in Hs. exact Hs.
    + simpl. rewrite IH. reflexivity.
  - apply IH.
Qed.

Lemma scan_text (s : text) : tokens_text (scan ic r s) = s.
Proof. unfold scan. apply scan_loop_text. Qed.

(** Where no attempt succeeds, every character is left as it is. *)
Lemma scan_loop_no_match : forall rs prev,
  (forall prev' suf, (exists pre, rs = pre ++ suf) -> try_match ic r prev' suf = None) ->
  scan_loop ic r 0 prev rs = map TChar rs.
Proof.
  induction rs as [|c tl IH]; intros prev H; simpl.
  - rewrite H; [reflexivity | exists []; reflexivity].
  - rewrite H; [|exists []; reflexivity].
    f_equal. apply IH. intros prev' suf [pre ->].
    apply H. exists (c :: pre). reflexivity.
Qed.

Lemma matches_of_chars (s : text) : matches_of (map TChar s) = [].
Proof. induction s; simpl; auto. Qed.

Lemma search_from_no_match : forall rs prev,
  (forall prev' suf, (exists pre, rs = pre ++ suf) -> try_match ic r prev' suf = None) ->
  search_from ic r prev rs = None.
Proof.
  induction rs as [|c tl IH]; intros prev H; simpl.
  - rewrite H; [reflexivity | exists []; reflexivity].
  - rewrite H; [|exists []; reflexivity].
    apply IH. intros prev' suf [pre ->]. apply H. exists (c :: pre). reflexivity.
Qed.

End ScanFacts.

(** Texts between the matches *)

Lemma tokens_text_app ts1 ts2 :
  tokens_text (ts1 ++ ts2) = tokens_text ts1 ++ tokens_text ts2.
Proof.
  induction ts1 as [|[c|m] ts1 IH]; simpl; [reflexivity| |]; rewrite IH; auto.
  apply app_assoc.
Qed.

Lemma substring_refl (t : text) : substring_of t t.
Proof. exists [], []. simpl. rewrite app_nil_r. reflexivity. Qed.

Lemma substring_trans (a b c : text) : substring_of a b -> substring_of b c -> substring_of a c.
Proof.
  intros (p1 & q1 & ->) (p2 & q2 & ->).
  exists (p2 ++ p1), (q1 ++ q2). rewrite <- !app_assoc. reflexivity.
Qed.

Lemma substring_app_l (a b c : text) : substring_of a b -> substring_of a (c ++ b).
Proof.
  intros (p & q & ->). exists (c ++ p), q. rewrite <- app_assoc. reflexivity.
Qed.

Lemma substring_app_r (a b c : text) : substring_of a b -> substring_of a (b ++ c).
Proof.
  intros (p & q & ->). exists p, (q ++ c). rewrite <- !app_assoc. reflexivity.
Qed.

(** Every match found by a scan is a piece of the scanned text. *)
Lemma matches_of_substring : forall ts m,
  In m (matches_of ts) -> substring_of (group0 m) (tokens_text ts).
Proof.
  induction ts as [|[c|m'] ts IH]; intros m H; simpl in *.
  - contradiction.
  - apply (substring_app_l [c]). apply IH. exact H.
  - destruct H as [->|H].
    + apply substring_app_r. apply substring_refl.
    + apply substring_app_l. apply IH. exact H.
Qed.

Lemma finditer_substring ic r s m :
  In m (finditer ic r s) -> substring_of (group0 m) s.
Proof.
  unfold finditer. intros H. apply matches_of_substring in H.
  rewrite scan_text in H. exact H.
Qed.

(** Every piece of a split is a piece of the text. *)
Lemma split_tokens_substring : forall ts cur p,
  In p (split_tokens cur ts) -> substring_of p (rev cur ++ tokens_text ts).
Proof.
  induction ts as [|[c|m] ts IH]; intros cur p H; simpl in *.
  - destruct H as [<-|[]]. rewrite app_nil_r. apply substring_refl.
  - apply IH in H. simpl in H. rewrite <- app_assoc in H. exact H.
  - destruct H as [<-|H].
    + apply substring_app_r. apply substring_refl.
    + apply IH in H. simpl in H. apply substring_app_l. apply substring_app_l. exact H.
Qed.

Lemma split_substring ic r s p : In p (split ic r s) -> substring_of p s.
Proof.
  unfold split. intros H. apply split_tokens_substring in H.
  rewrite scan_text in H. exact H.
Qed.

(** ** Texts without digits *)

Lemma is_digit_fold ic c : Char.is_digit (fold ic c) = Char.is_digit c.
Proof.
  destruct ic; [|reflexivity].
  destruct c as [[] [] [] [] [] [] [] []]; reflexivity.
Qed.

Lemma digit_set_no_match ic cs c :
  is_digit_set cs = true -> Char.is_digit c = false -> cset_match ic cs c = false.
Proof.
  destruct cs as [[] [|[] [|]]]; try discriminate. intros _ H.
  unfold cset_match. simpl. rewrite is_digit_fold, H. reflexivity.
Qed.

Lemma no_digit_extends st st' :
  extends st st' -> no_digit (ms_rest st) -> no_digit (ms_rest st').
Proof.
  intros (x & _ & Hr) H. rewrite Hr in H. apply Forall_app in H. apply H.
Qed.

(** A regex that needs a digit matches nothing in a text without digits. *)
Lemma needs_digit_fails ic : forall r, needs_digit r = true ->
  forall st k, no_digit (ms_rest st) -> rmatch ic r st k = None.
Proof.
  induction r as [|p|cs|r1 IH1 r2 IH2|r1 IH1 r2 IH2|g lo hi cs|r1 IH1|n r1 IH1|n| |];
    simpl; intros Hn st k Hd; try discriminate.
  - destruct (ms_rest st) as [|c tl]; [reflexivity|].
    rewrite (@digit_set_no_match ic cs c Hn); [reflexivity|].
    inversion Hd; assumption.
  - apply orb_true_iff in Hn. destruct Hn as [Hn|Hn].
    + apply IH1; assumption.
    + destruct (rmatch ic r1 st (fun st' => rmatch ic r2 st' k)) as [res|] eqn:E;
        [|reflexivity].
      destruct (@rmatch_sound ic _ _ _ _ E) as (st' & Hx & Hk).
      rewrite (IH2 Hn st' k) in Hk; [discriminate|].
      eapply no_digit_extends; eassumption.
  - apply andb_true_iff in Hn. destruct Hn as [Hn1 Hn2].
    rewrite (IH1 Hn1 st k Hd). apply IH2; assumption.
  - destruct lo as [|lo]; [discriminate|].
    destruct g; destruct (ms_rest st) as [|c tl]; simpl; try reflexivity;
      rewrite (@digit_set_no_match ic cs c Hn), andb_false_r; try reflexivity;
      inversion Hd; assumption.
  - apply IH1; assumption.
Qed.

Lemma no_digit_suffix (pre suf : text) : no_digit (pre ++ suf) -> no_digit suf.
Proof. intros H. apply Forall_app in H. apply H. Qed.

Lemma needs_digit_try_match ic r prev rs :
  needs_digit r = true -> no_digit rs -> try_match ic r prev rs = None.
Proof. intros Hn Hd. apply needs_digit_fails; assumption. Qed.

Lemma needs_digit_finditer ic r t :
  needs_digit r = true -> no_digit t -> finditer ic r t = [].
Proof.
  intros Hn Hd. unfold finditer, scan.
  rewrite scan_loop_no_match; [apply matches_of_chars|].
  intros prev' suf [pre ->]. apply needs_digit_try_match; [assumption|].
  eapply no_digit_suffix; eassumption.
Qed.

Lemma needs_digit_search ic r t :
  needs_digit r = true -> no_digit t -> search ic r t = None.
Proof.
  intros Hn Hd. unfold search. apply search_from_no_match.
  intros prev' suf [pre ->]. apply needs_digit_try_match; [assumption|].
  eapply no_digit_suffix; eassumption.
Qed.

Lemma no_digit_substring (c t : text) : substring_of c t -> no_digit t -> no_digit c.
Proof.
  intros (pre & post & ->) H.
  apply Forall_app in H. destruct H as [_ H]. apply Forall_app in H. apply H.
Qed.

Lemma lstrip_suffix (s : text) : exists pre, s = pre ++ Str.lstrip s.
Proof.
  induction s as [|c s [pre IH]]; simpl.
  - exists []. reflexivity.
  - destruct (Char.is_space c).
    + exists (c :: pre). simpl. f_equal. exact IH.
    + exists []. reflexivity.
Qed.

Lemma rstrip_prefix (s : text) : exists post, s = Str.rstrip s ++ post.
Proof.
  unfold Str.rstrip. destruct (lstrip_suffix (rev s)) as [pre H].
  exists (rev pre). rewrite <- rev_app_distr, <- H, rev_involutive. reflexivity.
Qed.

Lemma strip_substring (s : text) : substring_of (Str.strip s) s.
Proof.
  unfold Str.strip.
  destruct (lstrip_suffix s) as [pre H].
  destruct (rstrip_prefix (Str.lstrip s)) as [post H'].
  exists pre, post. rewrite <- H'. exact H.
Qed.

Lemma flat_map_nil {A B : Type} (f : A -> list B) (l : list A) :
  (forall x, In x l -> f x = []) -> flat_map f l = [].
Proof.
  induction l as [|x l IH]; simpl; intros H; [reflexivity|].
  rewrite (H x (or_introl eq_refl)). apply IH. intros y Hy. apply H. right. exact Hy.
Qed.

Lemma address_patterns_need_digit :
  forall p, In p address_patterns -> needs_digit p = true.
Proof.
  intros p [<-|[<-|[<-|[<-|[]]]]]; reflexivity.
Qed.

(** C8: for a text without digit characters [find_address_candidates]
    returns the empty sequence. *)
Theorem no_digit_no_candidates (t : text) :
  Forall (fun c => Char.is_digit c = false) t -> find_address_candidates t = [].
Proof.
  intros Hd. unfold find_address_candidates, pooled_candidates.
  assert (H1 : flat_map (candidates_of_pattern t) address_patterns = []).
  { apply flat_map_nil. intros p Hp. unfold candidates_of_pattern.
    rewrite needs_digit_finditer; [reflexivity | | exact Hd].
    apply address_patterns_need_digit. exact Hp. }
  assert (H2 : candidates_of_sentences t = []).
  { unfold candidates_of_sentences. apply flat_map_nil. intros s Hs.
    rewrite needs_digit_search; [rewrite andb_false_r; reflexivity | reflexivity |].
    eapply no_digit_substring; [apply strip_substring|].
    eapply no_digit_substring; [eapply split_substring; exact Hs | exact Hd]. }
  rewrite H1, H2. reflexivity.
Qed.

Lemma no_digit_no_candidates_witness :
  find_address_candidates (T "Meet me on Main Street, Anytown. Bring the keys!") = [].
Proof.
  apply no_digit_no_candidates. repeat constructor.
Defined.

(** ** Removing the trailing comma or semicolon *)

Lemma space_run_to_end : forall tl st res,
  ms_rest st = tl ->
  rep_greedy false (CS false [CSpace]) 0 None tl st at_end = Some res ->
  ms_rest res = [].
Proof.
  induction tl as [|c tl IH]; intros st res Hrs H; simpl in H.
  - unfold at_end in H. simpl in H. rewrite Hrs in H. injection H as <-. exact Hrs.
  - destruct (cset_match false (CS false [CSpace]) c) eqn:Hc.
    + destruct (rep_greedy false (CS false [CSpace]) 0 None tl (advance c tl st) at_end)
        as [r|] eqn:E.
      * injection H as <-. eapply IH; [|exact E]. reflexivity.
      * unfold at_end in H. simpl in H. rewrite Hrs in H.
        destruct tl as [|d tl]; [|discriminate].
        simpl in E. unfold at_end in E. simpl in E. discriminate.
    + unfold at_end in H. simpl in H. rewrite Hrs in H.
      destruct tl as [|d tl]; [|discriminate].
      destruct (Ascii.eqb c newline) eqn:En; [|discriminate].
      apply Ascii.eqb_eq in En. subst c. discriminate Hc.
Qed.

Lemma trailing_match_to_end prev rs st :
  try_match false re_trailing_punct prev rs = Some st -> ms_rest st = [].
Proof.
  unfold try_match, re_trailing_punct. simpl.
  destruct rs as [|c tl]; [discriminate|].
  destruct (cset_match false _ c); [|discriminate].
  apply space_run_to_end. reflexivity.
Qed.

Lemma tokens_text_nil_sub : forall ts,
  tokens_text ts = [] -> sub_tokens (fun _ => []) ts = [].
Proof.
  induction ts as [|[c|m] ts IH]; simpl; intros H; [reflexivity|discriminate|].
  apply app_eq_nil in H. apply IH. apply H.
Qed.

Lemma sub_trailing_prefix_from : forall rs prev,
  exists post,
    rs = sub_tokens (fun _ => []) (scan_loop false re_trailing_punct 0 prev rs) ++ post.
Proof.
  induction rs as [|c tl IH]; intros prev.
  - exists []. reflexivity.
  - simpl scan_loop.
    destruct (try_match false re_trailing_punct prev (c :: tl)) as [st|] eqn:E.
    + pose proof (trailing_match_to_end _ _ E) as Hend.
      apply try_match_prefix in E. rewrite Hend, app_nil_r in E.
      assert (Hlen : List.length (ms_acc st) = S (List.length tl)).
      { rewrite <- length_rev. fold (group0 st). rewrite <- E. reflexivity. }
      destruct (ms_acc st) as [|x a]; [discriminate Hlen|].
      injection Hlen as Hlen.
      exists (c :: tl). simpl.
      rewrite tokens_text_nil_sub; [reflexivity|].
      rewrite scan_loop_text, Hlen. apply skipn_all.
    + destruct (IH (Some c)) as [post Hp]. exists post. simpl. f_equal. exact Hp.
Qed.

(** Line 209 leaves a prefix of the candidate. *)
Lemma sub_trailing_substring (s : text) :
  substring_of (Re.sub false re_trailing_punct (fun _ => []) s) s.
Proof.
  destruct (sub_trailing_prefix_from s None) as [post H].
  exists [], post. exact H.
Qed.

(** ** The pooled candidates are pieces of the text *)

Lemma candidates_of_pattern_substring t p c :
  In c (candidates_of_pattern t p) -> substring_of c t.
Proof.
  unfold candidates_of_pattern. intros H. apply in_flat_map in H.
  destruct H as (m & Hm & Hc).
  destruct (15 <? _); [|contradiction]. destruct Hc as [<-|[]].
  eapply substring_trans; [apply sub_trailing_substring|].
  eapply substring_trans; [apply strip_substring|].
  eapply finditer_substring; exact Hm.
Qed.

Lemma candidates_of_sentences_substring t c :
  In c (candidates_of_sentences t) -> substring_of c t.
Proof.
  unfold candidates_of_sentences. intros H. apply in_flat_map in H.
  destruct H as (s & Hs & Hc).
  destruct (_ && _)%bool; [|contradiction]. destruct Hc as [<-|[]].
  eapply substring_trans; [apply strip_substring|].
  eapply split_substring; exact Hs.
Qed.

Lemma pooled_candidates_substring t c :
  In c (pooled_candidates t) -> substring_of c t.
Proof.
  unfold pooled_candidates. intros H. apply in_app_or in H. destruct H as [H|H].
  - apply in_flat_map in H. destruct H as (p & _ & H).
    eapply candidates_of_pattern_substring; exact H.
  - eapply candidates_of_sentences_substring; exact H.
Qed.

(** ** The loop that removes duplicates *)

Lemma str_eqb_eq : forall a b, Str.eqb a b = true <-> a = b.
Proof.
  induction a as [|x a IH]; destruct b as [|y b]; simpl; split; intros H;
    try discriminate; try reflexivity.
  - apply andb_true_iff in H. destruct H as [H1 H2].
    apply Ascii.eqb_eq in H1. apply IH in H2. subst. reflexivity.
  - injection H as -> ->. rewrite Ascii.eqb_refl. apply IH. reflexivity.
Qed.

Lemma mem_In x seen : mem x seen = true <-> In x seen.
Proof.
  unfold mem. rewrite existsb_exists. split.
  - intros (y & Hy & He). apply str_eqb_eq in He. subst. exact Hy.
  - intros H. exists x. split; [exact H | apply str_eqb_eq; reflexivity].
Qed.

Lemma unique_loop_In : forall l seen c,
  In c (unique_loop seen l) ->
  In c l /\ 15 < List.length c /\ ~ In (normalize c) seen.
Proof.
  induction l as [|x l IH]; simpl; intros seen c H; [contradiction|].
  destruct (negb (mem (normalize x) seen) && (15 <? List.length x))%bool eqn:E.
  - apply andb_true_iff in E. destruct E as [E1 E2].
    apply negb_true_iff in E1. apply Nat.ltb_lt in E2.
    destruct H as [<-|H].
    + repeat split; auto. intros Hin. apply mem_In in Hin. congruence.
    + apply IH in H. destruct H as (H1 & H2 & H3).
      repeat split; auto. intros Hin. apply H3. right. exact Hin.
  - apply IH in H. tauto.
Qed.

Lemma unique_loop_NoDup : forall l seen,
  NoDup (map normalize (unique_loop seen l)).
Proof.
  induction l as [|x l IH]; simpl; intros seen; [constructor|].
  destruct (negb (mem (normalize x) seen) && (15 <? List.length x))%bool.
  - simpl. constructor; [|apply IH].
    intros Hin. apply in_map_iff in Hin. destruct Hin as (c & Hc & Hin).
    apply unique_loop_In in Hin. destruct Hin as (_ & _ & Hn).
    apply Hn. left. symmetry. exact Hc.
  - apply IH.
Qed.

Lemma unique_loop_subseq : forall l seen, subseq (unique_loop seen l) l.
Proof.
  induction l as [|x l IH]; simpl; intros seen; [constructor|].
  destruct (negb (mem (normalize x) seen) && (15 <? List.length x))%bool;
    constructor; apply IH.
Qed.

Lemma unique_loop_complete : forall l seen c,
  In c l -> 15 < List.length c ->
  In (normalize c) seen \/ In (normalize c) (map normalize (unique_loop seen l)).
Proof.
  induction l as [|x l IH]; simpl; intros seen c Hin Hlen; [contradiction|].
  destruct (negb (mem (normalize x) seen) && (15 <? List.length x))%bool eqn:E.
  - destruct Hin as [->|Hin].
    + right. left. reflexivity.
    + destruct (IH (normalize x :: seen) c Hin Hlen) as [[H|H]|H].
      * right. left. exact H.
      * left. exact H.
      * right. right. exact H.
  - destruct Hin as [->|Hin]; [|apply IH; assumption].
    apply andb_false_iff in E. destruct E as [E|E].
    + left. apply mem_In. apply negb_false_iff. exact E.
    + apply Nat.ltb_ge in E. lia.
Qed.

(** ** The first candidate of each normal form *)

Lemma str_eqb_sym a b : Str.eqb a b = Str.eqb b a.
Proof.
  destruct (Str.eqb a b) eqn:E1, (Str.eqb b a) eqn:E2; try reflexivity.
  - apply str_eqb_eq in E1. subst.
    assert (H : Str.eqb b b = true) by (apply str_eqb_eq; reflexivity). congruence.
  - apply str_eqb_eq in E2. subst.
    assert (H : Str.eqb a a = true) by (apply str_eqb_eq; reflexivity). congruence.
Qed.

(** The set [seen] holds the normal forms of the candidates longer than 15
    characters among those passed: under that invariant the loop of lines
    226-232 makes the selection of [first_of_each_form]. *)
Lemma unique_loop_first : forall l seen earlier,
  (forall n, mem n seen =
     existsb (fun c' => (15 <? List.length c') && Str.eqb (normalize c') n)%bool
       earlier) ->
  unique_loop seen l = first_of_each_form earlier l.
Proof.
  induction l as [|c l IH]; simpl; intros seen earlier Hinv; [reflexivity|].
  unfold form_met, same_form. rewrite <- Hinv.
  rewrite (andb_comm (15 <? List.length c)).
  destruct (negb (mem (normalize c) seen) && (15 <? List.length c))%bool eqn:E.
  - f_equal. apply IH. intros n. simpl.
    apply andb_true_iff in E. destruct E as [_ E]. rewrite E. simpl.
    rewrite <- Hinv. rewrite str_eqb_sym. reflexivity.
  - apply IH. intros n. simpl. rewrite <- Hinv.
    destruct (15 <? List.length c) eqn:L; simpl; [|reflexivity].
    rewrite andb_true_r in E. apply negb_false_iff in E.
    destruct (Str.eqb (normalize c) n) eqn:N; simpl; [|reflexivity].
    apply str_eqb_eq in N. subst n. exact E.
Qed.

(** A candidate that is kept stands in the list after no candidate longer
    than 15 characters with its normal form. *)
Lemma first_of_each_form_first : forall l earlier c,
  In c (first_of_each_form earlier l) ->
  exists pre post, l = pre ++ c :: post /\
    forall c', In c' (earlier ++ pre) -> 15 < List.length c' ->
      normalize c' <> normalize c.
Proof.
  induction l as [|x l IH]; simpl; intros earlier c H; [contradiction|].
  assert (Hrest : In c (first_of_each_form (x :: earlier) l) ->
    exists pre post, x :: l = pre ++ c :: post /\
      forall c', In c' (earlier ++ pre) -> 15 < List.length c' ->
        normalize c' <> normalize c).
  { intros Hin. apply IH in Hin. destruct Hin as (pre & post & -> & Hf).
    exists (x :: pre), post. split; [reflexivity|].
    intros c' Hc'. apply Hf. apply in_app_or in Hc'. simpl in *.
    destruct Hc' as [Hc'|[Hc'|Hc']]; auto.
    - right. apply in_or_app. auto.
    - right. apply in_or_app. auto. }
  destruct ((15 <? List.length x) && negb (form_met earlier x))%bool eqn:E;
    [|apply Hrest; exact H].
  destruct H as [<-|H]; [|apply Hrest; exact H].
  apply andb_true_iff in E. destruct E as [_ E]. apply negb_true_iff in E.
  exists [], l. split; [reflexivity|].
  rewrite app_nil_r. intros c' Hin Hlen Hn.
  assert (X : form_met earlier x = true).
  { apply existsb_exists. exists c'. split; [exact Hin|].
    apply andb_true_iff. split; [apply Nat.ltb_lt; exact Hlen|].
    unfold same_form. apply str_eqb_eq. exact Hn. }
  congruence.
Qed.

(** One address in two spellings: each pattern and the sentences find both,
    and the spelling found first is the one returned. *)
Example first_spelling_kept :
  pooled_candidates two_spellings =
    [T "123 Main Street, Anytown, CA 90210"; T "123 MAIN STREET, ANYTOWN, CA 90210";
     T "123 Main Street, Anytown, CA 90210"; T "123 MAIN STREET, ANYTOWN, CA 90210";
     T "123 Main Street, Anytown, CA 90210"; T "123 MAIN STREET, ANYTOWN, CA 90210"] /\
  find_address_candidates two_spellings = [T "123 Main Street, Anytown, CA 90210"].
Proof. split; vm_compute; reflexivity. Qed.

(** ** The matches of one pattern, left to right *)

Lemma in_order_prepend p cs t : in_order cs t -> in_order cs (p ++ t).
Proof.
  intros H. destruct H as [t|pre c cs rest H]; [constructor|].
  rewrite app_assoc. constructor. exact H.
Qed.

Lemma in_order_piece c' c cs t :
  substring_of c' c -> in_order (c :: cs) t -> in_order (c' :: cs) t.
Proof.
  intros (a & b & ->) H. inversion H as [|pre c0 cs0 rest Hr]. subst.
  assert (E : pre ++ (a ++ c' ++ b) ++ rest = (pre ++ a) ++ c' ++ (b ++ rest))
    by (rewrite <- !app_assoc; reflexivity).
  rewrite E. constructor. apply in_order_prepend. exact Hr.
Qed.

Lemma in_order_without c cs t : in_order (c :: cs) t -> in_order cs t.
Proof.
  intros H. inversion H as [|pre c0 cs0 rest Hr]. subst.
  rewrite app_assoc. apply in_order_prepend. exact Hr.
Qed.

Lemma in_order_flat_map {A : Type} (g : A -> text) (f : A -> list text) :
  (forall m, f m = [] \/ exists c, f m = [c] /\ substring_of c (g m)) ->
  forall ms t, in_order (map g ms) t -> in_order (flat_map f ms) t.
Proof.
  intros Hf. induction ms as [|m ms IH]; intros t H; [constructor|].
  cbn [map] in H. cbn [flat_map].
  inversion H as [|pre c0 cs0 rest Hr]. subst.
  specialize (IH rest Hr).
  destruct (Hf m) as [->|(c & -> & Hc)]; cbn [app].
  - rewrite app_assoc. apply in_order_prepend. exact IH.
  - apply (in_order_piece Hc). constructor. exact IH.
Qed.

Lemma matches_in_order : forall ts,
  in_order (map group0 (matches_of ts)) (tokens_text ts).
Proof.
  induction ts as [|[c|m] ts IH]; cbn [matches_of map tokens_text].
  - constructor.
  - apply (@in_order_prepend [c]). exact IH.
  - apply (@in_order_cons [] (group0 m)). exact IH.
Qed.

Lemma split_in_order : forall ts cur,
  in_order (split_tokens cur ts) (rev cur ++ tokens_text ts).
Proof.
  induction ts as [|[c|m] ts IH]; intros cur; cbn [split_tokens tokens_text].
  - apply (@in_order_cons [] (rev cur) [] []). constructor.
  - specialize (IH (c :: cur)). cbn [rev] in IH. rewrite <- app_assoc in IH. exact IH.
  - apply (@in_order_cons [] (rev cur)). apply in_order_prepend. apply (IH []).
Qed.

(** The candidates of one pattern stand in the text one after another. *)
Lemma candidates_of_pattern_in_order t p : in_order (candidates_of_pattern t p) t.
Proof.
  unfold candidates_of_pattern.
  apply in_order_flat_map with (g := group0).
  - intros m. destruct (15 <? _); [right|left; reflexivity].
    eexists. split; [reflexivity|].
    eapply substring_trans; [apply sub_trailing_substring | apply strip_substring].
  - unfold finditer. rewrite <- (scan_text scan_flags p t) at 2.
    apply matches_in_order.
Qed.

Lemma candidates_of_sentences_in_order t : in_order (candidates_of_sentences t) t.
Proof.
  unfold candidates_of_sentences.
  apply in_order_flat_map with (g := fun s => s).
  - intros s. destruct (_ && _)%bool; [right|left; reflexivity].
    eexists. split; [reflexivity | apply strip_substring].
  - rewrite map_id. unfold split.
    rewrite <- (scan_text false re_sentence_end t) at 2.
    apply (split_in_order (scan false re_sentence_end t) []).
Qed.

(** ** The candidates and their order *)

(** C4, as stated, fails: the first candidate returned starts at offset 23,
    the second at offset 0. *)
Lemma candidates_not_in_text_order :
  find_address_candidates two_addresses =
    [T "89501 or 123 Main Street, Anytown, CA 90210";
     T "P.O. Box 789, Reno, NV 89501";
     T "89501 or 123 Main Street";
     T "Box 789, Reno, NV 89501 or 123 Main Street, Anytown, CA 90210"] /\
  find_index (T "89501 or 123 Main Street, Anytown, CA 90210") two_addresses = Some 23 /\
  find_index (T "P.O. Box 789, Reno, NV 89501") two_addresses = Some 0 /\
  positions_ascending two_addresses (find_address_candidates two_addresses) = false.
Proof. repeat split; vm_compute; reflexivity. Qed.

(** C4, amended: [find_address_candidates] returns pieces of the text,
    each longer than 15 characters and no two with the same normal form
    (lower case, blanks collapsed), in discovery order: the matches of the
    four patterns, pattern after pattern, then the sentences; the
    candidates of one pattern stand in the text one after another, and so
    do the sentences.  Of the discovered candidates longer than 15
    characters it returns, in that order, the first of each normal form and
    no other: the result is the selection of [first_of_each_form], and
    every returned candidate stands in the list of discoveries after no
    candidate longer than 15 characters with its normal form. *)
Theorem candidates_unique_in_discovery_order (t : text) :
  NoDup (map normalize (find_address_candidates t)) /\
  Forall (fun c => 15 < List.length c) (find_address_candidates t) /\
  Forall (fun c => substring_of c t) (find_address_candidates t) /\
  pooled_candidates t =
    candidates_of_pattern t address_pattern_full
    ++ candidates_of_pattern t address_pattern_suite
    ++ candidates_of_pattern t address_pattern_po_box
    ++ candidates_of_pattern t address_pattern_simple
    ++ candidates_of_sentences t /\
  subseq (find_address_candidates t) (pooled_candidates t) /\
  (forall c, In c (pooled_candidates t) -> 15 < List.length c ->
     In (normalize c) (map normalize (find_address_candidates t))) /\
  find_address_candidates t = first_of_each_form [] (pooled_candidates t) /\
  (forall c, In c (find_address_candidates t) ->
     exists pre post, pooled_candidates t = pre ++ c :: post /\
       forall c', In c' pre -> 15 < List.length c' ->
         normalize c' <> normalize c) /\
  (forall p, In p address_patterns -> in_order (candidates_of_pattern t p) t) /\
  in_order (candidates_of_sentences t) t.
Proof.
  assert (First : find_address_candidates t =
                  first_of_each_form [] (pooled_candidates t)).
  { unfold find_address_candidates. apply unique_loop_first.
    intros n. reflexivity. }
  assert (Kept : forall c, In c (find_address_candidates t) ->
     exists pre post, pooled_candidates t = pre ++ c :: post /\
       forall c', In c' pre -> 15 < List.length c' ->
         normalize c' <> normalize c).
  { intros c Hc. rewrite First in Hc.
    apply first_of_each_form_first in Hc. exact Hc. }
  revert First Kept.
  unfold find_address_candidates. intros First Kept.
  split; [apply unique_loop_NoDup|].
  split; [apply Forall_forall; intros c Hc; apply unique_loop_In in Hc; tauto|].
  split.
  { apply Forall_forall. intros c Hc. apply unique_loop_In in Hc.
    apply pooled_candidates_substring. tauto. }
  split.
  { unfold pooled_candidates, address_patterns. simpl flat_map.
    rewrite app_nil_r, <- !app_assoc. reflexivity. }
  split; [apply unique_loop_subseq|].
  split.
  { intros c Hin Hlen.
    destruct (unique_loop_complete _ [] _ Hin Hlen) as [[]|H]. exact H. }
  split; [exact First|].
  split; [exact Kept|].
  split; [intros p _; apply candidates_of_pattern_in_order|].
  apply candidates_of_sentences_in_order.
Qed.

(* ================================================================== *)
(** * The link renderer on documents *)
(* ================================================================== *)

Section Runs.

Variable ic : bool.

Lemma rep_greedy_run cs : forall x lo rest st k res,
  run_of ic cs x rest ->
  lo <= List.length x ->
  ms_rest st = x ++ rest ->
  k (consumed x rest st) = Some res ->
  rep_greedy ic cs lo None (x ++ rest) st k = Some res.
Proof.
  induction x as [|c x IH]; intros lo rest st k res [Hx Hstop] Hlo Hrs Hk.
  - assert (Hst : consumed [] rest st = st).
    { destruct st. simpl in Hrs. subst. reflexivity. }
    rewrite Hst in Hk. simpl in Hlo. assert (lo = 0) by lia. subst lo.
    simpl. destruct rest as [|d rest]; simpl; [exact Hk|].
    rewrite Hstop. exact Hk.
  - inversion Hx as [|? ? Hc Hx']. subst.
    simpl. rewrite Hc.
    erewrite IH; [reflexivity | split; assumption | simpl in Hlo; lia | reflexivity |].
    unfold consumed in *. simpl in *. rewrite <- app_assoc in Hk. exact Hk.
Qed.

Lemma rep_greedy_fail cs : forall x lo hi rest st k,
  ms_rest st = x ++ rest ->
  match rest with [] => True | d :: _ => cset_match ic cs d = false end ->
  (forall x2 st', (exists x1, x = x1 ++ x2) -> ms_rest st' = x2 ++ rest -> k st' = None) ->
  rep_greedy ic cs lo hi (x ++ rest) st k = None.
Proof.
  induction x as [|c x IH]; intros lo hi rest st k Hrs Hstop Hk.
  - assert (Hst : k st = None).
    { apply (Hk []); [exists []; reflexivity | exact Hrs]. }
    simpl. destruct rest as [|d rest]; simpl.
    + destruct lo; [exact Hst | reflexivity].
    + rewrite Hstop, andb_false_r. destruct lo; [exact Hst | reflexivity].
  - assert (Hst : k st = None).
    { apply (Hk (c :: x)); [exists []; reflexivity | exact Hrs]. }
    simpl. rewrite IH; [| reflexivity | exact Hstop |].
    + destruct (more_allowed hi && cset_match ic cs c)%bool;
        (destruct lo; [exact Hst | reflexivity]).
    + intros x2 st' [x1 ->] Hrs'. apply (Hk x2); [|exact Hrs'].
      exists (c :: x1). reflexivity.
Qed.

End Runs.

Section SubFacts.

Variable ic : bool.
Variable r : regex.
Variable repl : mstate -> text.

Lemma scan_loop_skip : forall m pv rest,
  scan_loop ic r (List.length m) pv (m ++ rest) = scan_loop ic r 0 (last_or m pv) rest.
Proof.
  induction m as [|c m IH]; intros pv rest; [reflexivity|].
  simpl. apply IH.
Qed.

Lemma sub_from_nil prev :
  try_match ic r prev [] = None -> sub_from ic r repl prev [] = [].
Proof. unfold sub_from. simpl. intros ->. reflexivity. Qed.

Lemma sub_from_char prev c tl :
  try_match ic r prev (c :: tl) = None ->
  sub_from ic r repl prev (c :: tl) = c :: sub_from ic r repl (Some c) tl.
Proof. unfold sub_from. simpl. intros ->. reflexivity. Qed.

Lemma sub_from_match prev rs st :
  try_match ic r prev rs = Some st -> ms_acc st <> [] ->
  exists prev',
    sub_from ic r repl prev rs = repl st ++ sub_from ic r repl prev' (ms_rest st).
Proof.
  intros E Hne. pose proof (try_match_prefix _ _ _ _ E) as Hp.
  unfold sub_from.
  destruct rs as [|c tl].
  - symmetry in Hp. apply app_eq_nil in Hp. destruct Hp as [Hg _].
    exfalso. apply Hne. unfold group0 in Hg.
    apply (f_equal (@rev ascii)) in Hg. rewrite rev_involutive in Hg. exact Hg.
  - simpl. rewrite E.
    destruct (ms_acc st) as [|x a] eqn:Ea; [contradiction Hne; reflexivity|].
    unfold group0 in Hp. rewrite Ea in Hp.
    destruct (rev (x :: a)) as [|c' g'] eqn:Eg.
    { apply (f_equal (@List.length ascii)) in Eg. rewrite length_rev in Eg. discriminate. }
    simpl in Hp. injection Hp as -> ->.
    assert (Hl : List.length a = List.length g').
    { apply (f_equal (@List.length ascii)) in Eg. rewrite length_rev in Eg.
      simpl in Eg. lia. }
    rewrite Hl, scan_loop_skip. eexists. reflexivity.
Qed.

(** An inert piece is copied. *)
Lemma sub_from_inert : forall s rest prev,
  inert ic r s ->
  exists prev', sub_from ic r repl prev (s ++ rest) = s ++ sub_from ic r repl prev' rest.
Proof.
  induction s as [|c s IH]; intros rest prev Hi.
  - exists prev. reflexivity.
  - simpl. rewrite sub_from_char.
    + destruct (IH rest (Some c)) as [prev' Hp].
      * intros pre d suf rest' prev'' ->. apply (Hi (c :: pre)). reflexivity.
      * exists prev'. rewrite Hp. reflexivity.
    + apply (Hi []). reflexivity.
Qed.

Lemma inert_app s1 s2 : inert ic r s1 -> inert ic r s2 -> inert ic r (s1 ++ s2).
Proof.
  intros H1 H2 pre c suf rest prev E.
  revert s1 H1 E. induction pre as [|p pre IHp]; intros s1 H1 E.
  - destruct s1 as [|d s1]; simpl in E.
    + subst s2. apply (H2 []). reflexivity.
    + injection E as -> <-. rewrite <- app_assoc. apply (H1 []). reflexivity.
  - destruct s1 as [|d s1]; simpl in E.
    + subst s2. apply (H2 (p :: pre)). reflexivity.
    + injection E as -> E. apply (IHp s1); [|exact E].
      intros pre' c' suf' rest' prev' ->. apply (H1 (p :: pre')). reflexivity.
Qed.

Lemma inert_nil : inert ic r [].
Proof. intros [|p pre] c suf rest prev E; discriminate E. Qed.

(** Matches of [r] that are all gone leave the text as it is. *)
Lemma sub_tokens_no_match : forall ts,
  matches_of ts = [] -> sub_tokens repl ts = tokens_text ts.
Proof.
  induction ts as [|[c|m] ts IH]; simpl; intros H; [reflexivity| |discriminate].
  rewrite IH; auto.
Qed.

Lemma sub_when_counted s :
  (if 0 <? List.length (finditer ic r s) then sub ic r repl s else s) = sub ic r repl s.
Proof.
  destruct (finditer ic r s) eqn:E; simpl; [|reflexivity].
  unfold sub. rewrite sub_tokens_no_match; [|exact E].
  symmetry. apply scan_text.
Qed.

End SubFacts.

(** ** Texts without [<] *)

Lemma not_in_eqb (d : ascii) (v : text) :
  ~ In d v -> Forall (fun c => Ascii.eqb c d = false) v.
Proof.
  intros H. apply Forall_forall. intros c Hc. apply Ascii.eqb_neq.
  intros ->. contradiction.
Qed.

Lemma not_in_app (d : ascii) (u v : text) : ~ In d u -> ~ In d v -> ~ In d (u ++ v).
Proof. intros Hu Hv H. apply in_app_or in H. tauto. Qed.

Lemma not_in_cons (d c : ascii) (v : text) : c <> d -> ~ In d v -> ~ In d (c :: v).
Proof. intros Hc Hv [H|H]; [apply Hc; exact H | apply Hv; exact H]. Qed.

Ltac lt_free :=
  repeat first
    [ assumption
    | apply not_in_app
    | apply not_in_cons; [discriminate|]
    | apply in_nil ].

Lemma length_pos (v : text) : v <> [] -> 1 <= List.length v.
Proof. destruct v; simpl; [congruence | lia]. Qed.

Lemma inner_run (txt rest : text) :
  ~ In lt txt -> run_of false (CS true [CChar lt]) txt (lt :: rest).
Proof.
  intros H. split.
  - apply not_in_eqb in H. eapply Forall_impl; [|exact H].
    intros c Hc. unfold cset_match. cbn [cs_neg cs_items existsb item_match fold].
    rewrite Hc. reflexivity.
  - reflexivity.
Qed.

Lemma value_run (v rest : text) :
  ~ In dquote v -> run_of false (CS true [CChar dquote]) v (dquote :: rest).
Proof.
  intros H. split.
  - apply not_in_eqb in H. eapply Forall_impl; [|exact H].
    intros c Hc. unfold cset_match. cbn [cs_neg cs_items existsb item_match fold].
    rewrite Hc. reflexivity.
  - reflexivity.
Qed.

(** ** Pieces that a pattern leaves alone *)

Section Inert.

Variable r : regex.
Hypothesis Hlt : starts_with_lt r.

Lemma inert_lt_free (s : text) : ~ In lt s -> inert false r s.
Proof.
  intros H pre c suf rest prev ->. apply Hlt. intros ->.
  apply H. apply in_or_app. right. left. reflexivity.
Qed.

(** A piece that opens with [<], where no match starts, and goes on
    without [<]. *)
Lemma inert_open (s : text) :
  ~ In lt s ->
  (forall prev rest, try_match false r prev (lt :: s ++ rest) = None) ->
  inert false r (lt :: s).
Proof.
  intros Hs H0 pre c suf rest prev E. destruct pre as [|p pre]; simpl in E.
  - injection E as <- <-. apply H0.
  - injection E as _ E. apply (inert_lt_free Hs pre c suf rest prev E).
Qed.

Hypothesis Hskip : skips_markup r.

Lemma inert_link lon lat z txt :
  well_formed (Link lon lat z txt) -> inert false r (seg_text (Link lon lat z txt)).
Proof.
  intros ((_ & _ & Hlon) & (_ & _ & Hlat) & (_ & _ & Hz) & (_ & Htxt)).
  destruct Hskip as (Hclose & Hanchor & _).
  unfold seg_text, anchor, TQ, T. cbn [list_ascii_of_string map app Ascii.eqb Bool.eqb].
  repeat (rewrite <- app_assoc; cbn [app]).
  match goal with
  | |- inert _ _ (?l :: ?a :: ?sp :: ?mid) =>
      change (l :: a :: sp :: mid) with ([l; a; sp] ++ mid)
  end.
  apply inert_app.
  { apply inert_open; [unfold lt; lt_free|]. intros. apply Hanchor. }
  repeat match goal with
  | |- inert _ _ ("<"%char :: "/"%char :: ?s) =>
      change ("<"%char :: "/"%char :: s) with ([lt; "/"%char] ++ s); apply inert_app;
        [apply inert_open; [unfold lt; lt_free | intros; apply Hclose]|]
  | |- inert _ _ (?c :: ?s) =>
      change (c :: s) with ([c] ++ s); apply inert_app;
        [apply inert_lt_free; unfold lt; lt_free|]
  | |- inert _ _ (?u ++ ?s) =>
      apply inert_app; [apply inert_lt_free; assumption|]
  end.
  apply inert_nil.
Qed.

End Inert.

Ltac step := cbn.

(** ** Where the four patterns cannot match *)

Lemma lit_lt_false c : c <> lt -> lit_match false lt c = false.
Proof. intros H. unfold lit_match, fold. apply Ascii.eqb_neq. exact H. Qed.

Ltac starts_lt :=
  intros prev c tl Hc; unfold try_match;
  cbn [rmatch ms_rest]; fold lt; rewrite (lit_lt_false Hc); reflexivity.

Lemma pattern_starts_with_lt : starts_with_lt pattern.
Proof. unfold pattern. starts_lt. Qed.

Lemma legacy_pattern_starts_with_lt : starts_with_lt legacy_pattern.
Proof. unfold legacy_pattern. starts_lt. Qed.

Lemma simple_pattern_starts_with_lt : starts_with_lt simple_pattern.
Proof. unfold simple_pattern. starts_lt. Qed.

Lemma address_pattern_starts_with_lt : starts_with_lt address_pattern.
Proof. unfold address_pattern. starts_lt. Qed.

Ltac skips := repeat split; intros; reflexivity.

Lemma pattern_skips_markup : skips_markup pattern.
Proof. skips. Qed.

Lemma legacy_pattern_skips_markup : skips_markup legacy_pattern.
Proof. skips. Qed.

Lemma simple_pattern_skips_markup : skips_markup simple_pattern.
Proof. skips. Qed.

Lemma address_pattern_skips_markup : skips_markup address_pattern.
Proof. skips. Qed.

(** ** Where they match *)

Ltac normalize_text :=
  unfold seg_text, anchor;
  cbn [kind_name T TQ list_ascii_of_string map app Ascii.eqb Bool.eqb];
  repeat (rewrite <- app_assoc; cbn [app]).

Ltac run_match :=
  step;
  first
    [ reflexivity
    | erewrite rep_greedy_run;
        [ step; reflexivity
        | first [apply value_run | apply inner_run]; assumption
        | apply length_pos; assumption
        | reflexivity
        | run_match ] ].

Ltac group_text := unfold group; step; rewrite ?app_nil_r; apply rev_involutive.

Lemma simple_on_bare k txt rest prev :
  inner_text txt ->
  exists st,
    try_match false simple_pattern prev (seg_text (Bare k txt) ++ rest) = Some st /\
    ms_rest st = rest /\ ms_acc st <> [] /\ group 2 st = txt.
Proof.
  intros [Hne Hlt].
  destruct k; normalize_text; unfold try_match, simple_pattern.
  all: eexists; split; [run_match|];
    split; [reflexivity|]; split; [discriminate | group_text].
Qed.

Lemma legacy_on_legacy k lat lon txt rest prev :
  well_formed (Legacy k lat lon txt) ->
  exists st,
    try_match false legacy_pattern prev (seg_text (Legacy k lat lon txt) ++ rest) = Some st /\
    ms_rest st = rest /\ ms_acc st <> [] /\
    group 2 st = lat /\ group 3 st = lon /\ group 4 st = txt.
Proof.
  intros ((Hlat0 & Hlat & _) & (Hlon0 & Hlon & _) & (Htxt0 & Htxt)).
  destruct k; normalize_text; unfold try_match, legacy_pattern.
  all: eexists; split; [run_match|];
    split; [reflexivity|]; split; [discriminate|];
    repeat split; group_text.
Qed.

Lemma current_on_current k lat lon z txt rest prev :
  well_formed (Current k lat lon z txt) ->
  exists st,
    try_match false pattern prev (seg_text (Current k lat lon z txt) ++ rest) = Some st /\
    ms_rest st = rest /\ ms_acc st <> [] /\
    group 2 st = lat /\ group 3 st = lon /\ group 4 st = z /\ group 5 st = txt.
Proof.
  intros ((Hlat0 & Hlat & _) & (Hlon0 & Hlon & _) & (Hz0 & Hz & _) & (Htxt0 & Htxt)).
  destruct k; normalize_text; unfold try_match, pattern.
  all: eexists; split; [run_match|];
    split; [reflexivity|]; split; [discriminate|];
    repeat split; group_text.
Qed.


Lemma pattern_skips_bare : skips_bare pattern.
Proof. intros [] prev tl; reflexivity. Qed.

Lemma legacy_pattern_skips_bare : skips_bare legacy_pattern.
Proof. intros [] prev tl; reflexivity. Qed.

Lemma in_middle {A : Type} (x : A) (l l1 l2 : list A) : l = l1 ++ x :: l2 -> In x l.
Proof. intros ->. apply in_or_app. right. left. reflexivity. Qed.

Section LegacySkipped.

Local Arguments Ascii.eqb !_ !_ : simpl nomatch.

Lemma eqb_not_in (d c : ascii) (l l1 l2 : text) :
  ~ In d l -> l = l1 ++ c :: l2 -> Ascii.eqb c d = false.
Proof.
  intros Hn E. apply Ascii.eqb_neq. intros ->. apply Hn. eapply in_middle. exact E.
Qed.

Ltac fail_run Hv :=
  rewrite rep_greedy_fail; [reflexivity | reflexivity | reflexivity |];
  let x2 := fresh "x" in let x1 := fresh "y" in let E := fresh "E" in
  let Hrs := fresh "Hrs" in let c := fresh "c" in
  let pv := fresh "pv" in let ac := fresh "ac" in let rs := fresh "rs" in
  let cp := fresh "cp" in
  intros x2 [pv ac rs cp] [x1 E] Hrs; cbn in Hrs; subst rs;
  destruct x2 as [|c x2]; cbn;
    [ | let H := fresh "H" in
        pose proof (@eqb_not_in _ _ _ _ _ Hv E) as H; cbn in H; rewrite H; reflexivity ].

Lemma pattern_skips_legacy k lat lon txt rest prev :
  well_formed (Legacy k lat lon txt) ->
  try_match false pattern prev (seg_text (Legacy k lat lon txt) ++ rest) = None.
Proof.
  intros ((Hlat0 & Hlat & _) & (Hlon0 & Hlon & _) & (Htxt0 & Htxt)).
  destruct k; normalize_text; unfold try_match, pattern; cbn.
  all: fail_run Hlat; fail_run Hlon; reflexivity.
Qed.

End LegacySkipped.

(** ** Pieces each pattern leaves alone *)

Section InertTags.

Variable r : regex.
Hypothesis Hlt : starts_with_lt r.
Hypothesis Hskip : skips_markup r.

Ltac inert_pieces Hclose :=
  repeat match goal with
  | |- inert _ _ [] => apply inert_nil
  | |- inert _ _ ("<"%char :: "/"%char :: ?s) =>
      change ("<"%char :: "/"%char :: s) with ([lt; "/"%char] ++ s); apply inert_app;
        [apply inert_open; [assumption | unfold lt; lt_free | intros; apply Hclose]|]
  | |- inert _ _ (?c :: ?s) =>
      change (c :: s) with ([c] ++ s); apply inert_app;
        [apply inert_lt_free; [assumption | unfold lt; lt_free]|]
  | |- inert _ _ (?u ++ ?s) =>
      apply inert_app; [apply inert_lt_free; assumption|]
  end.

Lemma inert_bare_open k :
  skips_bare r -> inert false r (lt :: kind_name k ++ [">"%char]).
Proof.
  intros Hb. apply inert_open;
    [assumption | destruct k; unfold lt; cbn [kind_name T list_ascii_of_string app]; lt_free |].
  intros prev rest. rewrite <- app_assoc. apply Hb.
Qed.

Lemma inert_bare k txt :
  skips_bare r -> well_formed (Bare k txt) -> inert false r (seg_text (Bare k txt)).
Proof.
  intros Hb (_ & Htxt). destruct Hskip as (Hclose & _ & _).
  pose proof (inert_bare_open k Hb) as Hopen.
  unfold seg_text.
  destruct k; cbn [kind_name T list_ascii_of_string app] in *;
    match goal with
    | |- inert _ _ (?a :: ?b :: ?c :: ?d :: ">"%char :: ?s) =>
        change (a :: b :: c :: d :: ">"%char :: s) with ([a; b; c; d; ">"%char] ++ s)
    | |- inert _ _ (?a :: ?b :: ?c :: ?d :: ?e :: ?f :: ?g :: ?h :: ">"%char :: ?s) =>
        change (a :: b :: c :: d :: e :: f :: g :: h :: ">"%char :: s)
          with ([a; b; c; d; e; f; g; h; ">"%char] ++ s)
    end;
    (apply inert_app; [exact Hopen|]); inert_pieces Hclose.
Qed.

Lemma inert_cons c s :
  (forall prev rest, try_match false r prev (c :: s ++ rest) = None) ->
  inert false r s -> inert false r (c :: s).
Proof.
  intros H0 Hs pre d suf rest prev E. destruct pre as [|p pre]; simpl in E.
  - injection E as <- <-. apply H0.
  - injection E as _ E. apply (Hs pre d suf rest prev E).
Qed.

Lemma inert_legacy k lat lon txt :
  (forall prev rest,
     try_match false r prev (seg_text (Legacy k lat lon txt) ++ rest) = None) ->
  well_formed (Legacy k lat lon txt) ->
  inert false r (seg_text (Legacy k lat lon txt)).
Proof.
  intros H0 ((_ & _ & Hlat) & (_ & _ & Hlon) & (_ & Htxt)).
  destruct Hskip as (Hclose & _ & _).
  revert H0. destruct k; normalize_text; intros H0.
  all: apply inert_cons;
    [ intros prev rest; specialize (H0 prev rest);
      repeat first [rewrite <- app_assoc in H0 | progress cbn [app] in H0];
      repeat first [rewrite <- app_assoc | progress cbn [app]]; exact H0
    | inert_pieces Hclose ].
Qed.

End InertTags.

(** ** One substitution over a document *)

Section Pass.

Variable r : regex.
Variable repl : mstate -> text.
Variable ok : segment -> Prop.
Variable f : segment -> segment.

Hypothesis Hend : forall prev, try_match false r prev [] = None.

Hypothesis Hseg : forall g, ok g -> forall rest prev,
  exists prev',
    sub_from false r repl prev (seg_text g ++ rest)
    = seg_text (f g) ++ sub_from false r repl prev' rest.

Lemma pass_document : forall d prev,
  Forall ok d -> sub_from false r repl prev (doc_text d) = doc_text (map f d).
Proof.
  induction d as [|g d IH]; intros prev Hd.
  - apply sub_from_nil. apply Hend.
  - inversion Hd as [|? ? Hg Hd']. subst.
    change (doc_text (g :: d)) with (seg_text g ++ doc_text d).
    destruct (Hseg Hg (doc_text d) prev) as [prev' ->].
    rewrite (IH prev' Hd'). reflexivity.
Qed.

End Pass.

Lemma copied r repl g rest prev :
  inert false r (seg_text g) ->
  exists prev',
    sub_from false r repl prev (seg_text g ++ rest)
    = seg_text g ++ sub_from false r repl prev' rest.
Proof. intros H. apply sub_from_inert. exact H. Qed.

(** ** The four substitutions *)

Lemma pass_current d :
  Forall well_formed d ->
  Re.sub false pattern replace_with_html_link (doc_text d)
  = doc_text (map after_current d).
Proof.
  intros Hd. unfold Re.sub, scan. fold (sub_from false pattern replace_with_html_link None (doc_text d)).
  apply pass_document with (ok := well_formed); [reflexivity | | exact Hd].
  intros g Hg rest prev. destruct g as [s|k lat lon z txt|k lat lon txt|k txt|lon lat z txt].
  - apply copied. exact (proj1 Hg).
  - destruct (@current_on_current k lat lon z txt rest prev Hg)
      as (st & Hm & Hrest & Hacc & H2 & H3 & H4 & H5).
    destruct (@sub_from_match false pattern replace_with_html_link _ _ _ Hm Hacc) as [prev' Hs].
    exists prev'. rewrite Hs, Hrest. f_equal.
    unfold replace_with_html_link. rewrite H2, H3, H4, H5.
    unfold after_current, is_none.
    destruct (Str.eqb lat none || Str.eqb lon none || Str.eqb z none)%bool; reflexivity.
  - apply copied. apply inert_legacy;
      [apply pattern_starts_with_lt | apply pattern_skips_markup | | exact Hg].
    intros prev0 rest0. apply pattern_skips_legacy. exact Hg.
  - apply copied. apply inert_bare;
      [apply pattern_starts_with_lt | apply pattern_skips_markup
      | apply pattern_skips_bare | exact Hg].
  - apply copied. apply inert_link;
      [apply pattern_starts_with_lt | apply pattern_skips_markup | exact Hg].
Qed.

Lemma pass_legacy d :
  Forall (fun g => well_formed g /\ is_current g = false) d ->
  Re.sub false legacy_pattern replace_legacy_with_html_link (doc_text d)
  = doc_text (map after_legacy d).
Proof.
  intros Hd. unfold Re.sub, scan.
  fold (sub_from false legacy_pattern replace_legacy_with_html_link None (doc_text d)).
  apply pass_document with (ok := fun g => well_formed g /\ is_current g = false);
    [reflexivity | | exact Hd].
  intros g [Hg Hc] rest prev.
  destruct g as [s|k lat lon z txt|k lat lon txt|k txt|lon lat z txt]; [|discriminate Hc| | |].
  - apply copied. exact (proj1 (proj2 Hg)).
  - destruct (@legacy_on_legacy k lat lon txt rest prev Hg)
      as (st & Hm & Hrest & Hacc & H2 & H3 & H4).
    destruct (@sub_from_match false legacy_pattern replace_legacy_with_html_link _ _ _ Hm Hacc) as [prev' Hs].
    exists prev'. rewrite Hs, Hrest. f_equal.
    unfold replace_legacy_with_html_link. rewrite H2, H3, H4.
    unfold after_legacy, is_none.
    destruct (Str.eqb lat none || Str.eqb lon none)%bool; reflexivity.
  - apply copied. apply inert_bare;
      [apply legacy_pattern_starts_with_lt | apply legacy_pattern_skips_markup
      | apply legacy_pattern_skips_bare | exact Hg].
  - apply copied. apply inert_link;
      [apply legacy_pattern_starts_with_lt | apply legacy_pattern_skips_markup | exact Hg].
Qed.

Lemma pass_simple d :
  Forall (fun g => well_formed g /\ is_current g = false /\ is_legacy g = false) d ->
  Re.sub false simple_pattern (Re.group 2) (doc_text d) = doc_text (map after_simple d).
Proof.
  intros Hd. unfold Re.sub, scan.
  fold (sub_from false simple_pattern (Re.group 2) None (doc_text d)).
  apply pass_document
    with (ok := fun g => well_formed g /\ is_current g = false /\ is_legacy g = false);
    [reflexivity | | exact Hd].
  intros g (Hg & Hc & Hl) rest prev.
  destruct g as [s|k lat lon z txt|k lat lon txt|k txt|lon lat z txt];
    [|discriminate Hc|discriminate Hl| |].
  - apply copied. exact (proj1 (proj2 (proj2 Hg))).
  - destruct (@simple_on_bare k txt rest prev Hg) as (st & Hm & Hrest & Hacc & H2).
    destruct (@sub_from_match false simple_pattern (Re.group 2) _ _ _ Hm Hacc) as [prev' Hs].
    exists prev'. rewrite Hs, Hrest, H2. reflexivity.
  - apply copied. apply inert_link;
      [apply simple_pattern_starts_with_lt | apply simple_pattern_skips_markup | exact Hg].
Qed.

Lemma pass_address d :
  Forall (fun g => well_formed g /\ is_current g = false /\ is_legacy g = false
                   /\ is_bare g = false) d ->
  Re.sub false address_pattern (Re.group 1) (doc_text d) = doc_text d.
Proof.
  intros Hd. unfold Re.sub, scan.
  fold (sub_from false address_pattern (Re.group 1) None (doc_text d)).
  rewrite <- (map_id d) at 2.
  apply pass_document
    with (ok := fun g => well_formed g /\ is_current g = false /\ is_legacy g = false
                         /\ is_bare g = false);
    [reflexivity | | exact Hd].
  intros g (Hg & Hc & Hl & Hb) rest prev.
  destruct g as [s|k lat lon z txt|k lat lon txt|k txt|lon lat z txt];
    [|discriminate Hc|discriminate Hl|discriminate Hb|].
  - apply copied. exact (proj2 (proj2 (proj2 Hg))).
  - apply copied. apply inert_link;
      [apply address_pattern_starts_with_lt | apply address_pattern_skips_markup | exact Hg].
Qed.

(** ** The stages keep the document well formed *)

Lemma lt_free_tagless (s : text) : ~ In lt s -> tagless s.
Proof.
  intros H. repeat split; apply inert_lt_free; try exact H.
  - apply pattern_starts_with_lt.
  - apply legacy_pattern_starts_with_lt.
  - apply simple_pattern_starts_with_lt.
  - apply address_pattern_starts_with_lt.
Qed.

Lemma attr_value_16 : attr_value (T "16").
Proof.
  repeat split; [discriminate | |]; intros [H|[H|[]]]; discriminate H.
Qed.

Lemma after_current_ok g :
  well_formed g -> well_formed (after_current g) /\ is_current (after_current g) = false.
Proof.
  destruct g as [s|k lat lon z txt|k lat lon txt|k txt|lon lat z txt];
    cbn [after_current well_formed is_current];
    try (intros H; split; [exact H | reflexivity]).
  intros (Hlat & Hlon & Hz & Htxt).
  destruct (is_none lat || is_none lon || is_none z)%bool;
    cbn [well_formed is_current]; (split; [|reflexivity]).
  - apply lt_free_tagless. apply Htxt.
  - tauto.
Qed.

Lemma after_legacy_ok g :
  well_formed g /\ is_current g = false ->
  well_formed (after_legacy g) /\ is_current (after_legacy g) = false
  /\ is_legacy (after_legacy g) = false.
Proof.
  destruct g as [s|k lat lon z txt|k lat lon txt|k txt|lon lat z txt];
    cbn [after_legacy well_formed is_current is_legacy];
    try (intros [H Hc]; split; [exact H | split; [exact Hc | reflexivity]]).
  intros [(Hlat & Hlon & Htxt) _].
  destruct (is_none lat || is_none lon)%bool;
    cbn [well_formed is_current is_legacy]; (split; [|split; reflexivity]).
  - apply lt_free_tagless. apply Htxt.
  - repeat split; solve [apply Htxt | apply Hlat | apply Hlon | apply attr_value_16].
Qed.

Lemma after_simple_ok g :
  well_formed g /\ is_current g = false /\ is_legacy g = false ->
  well_formed (after_simple g) /\ is_current (after_simple g) = false
  /\ is_legacy (after_simple g) = false /\ is_bare (after_simple g) = false.
Proof.
  destruct g as [s|k lat lon z txt|k lat lon txt|k txt|lon lat z txt];
    cbn [after_simple well_formed is_current is_legacy is_bare];
    intros (H & Hc & Hl); try discriminate Hc; try discriminate Hl;
    (split; [|repeat split; reflexivity]).
  - exact H.
  - apply lt_free_tagless. apply H.
  - exact H.
Qed.

Lemma anchor_map_link lon lat z txt : anchor lon lat z txt = map_link lon lat z txt.
Proof.
  unfold anchor, map_link. cbn [TQ T list_ascii_of_string map app].
  repeat first [rewrite <- app_assoc | progress cbn [app]]. reflexivity.
Qed.

Lemma rendered_stages g :
  seg_text (after_simple (after_legacy (after_current g))) = rendered g.
Proof.
  destruct g as [s|k lat lon z txt|k lat lon txt|k txt|lon lat z txt]; simpl;
    try reflexivity.
  - destruct (is_none lat || is_none lon || is_none z)%bool;
      [reflexivity | apply anchor_map_link].
  - destruct (is_none lat || is_none lon)%bool;
      [reflexivity | apply anchor_map_link].
  - apply anchor_map_link.
Qed.

(** The renderer on a well-formed document. *)
Lemma transform_document (d : document) :
  Forall well_formed d ->
  transform_xml_to_html_links (doc_text d) = flat_map rendered d.
Proof.
  intros Hd. unfold transform_xml_to_html_links, count_matches.
  rewrite !sub_when_counted.
  rewrite (pass_current Hd).
  assert (H1 : Forall (fun g => well_formed g /\ is_current g = false)
                 (map after_current d)).
  { apply Forall_map. eapply Forall_impl; [|exact Hd]. apply after_current_ok. }
  rewrite (pass_legacy H1).
  assert (H2 : Forall (fun g => well_formed g /\ is_current g = false
                                /\ is_legacy g = false)
                 (map after_legacy (map after_current d))).
  { apply Forall_map. eapply Forall_impl; [|exact H1]. apply after_legacy_ok. }
  rewrite (pass_simple H2).
  assert (H3 : Forall (fun g => well_formed g /\ is_current g = false
                                /\ is_legacy g = false /\ is_bare g = false)
                 (map after_simple (map after_legacy (map after_current d)))).
  { apply Forall_map. eapply Forall_impl; [|exact H2]. apply after_simple_ok. }
  rewrite (pass_address H3).
  unfold doc_text. rewrite !map_map, flat_map_concat_map, map_map.
  rewrite flat_map_concat_map. f_equal. apply map_ext. apply rendered_stages.
Qed.

(** ** The renderer on tagged texts *)

Example scenario_b :
  transform_xml_to_html_links
    (TQ "<GPE lat='34.05' lon='-118.25' zoom_level='10'>Los Angeles</GPE>")
  = TQ "<a href='https://www.arcgis.com/apps/mapviewer/index.html?center=-118.25,34.05&level=10&marker=-118.25,34.05' target='_blank'>Los Angeles</a>".
Proof. vm_compute. reflexivity. Qed.

Example scenario_c :
  transform_xml_to_html_links
    (TQ "<LOC lat='none' lon='none' zoom_level='none'>Somewhere</LOC>")
  = T "Somewhere".
Proof. vm_compute. reflexivity. Qed.


Ltac concrete_tagless :=
  repeat split; repeat (apply inert_cons; [intros; reflexivity|]); apply inert_nil.

Ltac concrete_wf :=
  repeat first
    [ apply Forall_cons | apply Forall_nil
    | match goal with |- well_formed (Plain _) => cbn [well_formed]; concrete_tagless end
    | split
    | discriminate
    | let H := fresh in intros H; cbn in H; intuition discriminate ].



(* ================================================================== *)
(** * The entry point and the tagger *)
(* ================================================================== *)

Example literal_compile :
  literal (T "<address>") REps = compile (T "<address>") /\
  literal (T "</address>") REps = compile (T "</address>").
Proof. split; reflexivity. Qed.

(** ** What the tagger returns and what it lets escape *)

Lemma parse_offline requests_put self t :
  mock_mode self = true ->
  parse_address_with_shipengine requests_put self t = Return (_mock_address_validation t).
Proof. intros H. unfold parse_address_with_shipengine. rewrite H. reflexivity. Qed.

Lemma handle_raise t e e' :
  handle t e = Raise e' ->
  e' = e /\ is_request_exception e = false /\ is_json_decode_error e = false.
Proof.
  unfold handle.
  destruct (is_request_exception e); [discriminate|].
  destruct (is_json_decode_error e); [discriminate|].
  intros H. injection H as <-. auto.
Qed.

Lemma parse_raise requests_put self t e :
  parse_address_with_shipengine requests_put self t = Raise e ->
  mock_mode self = false /\ is_request_exception e = false /\
  is_json_decode_error e = false /\ raised_by_service requests_put t e.
Proof.
  unfold parse_address_with_shipengine, raised_by_service.
  destruct (mock_mode self); [discriminate|].
  destruct (requests_put t) as [e0|resp] eqn:Hp.
  - intros H. apply handle_raise in H. destruct H as (-> & H1 & H2). auto.
  - destruct (status_code resp =? 200)%Z eqn:Hs.
    + apply Z.eqb_eq in Hs.
      destruct (json resp) as [e0|[res|]] eqn:Hj.
      * intros H. apply handle_raise in H. destruct H as (-> & H1 & H2).
        repeat split; auto. right. exists resp. auto.
      * destruct (truthy_list (address res)); discriminate.
      * discriminate.
    + destruct (status_code resp =? 402)%Z; [discriminate|].
      destruct (status_code resp =? 401)%Z; discriminate.
Qed.

Lemma tag_candidates_result requests_put self : forall cands tagged,
  (exists out, snd (tag_candidates requests_put self cands tagged) = Return out) \/
  (exists c e, In c cands /\
     parse_address_with_shipengine requests_put self c = Raise e /\
     snd (tag_candidates requests_put self cands tagged) = Raise e).
Proof.
  induction cands as [|c cands IH]; intros tagged.
  - left. exists tagged. reflexivity.
  - cbn [tag_candidates]. unfold validate, observe, bind.
    destruct (parse_address_with_shipengine requests_put self c) as [r|e] eqn:Hp.
    + destruct (is_some r && is_valid_address r)%bool;
        [destruct (negb (Str.contains (wrap c) tagged))|].
      all: match goal with
           | |- context [tag_candidates _ _ _ ?x] =>
               destruct (IH x) as [[out Ho]|(c' & e & Hin & Hr & Ho)];
               destruct (tag_candidates requests_put self cands x) as [tr res];
               cbn [snd] in *; subst res;
               [left; exists out; reflexivity
               |right; exists c', e; repeat split; [right; exact Hin | exact Hr]]
           end.
    + right. exists c, e. repeat split; [left; reflexivity | exact Hp].
Qed.

Lemma find_address_candidates_substring t c :
  In c (find_address_candidates t) -> substring_of c t.
Proof.
  unfold find_address_candidates. intros H.
  apply unique_loop_In in H. apply pooled_candidates_substring. apply H.
Qed.

(** The tagger without the record of its calls. *)
Lemma tag_unfold requests_put self t :
  tag_addresses_in_text requests_put self t =
  match t, Str.strip t with
  | [], _ | _, [] => Return t
  | _ :: _, _ :: _ =>
      match find_address_candidates t with
      | [] =>
          match parse_address_with_shipengine requests_put self t with
          | Return (Some res) =>
              if is_valid_address (Some res) then
                match _extract_address_text_from_entities res t with
                | Some (c :: address_text) =>
                    Return (Str.replace (c :: address_text) (wrap (c :: address_text)) t)
                | _ => Return t
                end
              else Return t
          | Return None => Return t
          | Raise e => Raise e
          end
      | candidates => snd (tag_candidates requests_put self candidates t)
      end
  end.
Proof.
  unfold tag_addresses_in_text, tag_addresses_in_text_M.
  destruct t as [|a t]; [reflexivity|].
  destruct (Str.strip (a :: t)); [reflexivity|].
  unfold validate, observe, bind.
  destruct (find_address_candidates (a :: t)) as [|c cands].
  - destruct (parse_address_with_shipengine requests_put self (a :: t)) as [[res|]|e];
      try reflexivity.
    destruct (is_valid_address (Some res)); [|reflexivity].
    destruct (_extract_address_text_from_entities res (a :: t)) as [[|x y]|]; reflexivity.
  - destruct (tag_candidates requests_put self (c :: cands) (a :: t)). reflexivity.
Qed.

Lemma tag_result requests_put self t :
  (exists out, tag_addresses_in_text requests_put self t = Return out) \/
  (exists c e, substring_of c t /\
     parse_address_with_shipengine requests_put self c = Raise e /\
     tag_addresses_in_text requests_put self t = Raise e).
Proof.
  rewrite tag_unfold.
  destruct t as [|a t]; [left; eexists; reflexivity|].
  destruct (Str.strip (a :: t)); [left; eexists; reflexivity|].
  destruct (find_address_candidates (a :: t)) as [|c cands] eqn:Hc.
  - destruct (parse_address_with_shipengine requests_put self (a :: t)) as [[res|]|e] eqn:Hp.
    + left. destruct (is_valid_address (Some res)); [|eexists; reflexivity].
      destruct (_extract_address_text_from_entities res (a :: t)) as [[|x y]|];
        eexists; reflexivity.
    + left. eexists; reflexivity.
    + right. exists (a :: t), e. split; [apply substring_refl | split; [exact Hp | reflexivity]].
  - destruct (tag_candidates_result requests_put self (c :: cands) (a :: t))
      as [[out Ho]|(c' & e & Hin & Hr & Ho)].
    + left. exists out. exact Ho.
    + right. exists c', e. split; [|split; [exact Hr | exact Ho]].
      apply find_address_candidates_substring. rewrite Hc. exact Hin.
Qed.

(** X1: in mock mode [process_text_for_addresses] returns a text, the same
    whatever the key and whatever the service would answer. *)
Theorem offline_processing_returns (requests_put requests_put' : text -> put_outcome)
    (t : text) (api_key api_key' : option text) :
  exists out,
    process_text_for_addresses requests_put t api_key true = Returns out /\
    process_text_for_addresses requests_put' t api_key' true = Returns out.
Proof.
  unfold process_text_for_addresses, __init__. rewrite !andb_false_r.
  destruct (tag_result requests_put (Parser true) t) as [[out Ho]|(c & e & _ & Hr & _)].
  - exists out. rewrite Ho. split; [reflexivity|].
    assert (E : tag_addresses_in_text requests_put' (Parser true) t
                = tag_addresses_in_text requests_put (Parser true) t).
    { rewrite !tag_unfold.
      rewrite !parse_offline by reflexivity.
      destruct t as [|a t]; [reflexivity|].
      destruct (Str.strip (a :: t)); [reflexivity|].
      destruct (find_address_candidates (a :: t)) as [|c cands]; [reflexivity|].
      generalize (a :: t). generalize (c :: cands). clear.
      induction l as [|c l IH]; intros tagged; [reflexivity|].
      cbn [tag_candidates]. unfold validate, observe, bind.
      rewrite !parse_offline by reflexivity.
      destruct (is_some (_mock_address_validation c)
                && is_valid_address (_mock_address_validation c))%bool;
        [destruct (negb (Str.contains (wrap c) tagged))|].
      all: match goal with
           | |- context [tag_candidates _ _ _ ?x] =>
               specialize (IH x);
               destruct (tag_candidates requests_put' (Parser true) l x);
               destruct (tag_candidates requests_put (Parser true) l x);
               cbn [snd] in *; exact IH
           end. }
    rewrite E, Ho. reflexivity.
  - rewrite parse_offline in Hr by reflexivity. discriminate Hr.
Qed.

(** X2: with a service whose answers have the shape of [put_outcome] (a
    200 answer decodes to a false value or to a response object as the
    interface describes it), [process_text_for_addresses] raises the
    constructor's [ValueError] exactly when no key is given and mock mode is
    not asked for, whatever the text; any other exception that escapes was
    raised by the request for a piece of the text, or by the decoding of
    its answer, and is neither a [RequestException] nor a
    [JSONDecodeError]. *)
Theorem escaping_exceptions (requests_put : text -> put_outcome) (t : text)
    (api_key : option text) (mock_mode : bool) :
  (process_text_for_addresses requests_put t api_key mock_mode = RaisesValueError
   <-> truthy_text api_key = false /\ mock_mode = false) /\
  (forall e,
     process_text_for_addresses requests_put t api_key mock_mode = Raises e ->
     truthy_text api_key = true /\ mock_mode = false /\
     is_request_exception e = false /\ is_json_decode_error e = false /\
     exists c, substring_of c t /\ raised_by_service requests_put c e).
Proof.
  unfold process_text_for_addresses, __init__.
  destruct (truthy_text api_key), mock_mode; cbn [negb andb].
  4: { split; [split; auto | intros e H; discriminate H]. }
  all: split;
    [ split; [|intros [? ?]; discriminate];
      match goal with
      | |- context [tag_addresses_in_text _ ?p _] =>
          destruct (tag_addresses_in_text requests_put p t); discriminate
      end
    | ].
  all: intros e H;
    match type of H with
    | context [tag_addresses_in_text _ ?p _] =>
        destruct (tag_result requests_put p t) as [[out Ho]|(c & e' & Hc & Hr & Ho)];
        rewrite Ho in H; [discriminate H|];
        injection H as ->; apply parse_raise in Hr;
        destruct Hr as (Hm & H1 & H2 & H3); try discriminate Hm
    end.
  repeat split; auto. exists c. auto.
Qed.

Lemma escaping_exceptions_witness :
  process_text_for_addresses broken scenario_a (Some (T "key")) false = Raises OtherError /\
  exists c, substring_of c scenario_a /\ raised_by_service broken c OtherError.
Proof.
  assert (H : process_text_for_addresses broken scenario_a (Some (T "key")) false
              = Raises OtherError) by (vm_compute; reflexivity).
  split; [exact H|].
  apply (proj2 (escaping_exceptions broken scenario_a (Some (T "key")) false) OtherError H).
Defined.

(** ** When the text comes back as it was *)

Lemma tag_candidates_none_valid requests_put self : forall cands tagged,
  (forall c, In c cands -> exists r,
     parse_address_with_shipengine requests_put self c = Return r /\
     is_valid_address r = false) ->
  snd (tag_candidates requests_put self cands tagged) = Return tagged.
Proof.
  induction cands as [|c cands IH]; intros tagged H; [reflexivity|].
  cbn [tag_candidates]. unfold validate, observe, bind.
  destruct (H c (or_introl eq_refl)) as (r & -> & Hv).
  rewrite Hv, andb_false_r.
  specialize (IH tagged (fun c' Hc' => H c' (or_intror Hc'))).
  destruct (tag_candidates requests_put self cands tagged). exact IH.
Qed.

(** X3: when the validator accepts none of the texts it is asked about (the
    candidates of the scanner, or the whole text when there is none),
    [tag_addresses_in_text] returns the text unchanged. *)
Theorem nothing_valid_text_unchanged (requests_put : text -> put_outcome)
    (self : parser) (t : text) :
  (forall c,
     In c (match find_address_candidates t with
           | [] => [t]
           | candidates => candidates
           end) ->
     exists r,
       parse_address_with_shipengine requests_put self c = Return r /\
       is_valid_address r = false) ->
  tag_addresses_in_text requests_put self t = Return t.
Proof.
  intros H. rewrite tag_unfold.
  destruct t as [|a t]; [reflexivity|].
  destruct (Str.strip (a :: t)); [reflexivity|].
  destruct (find_address_candidates (a :: t)) as [|c cands].
  - destruct (H (a :: t) (or_introl eq_refl)) as (r & -> & Hv).
    destruct r as [res|]; [|reflexivity]. rewrite Hv. reflexivity.
  - apply tag_candidates_none_valid. exact H.
Qed.

Lemma nothing_valid_text_unchanged_witness :
  find_address_candidates street_fair =
    [T "1234 about the Main Street";
     T "Call 555 1234 about the Main Street fair today"] /\
  is_valid_address (_mock_address_validation scenario_a) = true /\
  tag_addresses_in_text unreachable offline street_fair = Return street_fair.
Proof.
  assert (C : find_address_candidates street_fair =
    [T "1234 about the Main Street";
     T "Call 555 1234 about the Main Street fair today"])
    by (vm_compute; reflexivity).
  split; [exact C|].
  split; [vm_compute; reflexivity|].
  apply nothing_valid_text_unchanged. rewrite C.
  intros c [<-|[<-|[]]].
  - exists (_mock_address_validation (T "1234 about the Main Street")).
    split; vm_compute; reflexivity.
  - exists (_mock_address_validation
              (T "Call 555 1234 about the Main Street fair today")).
    split; vm_compute; reflexivity.
Defined.

(** The offline scorer's result names no entities. *)
Lemma mock_entities t res :
  _mock_address_validation t = Some res -> entities res = None.
Proof.
  unfold _mock_address_validation.
  destruct ((has_number t && has_street t) || has_po_box t)%bool; [|discriminate].
  destruct (mock_city_state_zip t) as [[city state] postal_code].
  intros H. injection H as <-. reflexivity.
Qed.

(** X4: in mock mode a text in which the scanner finds no candidate is
    returned unchanged, even when the offline scorer accepts the whole
    text: its result names no entities to recover a span from. *)
Theorem offline_full_text_never_tags (requests_put : text -> put_outcome) (t : text) :
  find_address_candidates t = [] ->
  tag_addresses_in_text requests_put offline t = Return t.
Proof.
  intros Hc. rewrite tag_unfold, Hc, parse_offline by reflexivity.
  destruct t as [|a t]; [reflexivity|].
  destruct (Str.strip (a :: t)); [reflexivity|].
  destruct (_mock_address_validation (a :: t)) as [res|] eqn:Hm; [|reflexivity].
  destruct (is_valid_address (Some res)); [|reflexivity].
  unfold _extract_address_text_from_entities.
  rewrite (mock_entities _ Hm). reflexivity.
Qed.

Lemma offline_full_text_never_tags_witness :
  is_valid_address (_mock_address_validation short_address) = true /\
  find_address_candidates short_address = [] /\
  tag_addresses_in_text unreachable offline short_address = Return short_address.
Proof.
  assert (H : find_address_candidates short_address = []) by (vm_compute; reflexivity).
  split; [vm_compute; reflexivity|].
  split; [exact H | exact (offline_full_text_never_tags unreachable short_address H)].
Defined.

Lemma no_digit_candidates (t : text) :
  no_digit t -> find_address_candidates t = [].
Proof.
  intros Hd. unfold find_address_candidates, pooled_candidates.
  assert (H1 : flat_map (candidates_of_pattern t) address_patterns = []).
  { apply flat_map_nil. intros p Hp. unfold candidates_of_pattern.
    rewrite needs_digit_finditer; [reflexivity | | exact Hd].
    apply address_patterns_need_digit. exact Hp. }
  assert (H2 : candidates_of_sentences t = []).
  { unfold candidates_of_sentences. apply flat_map_nil. intros s Hs.
    rewrite needs_digit_search; [rewrite andb_false_r; reflexivity | reflexivity |].
    eapply no_digit_substring; [apply strip_substring|].
    eapply no_digit_substring; [|exact Hd]. eapply split_substring. exact Hs. }
  rewrite H1, H2. reflexivity.
Qed.

(** X5: the offline scorer rejects every text without a decimal digit, and
    in mock mode such a text is returned unchanged. *)
Theorem offline_no_digit_unchanged (requests_put : text -> put_outcome) (t : text) :
  Forall (fun c => Char.is_digit c = false) t ->
  _mock_address_validation t = None /\
  tag_addresses_in_text requests_put offline t = Return t.
Proof.
  intros Hd.
  assert (Hm : _mock_address_validation t = None).
  { unfold _mock_address_validation, has_number, has_po_box.
    rewrite (@needs_digit_search false re_has_number t), (@needs_digit_search true re_has_po_box t);
      try reflexivity; exact Hd. }
  split; [exact Hm|].
  rewrite tag_unfold, (no_digit_candidates Hd), parse_offline, Hm by reflexivity.
  destruct t as [|a t]; [reflexivity|].
  destruct (Str.strip (a :: t)); reflexivity.
Qed.

Lemma offline_no_digit_unchanged_witness :
  _mock_address_validation (T "Meet me on Main Street, Anytown. Bring the keys!") = None /\
  tag_addresses_in_text unreachable offline
    (T "Meet me on Main Street, Anytown. Bring the keys!")
  = Return (T "Meet me on Main Street, Anytown. Bring the keys!").
Proof.
  apply offline_no_digit_unchanged. repeat constructor.
Defined.

(** ** The calls of a tagging pass *)

Lemma tag_candidates_calls requests_put self : forall cands tagged tr out,
  tag_candidates requests_put self cands tagged = (tr, Return out) ->
  tr = map Validated cands.
Proof.
  induction cands as [|c cands IH]; intros tagged tr out H.
  - injection H as <- _. reflexivity.
  - cbn [tag_candidates] in H. unfold validate, observe, bind in H.
    destruct (parse_address_with_shipengine requests_put self c) as [r|e]; [|discriminate H].
    destruct (is_some r && is_valid_address r)%bool;
      [destruct (negb (Str.contains (wrap c) tagged))|].
    all: match type of H with
         | context [tag_candidates _ _ _ ?x] =>
             specialize (IH x);
             destruct (tag_candidates requests_put self cands x) as [tr' [out'|e']];
             [|discriminate H];
             injection H as <- _; rewrite (IH tr' out' eq_refl); reflexivity
         end.
Qed.

(** X6: a tagging pass of a text that is not blank, when it returns, has
    scanned the text once and then asked the validator once about every
    candidate, in the scanner's order, wrapped or not; without candidates it
    has asked once, about the whole text. *)
Theorem calls_of_a_pass (requests_put : text -> put_outcome) (self : parser)
    (t : text) (tr : list event) (out : text) :
  Str.strip t <> [] ->
  tag_addresses_in_text_M requests_put self t = (tr, Return out) ->
  tr = Scanned t ::
       map Validated
         match find_address_candidates t with
         | [] => [t]
         | candidates => candidates
         end.
Proof.
  intros Hb. unfold tag_addresses_in_text_M.
  destruct t as [|a t]; [contradiction Hb; reflexivity|].
  destruct (Str.strip (a :: t)); [contradiction Hb; reflexivity|].
  unfold validate, observe, bind.
  destruct (find_address_candidates (a :: t)) as [|c cands].
  - destruct (parse_address_with_shipengine requests_put self (a :: t)) as [[res|]|e];
      [| |discriminate].
    + destruct (is_valid_address (Some res));
        [destruct (_extract_address_text_from_entities res (a :: t)) as [[|x y]|]|];
        intros H; injection H as <- _; reflexivity.
    + intros H; injection H as <- _; reflexivity.
  - destruct (tag_candidates requests_put self (c :: cands) (a :: t)) as [tr' [out'|e']] eqn:E;
      [|discriminate].
    intros H. injection H as <- _.
    rewrite (tag_candidates_calls _ _ _ _ E). reflexivity.
Qed.

Lemma calls_of_a_pass_witness :
  fst (tag_addresses_in_text_M unreachable offline two_addresses)
  = [Scanned two_addresses;
     Validated (T "89501 or 123 Main Street, Anytown, CA 90210");
     Validated (T "P.O. Box 789, Reno, NV 89501");
     Validated (T "89501 or 123 Main Street");
     Validated (T "Box 789, Reno, NV 89501 or 123 Main Street, Anytown, CA 90210")].
Proof.
  destruct (tag_addresses_in_text_M unreachable offline two_addresses) as [tr [out|e]] eqn:E;
    [|vm_compute in E; discriminate E].
  cbn [fst].
  rewrite (@calls_of_a_pass unreachable offline two_addresses tr out); [|discriminate|exact E].
  vm_compute. reflexivity.
Defined.

(** ** The tagger only adds to the text *)

Lemma subseq_refl {A : Type} (l : list A) : subseq l l.
Proof. induction l; [constructor | apply subseq_keep; assumption]. Qed.

Lemma subseq_nil_l {A : Type} (l : list A) : subseq [] l.
Proof. induction l; constructor; assumption. Qed.

Lemma subseq_app {A : Type} (a1 a2 b1 b2 : list A) :
  subseq a1 a2 -> subseq b1 b2 -> subseq (a1 ++ b1) (a2 ++ b2).
Proof.
  induction 1; intros Hb; simpl;
    [exact Hb | apply subseq_skip; auto | apply subseq_keep; auto].
Qed.

Lemma subseq_app_l {A : Type} (p a b : list A) : subseq a b -> subseq a (p ++ b).
Proof. intros H. induction p; [exact H | apply subseq_skip; assumption]. Qed.

Lemma subseq_trans {A : Type} (l1 l2 l3 : list A) :
  subseq l1 l2 -> subseq l2 l3 -> subseq l1 l3.
Proof.
  intros H12 H23. revert l1 H12.
  induction H23 as [|x l2 l3 H IH|x l2 l3 H IH]; intros l1 H12.
  - exact H12.
  - constructor. apply IH. exact H12.
  - inversion H12; subst; [apply subseq_skip | apply subseq_keep]; apply IH; assumption.
Qed.

Lemma starts_with_app : forall p s, Str.starts_with p s = true -> exists rest, s = p ++ rest.
Proof.
  induction p as [|x p IH]; intros s H; [exists s; reflexivity|].
  destruct s as [|y s]; [discriminate|].
  cbn [Str.starts_with] in H. apply andb_true_iff in H. destruct H as [Hxy Hp].
  apply Ascii.eqb_eq in Hxy. subst y.
  destruct (IH s Hp) as [rest ->]. exists rest. reflexivity.
Qed.

Lemma replace_loop_keeps o old new : subseq (o :: old) new ->
  forall s skip, subseq (skipn skip s) (Str.replace_loop (o :: old) new skip s).
Proof.
  intros Hon. induction s as [|c tl IH]; intros skip.
  - destruct skip; constructor.
  - destruct skip as [|n]; cbn [Str.replace_loop skipn].
    + destruct (Str.starts_with (o :: old) (c :: tl)) eqn:E.
      * destruct (starts_with_app _ _ E) as [rest Hr].
        cbn [app] in Hr. injection Hr as -> ->.
        cbn [List.length pred].
        specialize (IH (List.length old)).
        rewrite skipn_app, skipn_all, Nat.sub_diag in IH. cbn [skipn app] in IH.
        change (o :: old ++ rest) with ((o :: old) ++ rest).
        apply subseq_app; [exact Hon | exact IH].
      * apply subseq_keep. apply (IH 0).
    + apply IH.
Qed.

Lemma replace_keeps old new s : subseq old new -> subseq s (Str.replace old new s).
Proof.
  intros Hon. unfold Str.replace. destruct old as [|o old].
  - apply subseq_app_l.
    induction s as [|c s IH]; [constructor|].
    cbn [flat_map app]. apply subseq_keep. apply subseq_app_l. exact IH.
  - apply (replace_loop_keeps Hon s 0).
Qed.

Lemma wrap_keeps c : subseq c (wrap c).
Proof.
  unfold wrap. apply subseq_app_l.
  rewrite <- (app_nil_r c) at 1.
  apply subseq_app; [apply subseq_refl | apply subseq_nil_l].
Qed.

Lemma tag_candidates_keeps requests_put self : forall cands tagged out,
  snd (tag_candidates requests_put self cands tagged) = Return out -> subseq tagged out.
Proof.
  induction cands as [|c cands IH]; intros tagged out H.
  - injection H as <-. apply subseq_refl.
  - cbn [tag_candidates] in H. unfold validate, observe, bind in H.
    destruct (parse_address_with_shipengine requests_put self c) as [r|e]; [|discriminate H].
    destruct (is_some r && is_valid_address r)%bool;
      [destruct (negb (Str.contains (wrap c) tagged))|].
    all: match type of H with
         | context [tag_candidates _ _ _ ?x] =>
             specialize (IH x out);
             destruct (tag_candidates requests_put self cands x) as [tr' res'];
             cbn [snd] in *; specialize (IH H)
         end.
    + eapply subseq_trans; [|exact IH]. apply replace_keeps. apply wrap_keeps.
    + exact IH.
    + exact IH.
Qed.

(** X7: [tag_addresses_in_text] only adds to the text: what it returns is
    the input with characters put in, none taken out or changed. *)
Theorem tagging_keeps_the_text (requests_put : text -> put_outcome) (self : parser)
    (t out : text) :
  tag_addresses_in_text requests_put self t = Return out -> subseq t out.
Proof.
  rewrite tag_unfold.
  destruct t as [|a t]; [intros H; injection H as <-; constructor|].
  destruct (Str.strip (a :: t)); [intros H; injection H as <-; apply subseq_refl|].
  destruct (find_address_candidates (a :: t)) as [|c cands].
  - destruct (parse_address_with_shipengine requests_put self (a :: t)) as [[res|]|e];
      [| |discriminate].
    + destruct (is_valid_address (Some res));
        [destruct (_extract_address_text_from_entities res (a :: t)) as [[|x y]|]|];
        intros H;
        try (assert (E : out = a :: t) by congruence; rewrite E; apply subseq_refl).
      assert (E : out = Str.replace (x :: y) (wrap (x :: y)) (a :: t)) by congruence.
      rewrite E. apply replace_keeps. apply wrap_keeps.
    + intros H; injection H as <-; apply subseq_refl.
  - apply tag_candidates_keeps.
Qed.

Lemma tagging_keeps_the_text_witness :
  subseq visit (T "Visit <address>123 Main Street, Anytown, CA 90210</address> today").
Proof.
  apply (@tagging_keeps_the_text unreachable offline visit). vm_compute. reflexivity.
Defined.

(** ** Every candidate has a digit *)

Lemma has_digit_app a b : has_digit (a ++ b) = (has_digit a || has_digit b)%bool.
Proof. apply existsb_app. Qed.

Lemma has_digit_rev a : has_digit (rev a) = has_digit a.
Proof.
  induction a as [|c a IH]; [reflexivity|].
  cbn [rev]. rewrite has_digit_app, IH. cbn [has_digit existsb].
  rewrite orb_false_r. apply orb_comm.
Qed.

Lemma took_digit_after st st1 st2 :
  extends st st1 -> took_digit st1 st2 -> took_digit st st2.
Proof.
  intros (x & Ha & Hr) (y & Ha' & Hr' & Hd). exists (y ++ x). repeat split.
  - rewrite Ha', Ha. apply app_assoc.
  - rewrite Hr, Hr', rev_app_distr. apply app_assoc.
  - rewrite has_digit_app, Hd. reflexivity.
Qed.

Lemma took_digit_before st st1 st2 :
  took_digit st st1 -> extends st1 st2 -> took_digit st st2.
Proof.
  intros (x & Ha & Hr & Hd) (y & Ha' & Hr'). exists (y ++ x). repeat split.
  - rewrite Ha', Ha. apply app_assoc.
  - rewrite Hr, Hr', rev_app_distr. apply app_assoc.
  - rewrite has_digit_app, Hd. apply orb_true_r.
Qed.

Lemma digit_set_match ic cs c :
  is_digit_set cs = true -> cset_match ic cs c = true -> Char.is_digit c = true.
Proof.
  destruct cs as [[] [|[] [|]]]; try discriminate. intros _.
  unfold cset_match. simpl. rewrite is_digit_fold, orb_false_r. auto.
Qed.

Lemma took_digit_advance ic cs c tl st st' :
  is_digit_set cs = true -> cset_match ic cs c = true -> ms_rest st = c :: tl ->
  extends (advance c tl st) st' -> took_digit st st'.
Proof.
  intros Hs Hc Hr He. eapply took_digit_before; [|exact He].
  exists [c]. repeat split; [exact Hr|].
  cbn. rewrite (digit_set_match ic cs c Hs Hc). reflexivity.
Qed.

(** A match of a regex that needs a digit has consumed one. *)
Lemma needs_digit_consumes ic : forall r, needs_digit r = true ->
  forall st k res, rmatch ic r st k = Some res ->
  exists st', took_digit st st' /\ k st' = Some res.
Proof.
  induction r as [|p|cs|r1 IH1 r2 IH2|r1 IH1 r2 IH2|g lo hi cs|r1 IH1|n r1 IH1|n| |];
    simpl; intros Hn st k res H; try discriminate.
  - destruct (ms_rest st) as [|c tl] eqn:Hr; [discriminate|].
    destruct (cset_match ic cs c) eqn:Hc; [|discriminate].
    exists (advance c tl st). split; [|exact H].
    eapply took_digit_advance; try eassumption. apply extends_refl.
  - apply orb_true_iff in Hn. destruct Hn as [Hn|Hn].
    + destruct (IH1 Hn _ _ _ H) as (st1 & Hd & H1).
      destruct (@rmatch_sound ic _ _ _ _ H1) as (st2 & He & H2).
      exists st2. split; [eapply took_digit_before; eassumption | exact H2].
    + destruct (@rmatch_sound ic _ _ _ _ H) as (st1 & He & H1).
      destruct (IH2 Hn _ _ _ H1) as (st2 & Hd & H2).
      exists st2. split; [eapply took_digit_after; eassumption | exact H2].
  - apply andb_true_iff in Hn. destruct Hn as [Hn1 Hn2].
    destruct (rmatch ic r1 st k) as [x|] eqn:E.
    + injection H as <-. apply (IH1 Hn1 _ _ _ E).
    + apply (IH2 Hn2 _ _ _ H).
  - destruct lo as [|lo]; [discriminate|].
    destruct g; destruct (ms_rest st) as [|c tl] eqn:Hr; simpl in H; try discriminate.
    + destruct (more_allowed hi && cset_match ic cs c)%bool eqn:Hc; [|discriminate].
      apply andb_true_iff in Hc. destruct Hc as [_ Hc].
      destruct (rep_greedy ic cs lo (dec_hi hi) tl (advance c tl st) k) as [x|] eqn:E;
        [|discriminate].
      injection H as <-.
      destruct (@rep_greedy_sound ic cs _ _ _ _ _ _ eq_refl E) as (st' & He & Hk).
      exists st'. split; [|exact Hk]. eapply took_digit_advance; eassumption.
    + destruct (more_allowed hi && cset_match ic cs c)%bool eqn:Hc; [|discriminate].
      apply andb_true_iff in Hc. destruct Hc as [_ Hc].
      destruct (@rep_lazy_sound ic cs _ _ _ _ _ _ eq_refl H) as (st' & He & Hk).
      exists st'. split; [|exact Hk]. eapply took_digit_advance; eassumption.
  - destruct (IH1 Hn _ _ _ H) as (st' & (x & Ha & Hr & Hd) & Hk).
    eexists. split; [|exact Hk].
    exists x. cbn [ms_acc ms_rest] in *. repeat split; [|exact Hr|exact Hd].
    rewrite Ha, app_nil_r. reflexivity.
Qed.

Lemma needs_digit_match ic r prev rs st :
  needs_digit r = true -> try_match ic r prev rs = Some st ->
  has_digit (group0 st) = true.
Proof.
  intros Hn H. unfold try_match in H.
  destruct (@needs_digit_consumes ic r Hn _ _ _ H) as (st' & (x & Ha & _ & Hd) & Hk).
  injection Hk as <-. unfold group0. rewrite Ha. cbn [ms_acc].
  rewrite app_nil_r, has_digit_rev. exact Hd.
Qed.

Lemma has_digit_substring (c t : text) :
  substring_of c t -> has_digit c = true -> has_digit t = true.
Proof.
  intros (pre & post & ->) H. rewrite !has_digit_app, H. apply orb_true_r.
Qed.

Lemma needs_digit_found ic r : forall rs prev st,
  needs_digit r = true -> search_from ic r prev rs = Some st -> has_digit rs = true.
Proof.
  induction rs as [|c tl IH]; intros prev st Hn H; cbn [search_from] in H.
  - destruct (try_match ic r prev []) as [m|] eqn:E; [|discriminate].
    pose proof (@needs_digit_match _ _ _ _ _ Hn E) as Hd.
    apply try_match_prefix in E. rewrite E, has_digit_app, Hd. reflexivity.
  - destruct (try_match ic r prev (c :: tl)) as [m|] eqn:E.
    + pose proof (@needs_digit_match _ _ _ _ _ Hn E) as Hd.
      apply try_match_prefix in E. rewrite E, has_digit_app, Hd. reflexivity.
    + change (has_digit (c :: tl)) with (Char.is_digit c || has_digit tl)%bool.
      rewrite (IH _ _ Hn H). apply orb_true_r.
Qed.

(** Blanks are not digits. *)
Lemma space_not_digit c : Char.is_space c = true -> Char.is_digit c = false.
Proof. destruct c as [[] [] [] [] [] [] [] []]; intros H; try discriminate H; reflexivity. Qed.

Lemma lstrip_keeps_digit s : has_digit s = true -> has_digit (Str.lstrip s) = true.
Proof.
  induction s as [|c s IH]; intros H; [discriminate|].
  cbn [Str.lstrip]. destruct (Char.is_space c) eqn:E; [|exact H].
  change (has_digit (c :: s)) with (Char.is_digit c || has_digit s)%bool in H.
  rewrite (space_not_digit c E) in H. apply IH. exact H.
Qed.

Lemma strip_keeps_digit s : has_digit s = true -> has_digit (Str.strip s) = true.
Proof.
  intros H. unfold Str.strip, Str.rstrip. rewrite has_digit_rev.
  apply lstrip_keeps_digit. rewrite has_digit_rev. apply lstrip_keeps_digit. exact H.
Qed.

(** What the pattern of line 209 matches holds no digit. *)
Lemma space_run_blank : forall tl st res,
  ms_rest st = tl ->
  rep_greedy false (CS false [CSpace]) 0 None tl st at_end = Some res ->
  has_digit tl = false.
Proof.
  induction tl as [|c tl IH]; intros st res Hrs H; [reflexivity|]. simpl in H.
  destruct (cset_match false (CS false [CSpace]) c) eqn:Hc.
  - assert (Hd : Char.is_digit c = false).
    { apply space_not_digit. unfold cset_match in Hc. simpl in Hc.
      rewrite orb_false_r in Hc. exact Hc. }
    change (has_digit (c :: tl)) with (Char.is_digit c || has_digit tl)%bool.
    rewrite Hd. cbn [orb].
    destruct (rep_greedy false (CS false [CSpace]) 0 None tl (advance c tl st) at_end)
      as [r|] eqn:E.
    + eapply IH; [|exact E]. reflexivity.
    + unfold at_end in H. simpl in H. rewrite Hrs in H.
      destruct tl as [|d tl]; [reflexivity | discriminate].
  - unfold at_end in H. simpl in H. rewrite Hrs in H.
    destruct tl as [|d tl]; [|discriminate].
    destruct (Ascii.eqb c newline) eqn:En; [|discriminate].
    apply Ascii.eqb_eq in En. subst c. discriminate Hc.
Qed.

Lemma trailing_match_blank prev rs st :
  try_match false re_trailing_punct prev rs = Some st -> has_digit rs = false.
Proof.
  unfold try_match, re_trailing_punct. simpl.
  destruct rs as [|c tl]; [discriminate|].
  destruct (cset_match false _ c) eqn:Hc; [|discriminate].
  intros H. change (has_digit (c :: tl)) with (Char.is_digit c || has_digit tl)%bool.
  assert (Hb : has_digit tl = false) by (eapply space_run_blank; [|exact H]; reflexivity).
  rewrite Hb, orb_false_r.
  unfold cset_match in Hc. simpl in Hc. rewrite orb_false_r in Hc.
  apply orb_true_iff in Hc. destruct Hc as [Hc|Hc]; apply Ascii.eqb_eq in Hc; subst c;
    reflexivity.
Qed.

Lemma sub_trailing_keeps_digit_from : forall rs prev,
  has_digit rs = true ->
  has_digit (sub_tokens (fun _ => []) (scan_loop false re_trailing_punct 0 prev rs)) = true.
Proof.
  induction rs as [|c tl IH]; intros prev H; [discriminate|].
  simpl scan_loop.
  destruct (try_match false re_trailing_punct prev (c :: tl)) as [st|] eqn:E.
  - rewrite (trailing_match_blank _ _ E) in H. discriminate.
  - cbn [sub_tokens].
    change (has_digit (c :: tl)) with (Char.is_digit c || has_digit tl)%bool in H.
    match goal with
    | |- has_digit (c :: ?u) = true =>
        change (has_digit (c :: u)) with (Char.is_digit c || has_digit u)%bool
    end.
    destruct (Char.is_digit c); [reflexivity|]. apply IH. exact H.
Qed.

Lemma candidates_of_pattern_digit t p c :
  needs_digit p = true -> In c (candidates_of_pattern t p) -> has_digit c = true.
Proof.
  unfold candidates_of_pattern. intros Hn H. apply in_flat_map in H.
  destruct H as (m & Hm & Hc).
  destruct (15 <? _); [|contradiction]. destruct Hc as [<-|[]].
  apply sub_trailing_keeps_digit_from. apply strip_keeps_digit.
  revert Hm. unfold finditer, scan. generalize (@None ascii). generalize 0.
  induction t as [|a t IH]; intros skip prev Hm.
  - destruct skip; cbn [scan_loop] in Hm; [|contradiction].
    destruct (try_match scan_flags p prev []) as [st|] eqn:E; [|contradiction].
    destruct (ms_acc st); cbn [matches_of] in Hm;
      (destruct Hm as [<-|[]]; eapply needs_digit_match; eassumption).
  - destruct skip; cbn [scan_loop] in Hm; [|apply (IH _ _ Hm)].
    destruct (try_match scan_flags p prev (a :: t)) as [st|] eqn:E;
      [|apply (IH _ _ Hm)].
    destruct (ms_acc st) as [|x acc]; cbn [matches_of] in Hm.
    + destruct Hm as [<-|Hm]; [eapply needs_digit_match; eassumption|].
      destruct (try_match_nonempty scan_flags p prev (a :: t)) as [st2|] eqn:E2;
        cbn [matches_of] in Hm; [|apply (IH _ _ Hm)].
      destruct Hm as [<-|Hm]; [|apply (IH _ _ Hm)].
      unfold try_match_nonempty in E2.
      destruct (@needs_digit_consumes scan_flags p Hn _ _ _ E2) as (st' & (y & Ha & _ & Hd) & Hk).
      assert (Hg : has_digit (group0 st') = true).
      { unfold group0. rewrite Ha. cbn [ms_acc]. rewrite app_nil_r, has_digit_rev. exact Hd. }
      destruct (ms_acc st'); [discriminate|]. injection Hk as <-. exact Hg.
    + destruct Hm as [<-|Hm]; [eapply needs_digit_match; eassumption | apply (IH _ _ Hm)].
Qed.

Lemma candidates_of_sentences_digit t c :
  In c (candidates_of_sentences t) -> has_digit c = true.
Proof.
  unfold candidates_of_sentences. intros H. apply in_flat_map in H.
  destruct H as (s & Hs & Hc).
  destruct (is_some (Re.search false re_number_space (Str.strip s))) eqn:E.
  2: { rewrite andb_false_r in Hc. contradiction. }
  destruct (_ && _)%bool; [|contradiction]. destruct Hc as [<-|[]].
  unfold Re.search in E.
  destruct (search_from false re_number_space None (Str.strip s)) as [st|] eqn:F;
    [|discriminate].
  eapply needs_digit_found; [|exact F]. reflexivity.
Qed.

(** X8: every candidate [find_address_candidates] returns has a decimal
    digit in it. *)
Theorem candidates_have_a_digit (t : text) :
  Forall (fun c => has_digit c = true) (find_address_candidates t).
Proof.
  apply Forall_forall. intros c Hc.
  unfold find_address_candidates in Hc. apply unique_loop_In in Hc.
  destruct Hc as (Hc & _). unfold pooled_candidates in Hc.
  apply in_app_or in Hc. destruct Hc as [Hc|Hc].
  - apply in_flat_map in Hc. destruct Hc as (p & Hp & Hc).
    eapply candidates_of_pattern_digit; [|exact Hc].
    apply address_patterns_need_digit. exact Hp.
  - eapply candidates_of_sentences_digit. exact Hc.
Qed.

(** ** Patterns that differ in their groups only *)

Section Flatten.

Variable ic : bool.

Lemma same_position_advance c tl s1 s2 :
  same_position (advance c tl s1) (advance c tl s2).
Proof. split; reflexivity. Qed.

Lemma is_some_or {A : Type} (a b : option A) :
  is_some (match a with Some x => Some x | None => b end) = (is_some a || is_some b)%bool.
Proof. destruct a; reflexivity. Qed.

Lemma rep_greedy_alike cs : forall rs lo hi s1 s2 k1 k2,
  alike k1 k2 -> same_position s1 s2 ->
  is_some (rep_greedy ic cs lo hi rs s1 k1) = is_some (rep_greedy ic cs lo hi rs s2 k2).
Proof.
  induction rs as [|c tl IH]; intros lo hi s1 s2 k1 k2 Hk Hs.
  - simpl. destruct lo; [apply Hk; exact Hs | reflexivity].
  - simpl. destruct (more_allowed hi && cset_match ic cs c)%bool.
    + rewrite !is_some_or.
      rewrite (IH (pred lo) (dec_hi hi) (advance c tl s1) (advance c tl s2) k1 k2 Hk
                  (same_position_advance c tl s1 s2)).
      f_equal. destruct lo; [apply Hk; exact Hs | reflexivity].
    + destruct lo; [apply Hk; exact Hs | reflexivity].
Qed.

Lemma rep_lazy_alike cs : forall rs lo hi s1 s2 k1 k2,
  alike k1 k2 -> same_position s1 s2 ->
  is_some (rep_lazy ic cs lo hi rs s1 k1) = is_some (rep_lazy ic cs lo hi rs s2 k2).
Proof.
  induction rs as [|c tl IH]; intros lo hi s1 s2 k1 k2 Hk Hs.
  - simpl. destruct lo; [|reflexivity].
    pose proof (Hk s1 s2 Hs) as H. destruct (k1 s1), (k2 s2); try discriminate H; reflexivity.
  - simpl. rewrite !is_some_or. f_equal.
    + destruct lo; [apply Hk; exact Hs | reflexivity].
    + destruct (more_allowed hi && cset_match ic cs c)%bool; [|reflexivity].
      apply IH; [exact Hk | apply same_position_advance].
Qed.

(** The flattened pattern matches where the pattern itself does. *)
Lemma flatten_alike : forall r t s1 s2 k1 k2,
  backref_free r = true ->
  same_position s1 s2 ->
  alike (fun s => rmatch ic t s k1) k2 ->
  is_some (rmatch ic (flatten r t) s1 k1) = is_some (rmatch ic r s2 k2).
Proof.
  induction r as [|p|cs|a IHa b IHb|a IHa b IHb|g lo hi cs|a IHa|n a IHa|n| |];
    intros t s1 s2 k1 k2 Hb Hs Hk; cbn [flatten backref_free] in *.
  - (* REps *) apply Hk. exact Hs.
  - (* RChar *) cbn [rmatch]. destruct Hs as [Hp Hr]. rewrite Hr.
    destruct (ms_rest s2) as [|c tl]; [reflexivity|].
    destruct (lit_match ic p c); [|reflexivity].
    apply Hk. apply same_position_advance.
  - (* RSet *) cbn [rmatch]. destruct Hs as [Hp Hr]. rewrite Hr.
    destruct (ms_rest s2) as [|c tl]; [reflexivity|].
    destruct (cset_match ic cs c); [|reflexivity].
    apply Hk. apply same_position_advance.
  - (* RSeq *) apply andb_true_iff in Hb. destruct Hb as [Ha Hb].
    cbn [rmatch]. apply IHa; [exact Ha | exact Hs |].
    intros u1 u2 Hu. apply IHb; [exact Hb | exact Hu | exact Hk].
  - (* RAlt *) apply andb_true_iff in Hb. destruct Hb as [Ha Hb].
    cbn [rmatch]. rewrite !is_some_or. f_equal.
    + apply IHa; [exact Ha | exact Hs | exact Hk].
    + apply IHb; [exact Hb | exact Hs | exact Hk].
  - (* RRep *) cbn [rmatch]. destruct Hs as [Hp Hr]. rewrite Hr.
    destruct g; [apply rep_greedy_alike | apply rep_lazy_alike];
      try exact Hk; split; assumption.
  - (* ROpt *) cbn [rmatch]. rewrite !is_some_or. f_equal.
    + apply IHa; [exact Hb | exact Hs | exact Hk].
    + apply Hk. exact Hs.
  - (* RGroup *) cbn [rmatch]. apply IHa; [exact Hb | exact Hs |].
    intros u1 u2 Hu. apply Hk. exact Hu.
  - discriminate Hb.
  - (* RWordB *) cbn [rmatch]. unfold at_boundary.
    destruct Hs as [Hp Hr]. rewrite Hp, Hr.
    destruct (xorb _ _); [|reflexivity]. apply Hk. split; assumption.
  - (* REnd *) cbn [rmatch]. rewrite (proj2 Hs).
    destruct (ms_rest s2) as [|c [|d tl]] eqn:E; try reflexivity.
    + apply Hk. exact Hs.
    + destruct (Ascii.eqb c newline); [|reflexivity]. apply Hk. exact Hs.
Qed.

Lemma try_match_flatten r prev rs :
  backref_free r = true ->
  is_some (try_match ic r prev rs)
  = is_some (rmatch ic (flatten r REps) (MS prev [] rs []) (fun st => Some st)).
Proof.
  intros Hb. symmetry. unfold try_match.
  apply flatten_alike; [exact Hb | split; reflexivity |].
  intros s1 s2 Hs. reflexivity.
Qed.

(** Two patterns with one flattened form are found in the same texts. *)
Lemma search_same_flatten r1 r2 t :
  backref_free r1 = true -> backref_free r2 = true ->
  flatten r1 REps = flatten r2 REps ->
  is_some (search ic r1 t) = is_some (search ic r2 t).
Proof.
  intros H1 H2 E. unfold search. generalize (@None ascii).
  induction t as [|c t IH]; intros prev.
  - cbn [search_from].
    pose proof (try_match_flatten r1 prev [] H1) as F1.
    pose proof (try_match_flatten r2 prev [] H2) as F2.
    rewrite E, <- F2 in F1.
    destruct (try_match ic r1 prev []), (try_match ic r2 prev []);
      try discriminate F1; reflexivity.
  - cbn [search_from].
    pose proof (try_match_flatten r1 prev (c :: t) H1) as F1.
    pose proof (try_match_flatten r2 prev (c :: t) H2) as F2.
    rewrite E, <- F2 in F1.
    destruct (try_match ic r1 prev (c :: t)), (try_match ic r2 prev (c :: t));
      try discriminate F1; try reflexivity.
    apply IH.
Qed.

End Flatten.

(** ** What the offline scorer needs to accept a text *)

Lemma csz_same_flatten :
  backref_free re_csz = true /\ backref_free re_has_city_state_zip = true /\
  flatten re_csz REps = flatten re_has_city_state_zip REps.
Proof. repeat split; reflexivity. Qed.

Lemma mock_score_with_csz (num street po : bool) :
  ((num && street) || po)%bool = true ->
  PrimFloat.leb 0.8%float (mock_score num street true po) = true.
Proof.
  destruct num, street, po; simpl; intros H; try discriminate H; reflexivity.
Qed.

(** X9: a text the offline scorer's result is valid for has the "City, ST
    ZIP" signal and an address line, and its score is at least 0.8: in mock
    mode no text without "City, ST 12345" in it is ever accepted. *)
Theorem offline_valid_has_city_state_zip (t : text) :
  is_valid_address (_mock_address_validation t) = true ->
  has_city_state_zip t = true /\
  is_some (Re.search true re_addr_line t) = true /\
  exists res f,
    _mock_address_validation t = Some res /\ score res = Some (NFloat f) /\
    PrimFloat.leb 0.8%float f = true.
Proof.
  rewrite is_valid_address_unfold. unfold _mock_address_validation.
  destruct ((has_number t && has_street t) || has_po_box t)%bool eqn:Hcond;
    [|discriminate].
  unfold mock_city_state_zip, mock_address_line1.
  assert (Hsame : is_some (Re.search false re_csz t) = has_city_state_zip t).
  { destruct csz_same_flatten as (H1 & H2 & E). apply search_same_flatten; assumption. }
  destruct (Re.search false re_csz t) as [m|] eqn:Hcsz.
  2: { cbn. rewrite andb_false_r. discriminate. }
  cbn [is_some] in Hsame.
  destruct (Re.search true re_addr_line t) as [m'|] eqn:Haddr.
  2: { cbn. discriminate. }
  intros _. split; [symmetry; exact Hsame|]. split; [reflexivity|].
  eexists _, _. split; [reflexivity|]. split; [reflexivity|].
  rewrite <- Hsame. apply mock_score_with_csz. exact Hcond.
Qed.

Lemma offline_valid_has_city_state_zip_witness :
  has_city_state_zip scenario_a = true /\
  is_some (Re.search true re_addr_line scenario_a) = true /\
  exists res f,
    _mock_address_validation scenario_a = Some res /\ score res = Some (NFloat f) /\
    PrimFloat.leb 0.8%float f = true.
Proof.
  apply offline_valid_has_city_state_zip. vm_compute. reflexivity.
Defined.

(** ** The span recovered from the entities *)

Lemma slice_substring a b (s : text) : substring_of (Str.slice a b s) s.
Proof.
  unfold Str.slice.
  set (n := Z.to_nat (Str.clamp (Z.of_nat (List.length s)) a)).
  set (m := Z.to_nat (_ - _)).
  exists (firstn n s), (skipn m (skipn n s)).
  rewrite firstn_skipn, firstn_skipn. reflexivity.
Qed.

(** X10: a span [_extract_address_text_from_entities] returns is a piece of
    the original text, longer than 10 characters and with a digit in it;
    without entities nothing is returned. *)
Theorem extracted_span (res : response) (original_text address_text : text) :
  _extract_address_text_from_entities res original_text = Some address_text ->
  substring_of address_text original_text /\
  10 < List.length address_text /\
  existsb Char.is_py_digit address_text = true /\
  exists es e, entities res = Some es /\ In e es /\ entity_span e <> [].
Proof.
  unfold _extract_address_text_from_entities.
  destruct (entities res) as [[|e0 es]|]; cbn [truthy_list negb]; try discriminate.
  destruct (flat_map entity_span (e0 :: es)) as [|[s0 n0] more] eqn:Hs; [discriminate|].
  match goal with
  | |- (if (?a && ?b)%bool then _ else _) = _ -> _ =>
      destruct a eqn:Hlen; [|discriminate]; destruct b eqn:Hdig; [|discriminate]
  end.
  cbn [andb]. intros H. injection H as <-.
  split; [|split; [|split]].
  - eapply substring_trans; [apply strip_substring | apply slice_substring].
  - apply Nat.ltb_lt. exact Hlen.
  - exact Hdig.
  - exists (e0 :: es).
    assert (Hin : In (s0, n0) (flat_map entity_span (e0 :: es))).
    { rewrite Hs. left. reflexivity. }
    apply in_flat_map in Hin. destruct Hin as (e & He & Hsp).
    exists e. split; [reflexivity|]. split; [exact He|].
    intros E. rewrite E in Hsp. contradiction.
Qed.

Lemma extracted_span_witness :
  _extract_address_text_from_entities visit_response visit = Some scenario_a /\
  substring_of scenario_a visit.
Proof.
  assert (H : _extract_address_text_from_entities visit_response visit = Some scenario_a)
    by (vm_compute; reflexivity).
  split; [exact H | exact (proj1 (extracted_span _ _ H))].
Defined.

(* ================================================================== *)
(** * The analysis functions on documents *)
(* ================================================================== *)

(** ** Matches over a document *)

Section FindFacts.

Variable ic : bool.
Variable r : regex.

Lemma matches_from_nil prev :
  try_match ic r prev [] = None -> matches_from ic r prev [] = [].
Proof. unfold matches_from. simpl. intros ->. reflexivity. Qed.

Lemma matches_from_char prev c tl :
  try_match ic r prev (c :: tl) = None ->
  matches_from ic r prev (c :: tl) = matches_from ic r (Some c) tl.
Proof. unfold matches_from. simpl. intros ->. reflexivity. Qed.

Lemma matches_from_match prev rs st :
  try_match ic r prev rs = Some st -> ms_acc st <> [] ->
  exists prev',
    matches_from ic r prev rs = st :: matches_from ic r prev' (ms_rest st).
Proof.
  intros E Hne. pose proof (try_match_prefix _ _ _ _ E) as Hp.
  unfold matches_from.
  destruct rs as [|c tl].
  - symmetry in Hp. apply app_eq_nil in Hp. destruct Hp as [Hg _].
    exfalso. apply Hne. unfold group0 in Hg.
    apply (f_equal (@rev ascii)) in Hg. rewrite rev_involutive in Hg. exact Hg.
  - simpl. rewrite E.
    destruct (ms_acc st) as [|x a] eqn:Ea; [contradiction Hne; reflexivity|].
    unfold group0 in Hp. rewrite Ea in Hp.
    destruct (rev (x :: a)) as [|c' g'] eqn:Eg.
    { apply (f_equal (@List.length ascii)) in Eg. rewrite length_rev in Eg. discriminate. }
    simpl in Hp. injection Hp as -> ->.
    assert (Hl : List.length a = List.length g').
    { apply (f_equal (@List.length ascii)) in Eg. rewrite length_rev in Eg.
      simpl in Eg. lia. }
    rewrite Hl, scan_loop_skip. eexists. reflexivity.
Qed.

(** No match is found inside an inert piece. *)
Lemma matches_from_inert : forall s rest prev,
  inert ic r s ->
  exists prev', matches_from ic r prev (s ++ rest) = matches_from ic r prev' rest.
Proof.
  induction s as [|c s IH]; intros rest prev Hi.
  - exists prev. reflexivity.
  - simpl. rewrite matches_from_char.
    + apply IH. intros pre d suf rest' prev'' ->. apply (Hi (c :: pre)). reflexivity.
    + apply (Hi []). reflexivity.
Qed.

End FindFacts.

Section Found.

Variable r : regex.
Variable B : Type.
Variable h : mstate -> B.
Variable ok : segment -> Prop.
Variable found : segment -> list B.

Hypothesis Hend : forall prev, try_match false r prev [] = None.

Hypothesis Hseg : forall g, ok g -> forall rest prev,
  exists prev',
    map h (matches_from false r prev (seg_text g ++ rest))
    = found g ++ map h (matches_from false r prev' rest).

Lemma found_in_document : forall d prev,
  Forall ok d -> map h (matches_from false r prev (doc_text d)) = flat_map found d.
Proof.
  induction d as [|g d IH]; intros prev Hd.
  - cbn [doc_text flat_map]. rewrite matches_from_nil; [reflexivity | apply Hend].
  - inversion Hd as [|? ? Hg Hd']. subst.
    change (doc_text (g :: d)) with (seg_text g ++ doc_text d).
    destruct (Hseg Hg (doc_text d) prev) as [prev' ->].
    rewrite (IH prev' Hd'). reflexivity.
Qed.

End Found.

(** A piece without matches inside. *)
Lemma nothing_found r (B : Type) (h : mstate -> B) s rest prev :
  inert false r s ->
  exists prev',
    map h (matches_from false r prev (s ++ rest))
    = [] ++ map h (matches_from false r prev' rest).
Proof.
  intros H. destruct (@matches_from_inert false r s rest prev H) as [prev' ->].
  exists prev'. reflexivity.
Qed.

(** A piece that opens with a match and goes on without one. *)
Lemma found_at_start r (B : Type) (h : mstate -> B) s rest prev st y :
  try_match false r prev (s ++ rest) = Some st -> ms_acc st <> [] ->
  ms_rest st = y ++ rest -> inert false r y ->
  exists prev',
    map h (matches_from false r prev (s ++ rest))
    = [h st] ++ map h (matches_from false r prev' rest).
Proof.
  intros Hm Hne Hr Hy.
  destruct (matches_from_match _ _ _ _ Hm Hne) as [p1 ->]. rewrite Hr.
  destruct (@matches_from_inert false r y rest p1 Hy) as [p2 ->].
  exists p2. reflexivity.
Qed.

(** ** Texts in which [<] only opens closing tags *)

Lemma closing_only_lt_free (s : text) : ~ In lt s -> closing_only s = true.
Proof.
  induction s as [|c s IH]; intros H; [reflexivity|].
  cbn [closing_only].
  destruct (Ascii.eqb c lt) eqn:E.
  - apply Ascii.eqb_eq in E. exfalso. apply H. left. auto.
  - apply IH. intros Hs. apply H. right. exact Hs.
Qed.

Lemma closing_only_app (s1 s2 : text) :
  closing_only s1 = true -> closing_only s2 = true -> closing_only (s1 ++ s2) = true.
Proof.
  induction s1 as [|c s1 IH]; intros H1 H2; [exact H2|].
  cbn [closing_only app] in *.
  destruct (Ascii.eqb c lt).
  - destruct s1 as [|d s1]; [discriminate|].
    cbn [app]. destruct d as [[] [] [] [] [] [] [] []]; try discriminate.
    apply IH; assumption.
  - apply IH; assumption.
Qed.

Lemma closing_only_suffix (s1 s2 : text) :
  closing_only (s1 ++ s2) = true -> closing_only s2 = true.
Proof.
  induction s1 as [|c s1 IH]; intros H; [exact H|].
  cbn [closing_only app] in H.
  destruct (Ascii.eqb c lt).
  - destruct (s1 ++ s2) as [|d u] eqn:E; [discriminate|].
    destruct d as [[] [] [] [] [] [] [] []]; try discriminate.
    apply IH. exact H.
  - apply IH. exact H.
Qed.

Lemma closing_only_at (pre suf : text) :
  closing_only (pre ++ lt :: suf) = true -> exists suf', suf = "/"%char :: suf'.
Proof.
  intros H. apply closing_only_suffix in H. cbn in H.
  destruct suf as [|d suf]; [discriminate|].
  destruct d as [[] [] [] [] [] [] [] []]; try discriminate.
  eexists. reflexivity.
Qed.

Section Closing.

Variable r : regex.
Hypothesis Hlt : starts_with_lt r.
Hypothesis Hclose : forall prev tl, try_match false r prev (lt :: "/"%char :: tl) = None.

Lemma closing_only_inert (s : text) : closing_only s = true -> inert false r s.
Proof.
  intros H pre c suf rest prev ->.
  destruct (Ascii.eqb c lt) eqn:E.
  - apply Ascii.eqb_eq in E. subst c.
    destruct (closing_only_at _ _ H) as [suf' ->]. apply Hclose.
  - apply Hlt. apply Ascii.eqb_neq. exact E.
Qed.

(** A piece that opens with [<], where no match starts. *)
Lemma closed_piece_inert (s : text) :
  closing_only s = true ->
  (forall prev rest, try_match false r prev (lt :: s ++ rest) = None) ->
  inert false r (lt :: s).
Proof.
  intros Hs H0 pre c suf rest prev E. destruct pre as [|p pre]; simpl in E.
  - injection E as <- <-. apply H0.
  - injection E as _ E. apply (closing_only_inert Hs pre c suf rest prev E).
Qed.

End Closing.

(** ** The tags of a clean document *)

Lemma seg_text_tag g k :
  tag_kind g = Some k -> seg_text g = lt :: kind_name k ++ tag_tail g.
Proof.
  destruct g as [s|k' lat lon z txt|k' lat lon txt|k' txt|lon lat z txt];
    intros H; try discriminate H; injection H as ->.
  all: cbn [seg_text tag_tail T list_ascii_of_string app]; reflexivity.
Qed.

Lemma closing_tag_only k : closing_only (T "</" ++ kind_name k ++ T ">") = true.
Proof. destruct k; reflexivity. Qed.

Ltac closing :=
  repeat first
    [ apply closing_tag_only
    | apply closing_only_lt_free; assumption
    | apply closing_only_app; [first [reflexivity | apply closing_only_lt_free; assumption]|] ].

Lemma tag_tail_closing g :
  clean g -> closing_only (tag_tail g) = true.
Proof.
  destruct g as [s|k lat lon z txt|k lat lon txt|k txt|lon lat z txt];
    cbn [clean well_formed tag_tail]; try reflexivity.
  - intros ((_ & _ & Hlat) & (_ & _ & Hlon) & (_ & _ & Hz) & (_ & Htxt)). closing.
  - intros ((_ & _ & Hlat) & (_ & _ & Hlon) & (_ & Htxt)). closing.
  - intros (_ & Htxt). closing.
Qed.

Lemma tag_tail_closes g k : tag_kind g = Some k -> In ">"%char (tag_tail g).
Proof.
  destruct g as [s|k' lat lon z txt|k' lat lon txt|k' txt|lon lat z txt];
    intros H; try discriminate H; cbn [tag_tail].
  all: repeat (apply in_or_app; right).
  all: left; reflexivity.
Qed.

(** The first occurrence of a character. *)
Lemma first_occurrence (c : ascii) (s : text) :
  In c s -> exists x y, s = x ++ c :: y /\ ~ In c x.
Proof.
  induction s as [|d s IH]; intros H; [contradiction|].
  destruct (Ascii.eqb d c) eqn:E.
  - apply Ascii.eqb_eq in E. subst d. exists [], s. split; [reflexivity | apply in_nil].
  - destruct H as [H|H]; [subst d; rewrite Ascii.eqb_refl in E; discriminate|].
    destruct (IH H) as (x & y & -> & Hx).
    exists (d :: x), y. split; [reflexivity|].
    intros [Hd|Hd]; [subst d; rewrite Ascii.eqb_refl in E; discriminate | exact (Hx Hd)].
Qed.

(** ** The patterns of the analysis functions *)

Lemma entity_tag_pattern_starts_with_lt : starts_with_lt entity_tag_pattern.
Proof. unfold entity_tag_pattern. starts_lt. Qed.

Lemma gpe_tag_pattern_starts_with_lt : starts_with_lt gpe_tag_pattern.
Proof. unfold gpe_tag_pattern. starts_lt. Qed.

Lemma loc_tag_pattern_starts_with_lt : starts_with_lt loc_tag_pattern.
Proof. unfold loc_tag_pattern. starts_lt. Qed.

Lemma address_tag_pattern_starts_with_lt : starts_with_lt address_tag_pattern.
Proof. unfold address_tag_pattern. starts_lt. Qed.

Lemma tagged_address_pattern_starts_with_lt : starts_with_lt tagged_address_pattern.
Proof. unfold tagged_address_pattern. starts_lt. Qed.

Lemma entity_tag_pattern_skips_markup : skips_markup entity_tag_pattern.
Proof. skips. Qed.

Lemma gpe_tag_pattern_skips_markup : skips_markup gpe_tag_pattern.
Proof. skips. Qed.

Lemma loc_tag_pattern_skips_markup : skips_markup loc_tag_pattern.
Proof. skips. Qed.

Lemma address_tag_pattern_skips_markup : skips_markup address_tag_pattern.
Proof. skips. Qed.

Lemma tagged_address_pattern_skips_markup : skips_markup tagged_address_pattern.
Proof. skips. Qed.

Lemma gt_run (x rest : text) :
  ~ In ">"%char x -> run_of false (CS true [CChar ">"%char]) x (">"%char :: rest).
Proof.
  intros H. split.
  - apply not_in_eqb in H. eapply Forall_impl; [|exact H].
    intros c Hc. unfold cset_match. cbn [cs_neg cs_items existsb item_match fold].
    rewrite Hc. reflexivity.
  - reflexivity.
Qed.

Ltac open_tag :=
  let tail := fresh "tail" in let rest := fresh "rest" in let prev := fresh "prev" in
  let H := fresh "H" in let x := fresh "x" in let y := fresh "y" in let Hx := fresh "Hx" in
  intros tail rest prev H;
  destruct (first_occurrence _ _ H) as (x & y & -> & Hx);
  rewrite <- app_assoc;
  cbn [kind_name T list_ascii_of_string app]; unfold try_match;
  eexists; exists y; split;
    [ cbn; erewrite rep_greedy_run;
        [ cbn; reflexivity | apply gt_run; exact Hx | apply Nat.le_0_l | reflexivity
        | cbn; reflexivity ]
    | split; [discriminate | split; [reflexivity | exists x; reflexivity]] ].

Lemma entity_tag_pattern_opens k : opens entity_tag_pattern k.
Proof. destruct k; unfold entity_tag_pattern; open_tag. Qed.

Lemma gpe_tag_pattern_opens : opens gpe_tag_pattern GPE.
Proof. unfold gpe_tag_pattern; open_tag. Qed.

Lemma loc_tag_pattern_opens : opens loc_tag_pattern LOC.
Proof. unfold loc_tag_pattern; open_tag. Qed.

Lemma address_tag_pattern_opens : opens address_tag_pattern Address.
Proof. unfold address_tag_pattern; open_tag. Qed.

Section Tags.

Variable r : regex.
Variable B : Type.
Variable h : mstate -> B.

Hypothesis Hlt : starts_with_lt r.
Hypothesis Hskip : skips_markup r.

(** A tag whose opening is matched counts once. *)
Lemma tag_counted g k rest prev :
  clean g -> tag_kind g = Some k -> opens r k ->
  exists prev' st,
    map h (matches_from false r prev (seg_text g ++ rest))
    = [h st] ++ map h (matches_from false r prev' rest).
Proof.
  intros Hg Hk Ho. rewrite (seg_text_tag _ Hk).
  destruct (Ho (tag_tail g) rest prev (tag_tail_closes _ Hk))
    as (st & y & Hm & Hne & Hr & x & Hx).
  assert (Hy : inert false r y).
  { apply closing_only_inert; [exact Hlt | apply Hskip |].
    pose proof (tag_tail_closing _ Hg) as Hc. rewrite Hx in Hc.
    apply closing_only_suffix in Hc. cbn [closing_only] in Hc. exact Hc. }
  destruct (@found_at_start r B h (lt :: kind_name k ++ tag_tail g) rest prev st y)
    as [prev' Hf]; try assumption.
  { rewrite <- app_comm_cons, <- app_assoc. exact Hm. }
  exists prev', st. exact Hf.
Qed.

(** A tag whose opening is not matched does not count. *)
Lemma tag_passed g k rest prev :
  clean g -> tag_kind g = Some k -> passes r k ->
  exists prev',
    map h (matches_from false r prev (seg_text g ++ rest))
    = [] ++ map h (matches_from false r prev' rest).
Proof.
  intros Hg Hk Hp. apply nothing_found.
  rewrite (seg_text_tag _ Hk).
  apply closed_piece_inert; [exact Hlt | apply Hskip | |].
  - apply closing_only_app; [|apply tag_tail_closing; exact Hg].
    destruct k; reflexivity.
  - intros prev0 rest0. rewrite <- app_assoc. apply Hp.
Qed.

Lemma plain_passed s rest prev :
  ~ In lt s ->
  exists prev',
    map h (matches_from false r prev (s ++ rest))
    = [] ++ map h (matches_from false r prev' rest).
Proof. intros H. apply nothing_found. apply inert_lt_free; assumption. Qed.

Lemma link_passed lon lat z txt rest prev :
  well_formed (Link lon lat z txt) ->
  exists prev',
    map h (matches_from false r prev (seg_text (Link lon lat z txt) ++ rest))
    = [] ++ map h (matches_from false r prev' rest).
Proof. intros H. apply nothing_found. apply inert_link; assumption. Qed.

End Tags.

(** ** Counting the tags of a document *)

Lemma length_selected (sel : segment -> bool) (d : document) :
  List.length (flat_map (fun g => if sel g then [tt] else []) d)
  = List.length (filter sel d).
Proof.
  induction d as [|g d IH]; [reflexivity|].
  cbn [flat_map filter]. rewrite length_app, IH.
  destruct (sel g); reflexivity.
Qed.

Lemma count_selected r (sel : kind -> bool) (d : document) :
  starts_with_lt r -> skips_markup r ->
  (forall k, if sel k then opens r k else passes r k) ->
  Forall clean d ->
  count_matches r (doc_text d) = List.length (filter (selected sel) d).
Proof.
  intros Hlt Hskip Hsel Hd.
  rewrite <- length_selected.
  unfold count_matches, finditer, scan.
  fold (matches_from false r None (doc_text d)).
  rewrite <- (length_map (fun _ => tt)). f_equal.
  apply found_in_document with (ok := clean); [apply Hskip | | exact Hd].
  intros g Hg rest prev. unfold selected.
  destruct (tag_kind g) as [k|] eqn:Hk.
  - specialize (Hsel k). destruct (sel k).
    + destruct (@tag_counted r unit (fun _ => tt) Hlt Hskip g k rest prev Hg Hk Hsel)
        as (prev' & st & H).
      exists prev'. exact H.
    + apply tag_passed with (k := k); assumption.
  - destruct g as [s|k lat lon z txt|k lat lon txt|k txt|lon lat z txt];
      try discriminate Hk.
    + apply plain_passed; assumption.
    + apply link_passed; assumption.
Qed.

Lemma count_entity_tags d :
  Forall clean d -> count_matches entity_tag_pattern (doc_text d) = List.length (filter is_tag d).
Proof.
  intros Hd.
  rewrite (@count_selected entity_tag_pattern (fun _ => true) d);
    [ | apply entity_tag_pattern_starts_with_lt | apply entity_tag_pattern_skips_markup
      | intros k; apply entity_tag_pattern_opens | exact Hd ].
  reflexivity.
Qed.

Lemma count_gpe_tags d :
  Forall clean d -> count_matches gpe_tag_pattern (doc_text d) = count_kind GPE d.
Proof.
  intros Hd.
  apply (@count_selected gpe_tag_pattern (kind_eqb GPE) d);
    [ apply gpe_tag_pattern_starts_with_lt | apply gpe_tag_pattern_skips_markup | | exact Hd ].
  intros []; cbn [kind_eqb];
    [apply gpe_tag_pattern_opens | intros tl prev; reflexivity ..].
Qed.

Lemma count_loc_tags d :
  Forall clean d -> count_matches loc_tag_pattern (doc_text d) = count_kind LOC d.
Proof.
  intros Hd.
  apply (@count_selected loc_tag_pattern (kind_eqb LOC) d);
    [ apply loc_tag_pattern_starts_with_lt | apply loc_tag_pattern_skips_markup | | exact Hd ].
  intros []; cbn [kind_eqb];
    [intros tl prev; reflexivity | apply loc_tag_pattern_opens | intros tl prev; reflexivity].
Qed.

Lemma count_address_tags d :
  Forall clean d -> count_matches address_tag_pattern (doc_text d) = count_kind Address d.
Proof.
  intros Hd.
  apply (@count_selected address_tag_pattern (kind_eqb Address) d);
    [ apply address_tag_pattern_starts_with_lt | apply address_tag_pattern_skips_markup
    | | exact Hd ].
  intros []; cbn [kind_eqb];
    [intros tl prev; reflexivity .. | apply address_tag_pattern_opens].
Qed.

Lemma count_kinds d :
  count_kind GPE d + count_kind LOC d + count_kind Address d = List.length (filter is_tag d).
Proof.
  unfold count_kind.
  induction d as [|g d IH]; [reflexivity|].
  destruct g as [s|[] lat lon z txt|[] lat lon txt|[] txt|lon lat z txt]; cbn in *; lia.
Qed.

(** X12: in a text made of well-formed tags, anchors and text without [<],
    [count_entities_by_type] reports for each kind the number of its tags,
    whatever their schema, and as total the number of all tags. *)
Theorem count_entities_of_document (d : document) :
  Forall clean d ->
  count_entities_by_type (doc_text d) =
    [(T "GPE", count_kind GPE d); (T "LOC", count_kind LOC d);
     (T "address", count_kind Address d); (T "total", List.length (filter is_tag d))].
Proof.
  intros Hd. unfold count_entities_by_type.
  rewrite (count_gpe_tags Hd), (count_loc_tags Hd), (count_address_tags Hd), count_kinds.
  reflexivity.
Qed.

(** ** The coordinates in a document *)

Lemma current_groups k lat lon z txt rest prev :
  well_formed (Current k lat lon z txt) ->
  exists st,
    try_match false pattern prev (seg_text (Current k lat lon z txt) ++ rest) = Some st /\
    ms_rest st = rest /\ ms_acc st <> [] /\
    group 1 st = kind_name k /\
    group 2 st = lat /\ group 3 st = lon /\ group 4 st = z /\ group 5 st = txt.
Proof.
  intros ((Hlat0 & Hlat & _) & (Hlon0 & Hlon & _) & (Hz0 & Hz & _) & (Htxt0 & Htxt)).
  destruct k; normalize_text; unfold try_match, pattern.
  all: eexists; split; [run_match|];
    split; [reflexivity|]; split; [discriminate|];
    split; [reflexivity|]; repeat split; group_text.
Qed.

Lemma legacy_groups k lat lon txt rest prev :
  well_formed (Legacy k lat lon txt) ->
  exists st,
    try_match false legacy_pattern prev (seg_text (Legacy k lat lon txt) ++ rest) = Some st /\
    ms_rest st = rest /\ ms_acc st <> [] /\
    group 1 st = kind_name k /\
    group 2 st = lat /\ group 3 st = lon /\ group 4 st = txt.
Proof.
  intros ((Hlat0 & Hlat & _) & (Hlon0 & Hlon & _) & (Htxt0 & Htxt)).
  destruct k; normalize_text; unfold try_match, legacy_pattern.
  all: eexists; split; [run_match|];
    split; [reflexivity|]; split; [discriminate|];
    split; [reflexivity|]; repeat split; group_text.
Qed.

Section CurrentSkipped.

Local Arguments Ascii.eqb !_ !_ : simpl nomatch.

Ltac fail_run Hv :=
  rewrite rep_greedy_fail; [reflexivity | reflexivity | reflexivity |];
  let x2 := fresh "x" in let x1 := fresh "y" in let E := fresh "E" in
  let Hrs := fresh "Hrs" in let c := fresh "c" in
  let pv := fresh "pv" in let ac := fresh "ac" in let rs := fresh "rs" in
  let cp := fresh "cp" in
  intros x2 [pv ac rs cp] [x1 E] Hrs; cbn in Hrs; subst rs;
  destruct x2 as [|c x2]; cbn;
    [ | let H := fresh "H" in
        pose proof (@eqb_not_in _ _ _ _ _ Hv E) as H; cbn in H; rewrite H; reflexivity ].

(** The legacy pattern does not match a tag that has a zoom level. *)
Lemma legacy_pattern_skips_current k lat lon z txt rest prev :
  well_formed (Current k lat lon z txt) ->
  try_match false legacy_pattern prev (seg_text (Current k lat lon z txt) ++ rest) = None.
Proof.
  intros ((Hlat0 & Hlat & _) & (Hlon0 & Hlon & _) & _).
  destruct k; normalize_text; unfold try_match, legacy_pattern; cbn.
  all: fail_run Hlat; fail_run Hlon; reflexivity.
Qed.

End CurrentSkipped.

Lemma found_current (B : Type) (h : mstate -> B) (found : segment -> list B) d :
  (forall k lat lon z txt st,
     group 1 st = kind_name k -> group 2 st = lat -> group 3 st = lon ->
     group 4 st = z -> group 5 st = txt ->
     found (Current k lat lon z txt) = [h st]) ->
  (forall g, is_current g = false -> found g = []) ->
  Forall clean d ->
  map h (finditer false pattern (doc_text d)) = flat_map found d.
Proof.
  intros Hc Hn Hd. unfold finditer, scan.
  fold (matches_from false pattern None (doc_text d)).
  apply found_in_document with (ok := clean); [reflexivity | | exact Hd].
  intros g Hg rest prev.
  destruct g as [s|k lat lon z txt|k lat lon txt|k txt|lon lat z txt].
  - rewrite Hn by reflexivity. apply plain_passed; [apply pattern_starts_with_lt | exact Hg].
  - destruct (@current_groups k lat lon z txt rest prev Hg)
      as (st & Hm & Hrest & Hacc & H1 & H2 & H3 & H4 & H5).
    rewrite (Hc _ _ _ _ _ st H1 H2 H3 H4 H5).
    apply found_at_start with (y := []);
      [exact Hm | exact Hacc | exact Hrest | apply inert_nil].
  - rewrite Hn by reflexivity. apply nothing_found. apply inert_legacy;
      [apply pattern_starts_with_lt | apply pattern_skips_markup | | exact Hg].
    intros prev0 rest0. apply pattern_skips_legacy. exact Hg.
  - rewrite Hn by reflexivity. apply nothing_found. apply inert_bare;
      [apply pattern_starts_with_lt | apply pattern_skips_markup
      | apply pattern_skips_bare | exact Hg].
  - rewrite Hn by reflexivity. apply link_passed;
      [apply pattern_starts_with_lt | apply pattern_skips_markup | exact Hg].
Qed.

Lemma found_legacy (B : Type) (h : mstate -> B) (found : segment -> list B) d :
  (forall k lat lon txt st,
     group 1 st = kind_name k -> group 2 st = lat -> group 3 st = lon ->
     group 4 st = txt ->
     found (Legacy k lat lon txt) = [h st]) ->
  (forall g, is_legacy g = false -> found g = []) ->
  Forall clean d ->
  map h (finditer false legacy_pattern (doc_text d)) = flat_map found d.
Proof.
  intros Hc Hn Hd. unfold finditer, scan.
  fold (matches_from false legacy_pattern None (doc_text d)).
  apply found_in_document with (ok := clean); [reflexivity | | exact Hd].
  intros g Hg rest prev.
  destruct g as [s|k lat lon z txt|k lat lon txt|k txt|lon lat z txt].
  - rewrite Hn by reflexivity.
    apply plain_passed; [apply legacy_pattern_starts_with_lt | exact Hg].
  - rewrite Hn by reflexivity. apply nothing_found.
    rewrite (@seg_text_tag (Current k lat lon z txt) k eq_refl).
    apply closed_piece_inert;
      [apply legacy_pattern_starts_with_lt | apply legacy_pattern_skips_markup | |].
    + apply closing_only_app; [destruct k; reflexivity | apply tag_tail_closing; exact Hg].
    + intros prev0 rest0.
      pose proof (@legacy_pattern_skips_current k lat lon z txt rest0 prev0 Hg) as H.
      rewrite (@seg_text_tag (Current k lat lon z txt) k eq_refl) in H. exact H.
  - destruct (@legacy_groups k lat lon txt rest prev Hg)
      as (st & Hm & Hrest & Hacc & H1 & H2 & H3 & H4).
    rewrite (Hc _ _ _ _ st H1 H2 H3 H4).
    apply found_at_start with (y := []);
      [exact Hm | exact Hacc | exact Hrest | apply inert_nil].
  - rewrite Hn by reflexivity. apply nothing_found. apply inert_bare;
      [apply legacy_pattern_starts_with_lt | apply legacy_pattern_skips_markup
      | apply legacy_pattern_skips_bare | exact Hg].
  - rewrite Hn by reflexivity. apply link_passed;
      [apply legacy_pattern_starts_with_lt | apply legacy_pattern_skips_markup | exact Hg].
Qed.

Lemma current_coordinates_nil d :
  flat_map current_coordinates d = [] <-> existsb is_current d = false.
Proof.
  induction d as [|g d IH]; [split; reflexivity|].
  destruct g; cbn [flat_map current_coordinates existsb is_current app orb];
    try exact IH.
  split; discriminate.
Qed.

(** X14: in a text made of well-formed tags, anchors and text without [<],
    [extract_coordinates_from_xml] lists type, text, latitude, longitude and
    zoom level of the current-schema tags when there is at least one; the
    legacy-schema tags are listed, without zoom level, only when there is
    none. *)
Theorem coordinates_of_document (d : document) :
  Forall clean d ->
  extract_coordinates_from_xml (doc_text d) =
    if existsb is_current d then flat_map current_coordinates d
    else flat_map legacy_coordinates d.
Proof.
  intros Hd.
  change (extract_coordinates_from_xml (doc_text d))
    with (match map current_tuple (finditer false pattern (doc_text d)) with
          | [] => map legacy_tuple (finditer false legacy_pattern (doc_text d))
          | _ :: _ => map current_tuple (finditer false pattern (doc_text d))
          end).
  rewrite (@found_current _ current_tuple current_coordinates d); try exact Hd.
  - destruct (existsb is_current d) eqn:E.
    + destruct (flat_map current_coordinates d) eqn:F; [|reflexivity].
      apply current_coordinates_nil in F. congruence.
    + apply current_coordinates_nil in E. rewrite E.
      apply found_legacy; try exact Hd.
      * intros k lat lon txt st H1 H2 H3 H4. unfold legacy_tuple.
        rewrite H1, H2, H3, H4. reflexivity.
      * intros []; try discriminate; reflexivity.
  - intros k lat lon z txt st H1 H2 H3 H4 H5. unfold current_tuple.
    rewrite H1, H2, H3, H4, H5. reflexivity.
  - intros []; try discriminate; reflexivity.
Qed.

Ltac concrete_clean :=
  repeat first
    [ apply Forall_cons | apply Forall_nil
    | split
    | discriminate
    | let H := fresh in intros H; cbn in H; intuition discriminate ].

Lemma sample_document_clean : Forall clean sample_document.
Proof. unfold sample_document. concrete_clean. Qed.

Lemma coordinates_of_document_witness :
  extract_coordinates_from_xml
    (TQ "<GPE lat='1' lon='2' zoom_level='9'>Oslo</GPE> <LOC lat='3' lon='4'>Alps</LOC>")
  = [(T "GPE", T "Oslo", T "1", T "2", Some (T "9"))].
Proof.
  assert (H : Forall clean
                [Current GPE (T "1") (T "2") (T "9") (T "Oslo"); Plain (T " ");
                 Legacy LOC (T "3") (T "4") (T "Alps")]) by concrete_clean.
  exact (coordinates_of_document H).
Defined.

(** ** Validation of the tag format *)

Lemma length_found (A : Type) (sel : segment -> bool) (f : segment -> list A) d :
  (forall g, List.length (f g) = if sel g then 1 else 0) ->
  List.length (flat_map f d) = List.length (filter sel d).
Proof.
  intros H. induction d as [|g d IH]; [reflexivity|].
  cbn [flat_map filter]. rewrite length_app, IH, H.
  destruct (sel g); reflexivity.
Qed.

Lemma count_current d :
  Forall clean d -> count_matches pattern (doc_text d) = List.length (filter is_current d).
Proof.
  intros Hd. unfold count_matches.
  rewrite <- (length_map current_tuple).
  rewrite (@found_current _ current_tuple current_coordinates d); try exact Hd.
  - apply length_found. intros []; reflexivity.
  - intros k lat lon z txt st H1 H2 H3 H4 H5. unfold current_tuple.
    rewrite H1, H2, H3, H4, H5. reflexivity.
  - intros []; try discriminate; reflexivity.
Qed.

Lemma count_legacy d :
  Forall clean d -> count_matches legacy_pattern (doc_text d) = List.length (filter is_legacy d).
Proof.
  intros Hd. unfold count_matches.
  rewrite <- (length_map legacy_tuple).
  rewrite (@found_legacy _ legacy_tuple legacy_coordinates d); try exact Hd.
  - apply length_found. intros []; reflexivity.
  - intros k lat lon txt st H1 H2 H3 H4. unfold legacy_tuple.
        rewrite H1, H2, H3, H4. reflexivity.
  - intros []; try discriminate; reflexivity.
Qed.

Lemma tags_by_shape d :
  List.length (filter is_tag d)
  = List.length (filter is_current d) + List.length (filter is_legacy d)
    + List.length (filter is_bare d).
Proof.
  induction d as [|g d IH]; [reflexivity|].
  destruct g; cbn in *; lia.
Qed.

Lemma no_bare_length d :
  (List.length (filter is_bare d) =? 0) = forallb (fun g => negb (is_bare g)) d.
Proof.
  induction d as [|g d IH]; [reflexivity|].
  cbn [filter forallb]. destruct (is_bare g); [reflexivity | exact IH].
Qed.

(** X13: on a text made of well-formed tags, anchors and text without [<],
    [validate_xml_format] holds exactly when every tag carries coordinates:
    one tag without them makes it false. *)
Theorem validate_document (d : document) :
  Forall clean d ->
  validate_xml_format (doc_text d) = forallb (fun g => negb (is_bare g)) d.
Proof.
  intros Hd. unfold validate_xml_format.
  rewrite (count_current Hd), (count_legacy Hd), (count_entity_tags Hd), tags_by_shape.
  rewrite <- no_bare_length.
  destruct (List.length (filter is_bare d)) as [|n].
  - rewrite Nat.add_0_r. apply Nat.eqb_refl.
  - apply Nat.eqb_neq. cbn. lia.
Qed.

Lemma validate_document_witness :
  validate_xml_format (doc_text sample_document) = false /\
  validate_xml_format
    (TQ "<GPE lat='1' lon='2' zoom_level='9'>Oslo</GPE> <LOC lat='3' lon='4'>Alps</LOC>")
  = true.
Proof.
  split.
  - exact (validate_document sample_document_clean).
  - assert (H : Forall clean
                  [Current GPE (T "1") (T "2") (T "9") (T "Oslo"); Plain (T " ");
                   Legacy LOC (T "3") (T "4") (T "Alps")]) by concrete_clean.
    exact (validate_document H).
Defined.

Lemma count_entities_of_document_witness :
  count_entities_by_type
    (TQ "From <GPE lat='34.05' lon='-118.25' zoom_level='10'>Los Angeles</GPE> to <address lat='40.7' lon='-74.0'>1 Main St</address>, <LOC>Somewhere</LOC> or <address>123 Main Street, Anytown, CA 90210</address> and <a href='https://www.arcgis.com/apps/mapviewer/index.html?center=2.35,48.85&level=12&marker=2.35,48.85' target='_blank'>Paris</a>")
  = [(T "GPE", 1); (T "LOC", 1); (T "address", 2); (T "total", 4)].
Proof. exact (count_entities_of_document sample_document_clean). Defined.

(** ** Reading the address tags back *)

Lemma consumed_advance c y rest tl st :
  consumed y rest (advance c tl st) = consumed (c :: y) rest st.
Proof.
  unfold consumed, advance. cbn [ms_prev ms_acc ms_caps last_or rev].
  rewrite <- app_assoc. reflexivity.
Qed.

(** A lazy repetition stops at the first position where the rest of the
    pattern matches. *)
Lemma rep_lazy_run ic cs : forall x rest st k res,
  Forall (fun c => cset_match ic cs c = true) x ->
  ms_rest st = x ++ rest ->
  (forall x1 c x2, x = x1 ++ c :: x2 -> k (consumed x1 (c :: x2 ++ rest) st) = None) ->
  k (consumed x rest st) = Some res ->
  rep_lazy ic cs 0 None (x ++ rest) st k = Some res.
Proof.
  induction x as [|c x IH]; intros rest st k res Hx Hrs Hfail Hk.
  - assert (Hst : consumed [] rest st = st).
    { destruct st. simpl in Hrs. subst. reflexivity. }
    rewrite Hst in Hk. destruct rest; simpl; rewrite Hk; reflexivity.
  - inversion Hx as [|? ? Hc Hx']. subst.
    assert (Hst : consumed [] (c :: x ++ rest) st = st).
    { destruct st. simpl in Hrs. subst. reflexivity. }
    pose proof (Hfail [] c x eq_refl) as H0. rewrite Hst in H0.
    simpl. rewrite H0, Hc. cbn [andb pred].
    apply IH; [exact Hx' | reflexivity | |].
    + intros x1 d x2 ->. rewrite consumed_advance. apply (Hfail (c :: x1) d x2). reflexivity.
    + rewrite consumed_advance. exact Hk.
Qed.

Lemma any_char_all ic (x : text) : Forall (fun c => cset_match ic any_char c = true) x.
Proof. apply Forall_forall. intros c _. reflexivity. Qed.

Section AddressRead.

Local Arguments Ascii.eqb !_ !_ : simpl nomatch.

Lemma tagged_address_on_bare txt rest prev :
  ~ In lt txt ->
  exists st,
    try_match false tagged_address_pattern prev (seg_text (Bare Address txt) ++ rest)
    = Some st /\
    ms_rest st = rest /\ ms_acc st <> [] /\ group 1 st = txt.
Proof.
  intros Htxt. normalize_text. unfold try_match, tagged_address_pattern.
  eexists. split; [|split; [|split]].
  - cbn. erewrite rep_lazy_run;
      [ reflexivity | apply any_char_all | reflexivity | | cbn; reflexivity ].
    intros x1 c x2 E. cbn.
    pose proof (@eqb_not_in _ _ _ _ _ Htxt E) as H. unfold lt in H. rewrite H. reflexivity.
  - reflexivity.
  - discriminate.
  - unfold group. cbn. rewrite ?app_nil_r. apply rev_involutive.
Qed.

End AddressRead.

Lemma found_tagged_addresses d :
  Forall clean d ->
  map (group 1) (matches_from false tagged_address_pattern None (doc_text d))
  = flat_map bare_address d.
Proof.
  intros Hd.
  apply found_in_document with (ok := clean); [reflexivity | | exact Hd].
  intros g Hg rest prev.
  assert (Hp : forall k, tag_kind g = Some k ->
             (forall prev0 rest0,
                try_match false tagged_address_pattern prev0
                  (lt :: (kind_name k ++ tag_tail g) ++ rest0) = None) ->
             exists prev',
               map (group 1) (matches_from false tagged_address_pattern prev
                                (seg_text g ++ rest))
               = [] ++ map (group 1) (matches_from false tagged_address_pattern prev' rest)).
  { intros k Hk H0. apply nothing_found. rewrite (seg_text_tag _ Hk).
    apply closed_piece_inert;
      [ apply tagged_address_pattern_starts_with_lt
      | apply tagged_address_pattern_skips_markup | | exact H0 ].
    apply closing_only_app; [destruct k; reflexivity | apply tag_tail_closing; exact Hg]. }
  destruct g as [s|k lat lon z txt|k lat lon txt|k txt|lon lat z txt].
  - apply plain_passed; [apply tagged_address_pattern_starts_with_lt | exact Hg].
  - apply (Hp k eq_refl). intros prev0 rest0. destruct k; reflexivity.
  - apply (Hp k eq_refl). intros prev0 rest0. destruct k; reflexivity.
  - destruct k; [apply (Hp GPE eq_refl); reflexivity | apply (Hp LOC eq_refl); reflexivity |].
    destruct (@tagged_address_on_bare txt rest prev (proj2 Hg)) as (st & Hm & Hr & Hne & H1).
    cbn [bare_address]. replace [txt] with [group 1 st] by (rewrite H1; reflexivity).
    apply found_at_start with (y := []);
      [exact Hm | exact Hne | exact Hr | apply inert_nil].
  - apply link_passed;
      [ apply tagged_address_pattern_starts_with_lt
      | apply tagged_address_pattern_skips_markup | exact Hg ].
Qed.

(** X11: in a text made of well-formed tags, anchors and text without [<],
    [extract_tagged_addresses] lists, in order, the inner texts of the
    address tags that carry no coordinates: the pieces the tagger wrapped. *)
Theorem tagged_addresses_of_document (d : document) :
  Forall clean d ->
  extract_tagged_addresses (doc_text d) = flat_map bare_address d.
Proof. intros Hd. apply found_tagged_addresses. exact Hd. Qed.

Lemma tagged_addresses_of_document_witness :
  extract_tagged_addresses (doc_text sample_document)
  = [T "123 Main Street, Anytown, CA 90210"].
Proof. exact (tagged_addresses_of_document sample_document_clean). Defined.

(** ** Rendering twice *)

Lemma after_all_ok g :
  well_formed g ->
  well_formed (after_all g) /\ is_current (after_all g) = false /\
  is_legacy (after_all g) = false /\ is_bare (after_all g) = false.
Proof.
  intros H. unfold after_all.
  apply after_simple_ok. apply after_legacy_ok. apply after_current_ok. exact H.
Qed.

Lemma rendered_document d : flat_map rendered d = doc_text (map after_all d).
Proof.
  unfold doc_text. rewrite !flat_map_concat_map, map_map. f_equal.
  apply map_ext. intros g. symmetry. apply rendered_stages.
Qed.

Lemma rendered_after_all g :
  is_current g = false -> is_legacy g = false -> is_bare g = false ->
  rendered g = seg_text g.
Proof.
  destruct g; intros H1 H2 H3; try discriminate; [reflexivity|].
  symmetry. apply anchor_map_link.
Qed.

(** X15: rendering a rendered text changes nothing: on a text made of
    well-formed tags and of pieces in which no tag starts,
    [transform_xml_to_html_links] applied twice gives what it gives applied
    once. *)
Theorem render_twice (d : document) :
  Forall well_formed d ->
  transform_xml_to_html_links (transform_xml_to_html_links (doc_text d))
  = transform_xml_to_html_links (doc_text d).
Proof.
  intros Hd. rewrite (transform_document Hd), rendered_document.
  rewrite transform_document.
  - rewrite !flat_map_concat_map. unfold doc_text. rewrite flat_map_concat_map.
    f_equal. apply map_ext_in. intros g Hg.
    apply in_map_iff in Hg. destruct Hg as (g0 & <- & Hg0).
    rewrite Forall_forall in Hd.
    destruct (after_all_ok _ (Hd g0 Hg0)) as (_ & H1 & H2 & H3).
    apply rendered_after_all; assumption.
  - apply Forall_map. eapply Forall_impl; [|exact Hd].
    intros g Hg. apply (after_all_ok _ Hg).
Qed.

Lemma render_twice_witness :
  Forall well_formed both_schemas /\
  transform_xml_to_html_links (transform_xml_to_html_links (doc_text both_schemas))
  = transform_xml_to_html_links (doc_text both_schemas).
Proof.
  assert (H : Forall well_formed both_schemas) by (unfold both_schemas; concrete_wf).
  split; [exact H | exact (render_twice H)].
Defined.

(** ** No tag is left after rendering *)

Lemma clean_well_formed g : clean g -> well_formed g.
Proof.
  destruct g; cbn [clean well_formed]; try (intros H; exact H).
  apply lt_free_tagless.
Qed.

Lemma after_all_clean g :
  clean g -> clean (after_all g) /\ tag_kind (after_all g) = None.
Proof.
  unfold after_all.
  destruct g as [s|k lat lon z txt|k lat lon txt|k txt|lon lat z txt];
    cbn [clean well_formed after_current after_legacy after_simple].
  - intros H. split; [exact H | reflexivity].
  - intros (Hlat & Hlon & Hz & Htxt).
    destruct (is_none lat || is_none lon || is_none z)%bool;
      cbn [after_legacy after_simple clean well_formed tag_kind];
      (split; [|reflexivity]); [apply Htxt | tauto].
  - intros (Hlat & Hlon & Htxt).
    destruct (is_none lat || is_none lon)%bool;
      cbn [after_simple clean well_formed tag_kind]; (split; [|reflexivity]);
      [apply Htxt|].
    repeat split; solve [apply Htxt | apply Hlat | apply Hlon | apply attr_value_16].
  - intros (Hne & Htxt). split; [exact Htxt | reflexivity].
  - intros H. split; [exact H | reflexivity].
Qed.

Lemma no_tag_filter (sel : segment -> bool) (d : document) :
  (forall g, In g d -> sel g = false) -> filter sel d = [].
Proof.
  induction d as [|g d IH]; intros H; [reflexivity|].
  cbn [filter]. rewrite (H g (or_introl eq_refl)).
  apply IH. intros g' Hg'. apply H. right. exact Hg'.
Qed.

(** X16: after rendering a text made of well-formed tags, anchors and text
    without [<] with [process_geocoded_text], no entity tag is left:
    [count_entities_by_type] counts none of any kind, and
    [validate_xml_format] holds of the result. *)
Theorem no_tag_after_rendering (d : document) :
  Forall clean d ->
  count_entities_by_type (process_geocoded_text (doc_text d))
  = [(T "GPE", 0); (T "LOC", 0); (T "address", 0); (T "total", 0)] /\
  validate_xml_format (process_geocoded_text (doc_text d)) = true.
Proof.
  intros Hd. unfold process_geocoded_text.
  assert (Hwf : Forall well_formed d).
  { eapply Forall_impl; [|exact Hd]. apply clean_well_formed. }
  rewrite (transform_document Hwf), rendered_document.
  assert (Hc : Forall clean (map after_all d)).
  { apply Forall_map. eapply Forall_impl; [|exact Hd]. intros g Hg.
    apply (after_all_clean _ Hg). }
  assert (Hk : forall g, In g (map after_all d) -> tag_kind g = None).
  { intros g Hg. apply in_map_iff in Hg. destruct Hg as (g0 & <- & Hg0).
    rewrite Forall_forall in Hd. apply (after_all_clean _ (Hd g0 Hg0)). }
  split.
  - unfold count_entities_by_type.
    rewrite (count_gpe_tags Hc), (count_loc_tags Hc), (count_address_tags Hc).
    unfold count_kind.
    rewrite !no_tag_filter; [reflexivity | ..];
      intros g Hg; unfold has_kind; rewrite (Hk g Hg); reflexivity.
  - unfold validate_xml_format.
    rewrite (count_current Hc), (count_legacy Hc), (count_entity_tags Hc).
    rewrite !no_tag_filter; [reflexivity | ..];
      intros g Hg; specialize (Hk g Hg); destruct g; try discriminate Hk; reflexivity.
Qed.

Lemma no_tag_after_rendering_witness :
  count_entities_by_type (process_geocoded_text (doc_text sample_document))
  = [(T "GPE", 0); (T "LOC", 0); (T "address", 0); (T "total", 0)] /\
  validate_xml_format (process_geocoded_text (doc_text sample_document)) = true.
Proof. exact (no_tag_after_rendering sample_document_clean). Defined.

(* ================================================================== *)
(** * The configuration file *)
(* ================================================================== *)

Lemma key_start_facts c :
  is_key_start c = true ->
  cset_match false (CS false [CRange "A" "Z"; CRange "a" "z"; CChar "_"]) c = true /\
  Char.is_space c = false /\ Ascii.eqb "#" c = false /\
  Config.is_line_break c = false /\ is_key_char c = true.
Proof.
  destruct c as [[] [] [] [] [] [] [] []]; intros H; try discriminate H;
    repeat split; reflexivity.
Qed.

Lemma key_char_facts c :
  is_key_char c = true ->
  cset_match false
    (CS false [CRange "A" "Z"; CRange "a" "z"; CRange "0" "9"; CChar "_"]) c = true /\
  Config.is_line_break c = false.
Proof.
  destruct c as [[] [] [] [] [] [] [] []]; intros H; try discriminate H;
    repeat split; reflexivity.
Qed.

Lemma key_one_line key : key_ok key -> one_line key.
Proof.
  destruct key as [|c rest]; [contradiction|]. intros [Hc Hr].
  constructor; [apply key_start_facts; exact Hc|].
  eapply Forall_impl; [|exact Hr]. intros d Hd. apply key_char_facts. exact Hd.
Qed.

(** ** Lines *)

Lemma splitlines_line : forall line cur rest,
  one_line line ->
  Config.splitlines_loop cur (line ++ newline :: rest)
  = (rev cur ++ line) :: Config.splitlines_loop [] rest.
Proof.
  induction line as [|c line IH]; intros cur rest Hl.
  - cbn [app Config.splitlines_loop]. rewrite app_nil_r.
    change (Config.is_line_break newline) with true. cbn iota.
    destruct rest; reflexivity.
  - inversion Hl as [|? ? Hc Hl']. subst.
    cbn [app Config.splitlines_loop]. rewrite Hc.
    rewrite (IH (c :: cur) rest Hl'). cbn [rev]. rewrite <- app_assoc. reflexivity.
Qed.

Lemma entry_one_line e : entry_ok e -> one_line (entry_line e).
Proof.
  destruct e as [key value|s|]; cbn [entry_ok entry_line].
  - intros [Hk (_ & _ & Hv)].
    apply Forall_app. split; [apply key_one_line; exact Hk|].
    repeat (constructor; [reflexivity|]).
    apply Forall_app. split; [exact Hv | repeat constructor].
  - intros Hs. constructor; [reflexivity | exact Hs].
  - constructor.
Qed.

Lemma splitlines_file es :
  Forall entry_ok es -> Config.splitlines (file_text es) = map entry_line es.
Proof.
  unfold Config.splitlines.
  induction 1 as [|e es He _ IH]; [reflexivity|].
  cbn [file_text flat_map map]. rewrite <- app_assoc. cbn [app].
  rewrite splitlines_line by (apply entry_one_line; exact He).
  cbn [rev app]. f_equal. exact IH.
Qed.

(** ** Stripping a line that begins with a visible character *)

Lemma lstrip_snoc : forall l c,
  Char.is_space c = false -> exists l', Str.lstrip (l ++ [c]) = l' ++ [c].
Proof.
  induction l as [|d l IH]; intros c Hc.
  - exists []. cbn. rewrite Hc. reflexivity.
  - cbn [app Str.lstrip]. destruct (Char.is_space d).
    + apply IH. exact Hc.
    + exists (d :: l). reflexivity.
Qed.

Lemma strip_visible c s :
  Char.is_space c = false -> exists u, Str.strip (c :: s) = c :: u.
Proof.
  intros Hc. unfold Str.strip. cbn [Str.lstrip]. rewrite Hc.
  unfold Str.rstrip. cbn [rev].
  destruct (lstrip_snoc (rev s) c Hc) as [l' ->].
  exists (rev l'). rewrite rev_app_distr. reflexivity.
Qed.

Lemma key_run (rest tail : text) :
  Forall (fun d => is_key_char d = true) rest ->
  run_of false (CS false [CRange "A" "Z"; CRange "a" "z"; CRange "0" "9"; CChar "_"])
    rest (" "%char :: tail).
Proof.
  intros H. split; [|reflexivity].
  eapply Forall_impl; [|exact H]. intros d Hd. apply key_char_facts. exact Hd.
Qed.

Lemma blank_run (x tail : text) (c : ascii) :
  Forall (fun d => Char.is_space d = true) x -> Char.is_space c = false ->
  run_of false (CS false [CSpace]) x (c :: tail).
Proof.
  intros H Hc. split.
  - eapply Forall_impl; [|exact H]. intros d Hd.
    unfold cset_match. cbn. rewrite Hd. reflexivity.
  - unfold cset_match. cbn. rewrite Hc. reflexivity.
Qed.

Lemma assignment_matches key value :
  key_ok key -> value_ok value ->
  exists m,
    Config.line_match (entry_line (Assign key value)) = Some m /\
    group 1 m = key /\ group 2 m = value.
Proof.
  destruct key as [|c0 krest]; [contradiction|].
  intros [Hc0 Hk] (Hv0 & Hvq & _).
  destruct (key_start_facts c0 Hc0) as (Hset & Hsp & _).
  unfold Config.line_match, try_match, Config.LINE_RE, entry_line.
  cbn [T list_ascii_of_string app].
  eexists. split.
  - cbn [rmatch ms_rest].
    change (c0 :: krest ++ " "%char :: "="%char :: " "%char :: dquote :: value ++ [dquote])
      with ([] ++ c0 :: krest ++ " "%char :: "="%char :: " "%char :: dquote :: value ++ [dquote]).
    erewrite rep_greedy_run;
      [ reflexivity | apply blank_run; [constructor | exact Hsp] | apply Nat.le_0_l
      | reflexivity | ].
    cbn [consumed last_or rev app ms_prev ms_acc ms_caps ms_rest rmatch].
    rewrite Hset. cbn [advance ms_prev ms_acc ms_caps ms_rest].
    erewrite rep_greedy_run;
      [ reflexivity | apply key_run; exact Hk | apply Nat.le_0_l | reflexivity | ].
    cbn.
    erewrite rep_greedy_run;
      [ reflexivity | apply value_run; exact Hvq | apply length_pos; exact Hv0
      | reflexivity | ].
    cbn. reflexivity.
  - split; unfold group; cbn; rewrite ?app_nil_r, ?rev_app_distr, ?rev_involutive.
    all: reflexivity.
Qed.

Lemma parse_entry cfg e :
  entry_ok e -> Config.parse_line cfg (entry_line e) = assigned cfg e.
Proof.
  destruct e as [key value|s|]; cbn [entry_ok assigned].
  - intros [Hk Hv]. unfold Config.parse_line.
    destruct (@assignment_matches key value Hk Hv) as (m & Hm & H1 & H2).
    rewrite Hm, H1, H2.
    destruct key as [|c0 krest]; [contradiction|].
    destruct (key_start_facts c0 (proj1 Hk)) as (_ & Hsp & Hhash & _).
    cbn [entry_line app].
    destruct (@strip_visible c0 (krest ++ T " = " ++ dquote :: value ++ [dquote]) Hsp) as [u ->].
    cbn [Str.starts_with T list_ascii_of_string orb]. rewrite Hhash. reflexivity.
  - intros _. unfold Config.parse_line. cbn [entry_line].
    destruct (@strip_visible "#"%char s eq_refl) as [u ->]. reflexivity.
  - intros _. reflexivity.
Qed.

Lemma parse_file (es : list entry) :
  Forall entry_ok es ->
  Config._parse_config (file_text es) = fold_left assigned es [].
Proof.
  intros H. unfold Config._parse_config. rewrite (splitlines_file H).
  generalize (@nil (text * text)).
  induction H as [|e es He _ IH]; intros cfg; [reflexivity|].
  cbn [map fold_left]. rewrite (@parse_entry cfg e He). apply IH.
Qed.

(** X17: [_parse_config] reads a file of assignments [KEY = "value"],
    comment lines and empty lines as the assignments it holds, in order: the
    key in upper case, a later assignment to a key replacing an earlier
    one, comments and empty lines ignored. *)
Theorem parse_written_config (es : list entry) :
  Forall entry_ok es ->
  Config._parse_config (file_text es) = fold_left assigned es [].
Proof. apply parse_file. Qed.

Ltac concrete_entries :=
  repeat first
    [ apply Forall_cons | apply Forall_nil
    | split
    | reflexivity
    | discriminate
    | let H := fresh in intros H; cbn in H; intuition discriminate ].

Lemma sample_config_ok : Forall entry_ok sample_config.
Proof. unfold sample_config. concrete_entries. Qed.

Lemma parse_written_config_witness :
  Config._parse_config (file_text sample_config)
  = [(T "SPACY_MODEL", T "en_core_web_lg"); (T "TIMEOUT", T "10")].
Proof. exact (parse_written_config sample_config_ok). Defined.

(** ** The cache *)

(** X18: after a call of [load_config] the cache holds the configuration
    returned, and a later call without [force] returns that configuration
    again, whatever has become of the file; so does the model name: once
    [get_spacy_model_name] has answered without an override, it gives the
    same answer again, whatever has become of the file. *)
Theorem config_is_cached (file file' : Config.config_file) (force : bool)
    (cache : option Config.config) :
  snd (Config.load_config file force cache) = Some (fst (Config.load_config file force cache)) /\
  Config.load_config file' false (snd (Config.load_config file force cache))
  = Config.load_config file force cache /\
  Config.get_spacy_model_name file' None
    (snd (Config.get_spacy_model_name file None cache))
  = Config.get_spacy_model_name file None cache.
Proof.
  unfold Config.get_spacy_model_name, Config.load_config. cbn [truthy_text].
  destruct cache as [cfg|], force, file; repeat split; reflexivity.
Qed.

(** ** The model name *)

Lemma get_set_same key value cfg : Config.get key (Config.set key value cfg) = Some value.
Proof.
  induction cfg as [|[k v] cfg IH]; cbn [Config.set Config.get].
  - rewrite (proj2 (str_eqb_eq key key) eq_refl). reflexivity.
  - destruct (Str.eqb key k) eqn:E; cbn [Config.get].
    + rewrite (proj2 (str_eqb_eq key key) eq_refl). reflexivity.
    + rewrite E. exact IH.
Qed.

Lemma get_set_other key key' value cfg :
  Str.eqb key key' = false ->
  Config.get key (Config.set key' value cfg) = Config.get key cfg.
Proof.
  intros Hne. induction cfg as [|[k v] cfg IH]; cbn [Config.set Config.get].
  - rewrite Hne. reflexivity.
  - destruct (Str.eqb key' k) eqn:E; cbn [Config.get].
    + apply str_eqb_eq in E. subst k. rewrite Hne. reflexivity.
    + destruct (Str.eqb key k); [reflexivity | exact IH].
Qed.

Lemma get_after : forall after cfg,
  Forall (fun e => assigns_model e = false) after ->
  Config.get (T "SPACY_MODEL") (fold_left assigned after cfg)
  = Config.get (T "SPACY_MODEL") cfg.
Proof.
  induction after as [|e after IH]; intros cfg H; [reflexivity|].
  inversion H as [|? ? He H']. subst. cbn [fold_left]. rewrite (@IH _ H').
  destruct e as [key value|s|]; try reflexivity.
  cbn [assigned]. apply get_set_other. exact He.
Qed.

(** X19: without an override, and with nothing cached, the model name is the
    value of the last assignment to [SPACY_MODEL] in the file, the key
    written in any letter case; the configuration parsed from the file is
    what the cache holds afterwards. *)
Theorem model_name_from_file (before after : list entry) (key value : text)
    (override : option text) :
  Forall entry_ok (before ++ Assign key value :: after) ->
  Config.upper key = T "SPACY_MODEL" ->
  Forall (fun e => assigns_model e = false) after ->
  truthy_text override = false ->
  Config.get_spacy_model_name
    (Config.Contents (file_text (before ++ Assign key value :: after))) override None
  = (value,
     Some (Config._parse_config (file_text (before ++ Assign key value :: after)))).
Proof.
  intros Hok Hkey Hafter Hov.
  assert (G : Config.get (T "SPACY_MODEL")
                (Config._parse_config
                   (file_text (before ++ Assign key value :: after)))
              = Some value).
  { rewrite (parse_file Hok).
    rewrite fold_left_app. cbn [fold_left assigned].
    rewrite (@get_after after _ Hafter), Hkey, get_set_same. reflexivity. }
  unfold Config.get_spacy_model_name, Config.load_config. rewrite Hov.
  rewrite G. reflexivity.
Qed.

Lemma model_name_from_file_witness :
  Config.get_spacy_model_name (Config.Contents (file_text sample_config)) None None
  = (T "en_core_web_lg",
     Some [(T "SPACY_MODEL", T "en_core_web_lg"); (T "TIMEOUT", T "10")]).
Proof.
  apply (@model_name_from_file
           [Comment (T " which model to load");
            Assign (T "spacy_model") (T "en_core_web_sm");
            Blank;
            Assign (T "timeout") (T "10")]
           [] (T "Spacy_Model") (T "en_core_web_lg") None).
  - exact sample_config_ok.
  - reflexivity.
  - constructor.
  - reflexivity.
Defined.

(* ================================================================== *)
(** * Tagging, then rendering *)
(* ================================================================== *)

(** ** [str.replace] on a text with tags *)

(** A match of [c] does not reach past a character that [c] lacks. *)
Lemma starts_with_short : forall (c u : text) ch rest,
  ~ In ch c -> List.length u < List.length c ->
  Str.starts_with c (u ++ ch :: rest) = false.
Proof.
  induction c as [|x c IH]; intros u ch rest Hin Hlen; [simpl in Hlen; lia|].
  destruct u as [|a u]; cbn [app Str.starts_with].
  - destruct (Ascii.eqb x ch) eqn:E; [|reflexivity].
    apply Ascii.eqb_eq in E. subst. exfalso. apply Hin. left. reflexivity.
  - rewrite IH; [apply andb_false_r | intros H; apply Hin; right; exact H
                | simpl in Hlen; lia].
Qed.

Lemma starts_with_local : forall (c x : text) ch rest,
  ~ In ch c -> Str.starts_with c (x ++ ch :: rest) = Str.starts_with c x.
Proof.
  induction c as [|y c IH]; intros x ch rest Hin; [reflexivity|].
  destruct x as [|a x]; cbn [app Str.starts_with].
  - destruct (Ascii.eqb y ch) eqn:E; [|reflexivity].
    apply Ascii.eqb_eq in E. subst. exfalso. apply Hin. left. reflexivity.
  - rewrite IH; [reflexivity | intros H; apply Hin; right; exact H].
Qed.

Lemma starts_with_length : forall (c x : text),
  Str.starts_with c x = true -> List.length c <= List.length x.
Proof.
  intros c x H. destruct (starts_with_app _ _ H) as [rest ->].
  rewrite length_app. lia.
Qed.

Section Replacing.

Variables c new : text.

(** A match that starts before a character absent from [c] ends before it. *)
Lemma replace_split ch : ~ In ch c -> c <> [] ->
  forall x skip rest, skip <= List.length x ->
    Str.replace_loop c new skip (x ++ ch :: rest)
    = Str.replace_loop c new skip x ++ Str.replace_loop c new 0 (ch :: rest).
Proof.
  intros Hin Hne. induction x as [|a x IH]; intros skip rest Hs.
  - simpl in Hs. assert (skip = 0) by lia. subst. reflexivity.
  - destruct skip as [|n].
    + cbn [app Str.replace_loop].
      change (a :: x ++ ch :: rest) with ((a :: x) ++ ch :: rest).
      rewrite (@starts_with_local c (a :: x) ch rest Hin).
      destruct (Str.starts_with c (a :: x)) eqn:E.
      * rewrite IH, app_assoc; [reflexivity|].
        apply starts_with_length in E. simpl in E. lia.
      * rewrite IH by lia. reflexivity.
    + cbn [app Str.replace_loop]. apply IH. simpl in Hs. lia.
Qed.

Lemma replace_past ch : ~ In ch c ->
  forall u rest, List.length u < List.length c ->
    Str.replace_loop c new 0 (u ++ ch :: rest) = u ++ ch :: Str.replace_loop c new 0 rest.
Proof.
  intros Hin. induction u as [|a u IH]; intros rest Hlen.
  - cbn [app Str.replace_loop].
    pose proof (@starts_with_short c [] ch rest Hin Hlen) as E. cbn [app] in E.
    rewrite E. reflexivity.
  - cbn [app Str.replace_loop].
    change (a :: u ++ ch :: rest) with ((a :: u) ++ ch :: rest).
    rewrite (@starts_with_short c (a :: u) ch rest Hin Hlen).
    rewrite IH; [reflexivity | simpl in Hlen; lia].
Qed.

Lemma replace_absent : forall b,
  Str.contains c b = false -> Str.replace_loop c new 0 b = b.
Proof.
  induction b as [|a b IH]; intros H; [reflexivity|].
  cbn [Str.contains] in H. apply orb_false_iff in H. destruct H as [H1 H2].
  cbn [Str.replace_loop]. rewrite H1, IH; [reflexivity | exact H2].
Qed.

Lemma replace_skip : forall p s,
  Str.replace_loop c new (List.length p) (p ++ s) = Str.replace_loop c new 0 s.
Proof.
  induction p as [|a p IH]; intros s; [reflexivity|].
  destruct s as [|b s].
  - rewrite app_nil_r. clear IH. cbn [List.length].
    assert (G : forall q n, List.length q <= n -> Str.replace_loop c new n q = []).
    { induction q as [|z q IHq]; intros n Hn; [reflexivity|].
      destruct n as [|n]; [simpl in Hn; lia|]. cbn [Str.replace_loop].
      apply IHq. simpl in Hn. lia. }
    rewrite G; [reflexivity | simpl; lia].
  - cbn [List.length app Str.replace_loop]. apply IH.
Qed.

End Replacing.

Lemma starts_with_self : forall (c rest : text), Str.starts_with c (c ++ rest) = true.
Proof.
  induction c as [|a c IH]; intros rest; [reflexivity|].
  cbn [app Str.starts_with]. rewrite Ascii.eqb_refl. apply IH.
Qed.

Lemma replace_match (c new rest : text) : c <> [] ->
  Str.replace_loop c new 0 (c ++ rest) = new ++ Str.replace_loop c new 0 rest.
Proof.
  intros Hne. destruct c as [|y c']; [congruence|].
  cbn [app Str.replace_loop].
  change (y :: c' ++ rest) with ((y :: c') ++ rest).
  rewrite starts_with_self. cbn [List.length pred].
  rewrite replace_skip. reflexivity.
Qed.

(** ** Texts with tags beside one another *)

Lemma tagged_flat_mono W W' t s :
  (forall c, In c W -> In c W') -> tagged_flat W t s -> tagged_flat W' t s.
Proof.
  intros Hsub H. induction H as [x|x c y s Hc Hne H IH].
  - apply flat_leaf.
  - apply flat_wrap; auto.
Qed.

Lemma tagged_flat_cons W a t s : tagged_flat W t s -> tagged_flat W (a :: t) (a :: s).
Proof.
  intros H. destruct H as [x|x c y s Hc Hne H].
  - apply flat_leaf.
  - apply (@flat_wrap W (a :: x) c y s Hc Hne H).
Qed.

Lemma tagged_flat_app W : forall x sx, tagged_flat W x sx ->
  forall b y sy, In b W -> b <> [] -> tagged_flat W y sy ->
  tagged_flat W (x ++ b ++ y) (sx ++ wrap b ++ sy).
Proof.
  intros x sx H. induction H as [x|x c y0 s Hc Hne H IH]; intros b y sy Hb Hbne Hy.
  - apply flat_wrap; assumption.
  - rewrite <- !app_assoc.
    apply flat_wrap; [assumption | assumption |].
    apply IH; assumption.
Qed.

(** Replacing in a text without tags. *)
Lemma replace_leaf c : c <> [] ->
  forall n x, List.length x <= n ->
    tagged_flat [c] x (Str.replace_loop c (wrap c) 0 x).
Proof.
  intros Hne. induction n as [|n IH]; intros x Hn.
  - destruct x; [apply flat_leaf | simpl in Hn; lia].
  - destruct x as [|a x]; [apply flat_leaf|].
    destruct (Str.starts_with c (a :: x)) eqn:E.
    + destruct (starts_with_app _ _ E) as [rest Hr]. rewrite Hr.
      rewrite replace_match by exact Hne.
      apply (@flat_wrap [c] [] c rest _ (or_introl eq_refl) Hne).
      apply IH.
      assert (L : List.length (a :: x) = List.length (c ++ rest)) by (rewrite Hr; reflexivity).
      rewrite length_app in L. simpl in L, Hn.
      destruct c; [congruence | simpl in L; lia].
    + cbn [Str.replace_loop]. rewrite E.
      apply tagged_flat_cons. apply IH. simpl in Hn. lia.
Qed.

(** The replacement passes over a tag: a candidate without [<] and [>],
    longer than the tag's name, matches nowhere inside it. *)
Lemma replace_tag c new rest :
  ~ In lt c -> ~ In gt c -> 8 < List.length c ->
  Str.replace_loop c new 0 (T "<address>" ++ rest)
    = T "<address>" ++ Str.replace_loop c new 0 rest /\
  Str.replace_loop c new 0 (T "</address>" ++ rest)
    = T "</address>" ++ Str.replace_loop c new 0 rest.
Proof.
  intros Hlt Hgt Hlen. split.
  - change (T "<address>" ++ rest) with ([] ++ lt :: (T "address" ++ gt :: rest)).
    rewrite (@replace_past c new lt Hlt []) by (simpl; lia).
    rewrite (@replace_past c new gt Hgt (T "address")) by (simpl; lia).
    reflexivity.
  - change (T "</address>" ++ rest) with ([] ++ lt :: (T "/address" ++ gt :: rest)).
    rewrite (@replace_past c new lt Hlt []) by (simpl; lia).
    rewrite (@replace_past c new gt Hgt (T "/address")) by (simpl; lia).
    reflexivity.
Qed.

(** Replacing in a text with tags, none inside another. *)
Lemma replace_flat c W t s :
  ~ In lt c -> ~ In gt c -> 8 < List.length c ->
  (forall b, In b W -> Str.contains c b = false) ->
  tagged_flat W t s ->
  tagged_flat (c :: W) t (Str.replace_loop c (wrap c) 0 s).
Proof.
  intros Hlt Hgt Hlen Habs H.
  assert (Hne : c <> []) by (destruct c; [simpl in Hlen; lia | discriminate]).
  assert (Leaf : forall x, tagged_flat (c :: W) x (Str.replace_loop c (wrap c) 0 x)).
  { intros x. apply (@tagged_flat_mono [c]).
    - intros c' [<-|[]]. left. reflexivity.
    - apply (@replace_leaf c Hne (List.length x)). lia. }
  induction H as [x|x b y s Hb Hbne H IH]; [apply Leaf|].
  assert (E : Str.replace_loop c (wrap c) 0 (x ++ wrap b ++ s)
              = Str.replace_loop c (wrap c) 0 x ++ wrap b
                ++ Str.replace_loop c (wrap c) 0 s).
  { assert (E1 : x ++ wrap b ++ s
                 = x ++ lt :: (T "address>" ++ b ++ T "</address>" ++ s)).
    { unfold wrap. rewrite <- !app_assoc. reflexivity. }
    rewrite E1, (@replace_split c (wrap c) lt Hlt Hne x) by lia.
    change (lt :: T "address>" ++ b ++ T "</address>" ++ s)
      with (T "<address>" ++ b ++ lt :: (T "/address>" ++ s)).
    rewrite (proj1 (@replace_tag c (wrap c) _ Hlt Hgt Hlen)).
    rewrite (@replace_split c (wrap c) lt Hlt Hne b) by lia.
    rewrite (@replace_absent c (wrap c) b (Habs b Hb)).
    change (lt :: T "/address>" ++ s) with (T "</address>" ++ s).
    rewrite (proj2 (@replace_tag c (wrap c) _ Hlt Hgt Hlen)).
    unfold wrap. rewrite <- !app_assoc. reflexivity. }
  rewrite E.
  apply tagged_flat_app; [apply Leaf | right; exact Hb | exact Hbne | exact IH].
Qed.

Lemma not_in_app_inv (d : ascii) (u v : text) : ~ In d (u ++ v) -> ~ In d u /\ ~ In d v.
Proof. intros H. split; intros Hin; apply H; apply in_or_app; auto. Qed.

Lemma substring_not_in (d : ascii) (c t : text) :
  substring_of c t -> ~ In d t -> ~ In d c.
Proof.
  intros (pre & post & ->) H Hin. apply H.
  apply in_or_app. right. apply in_or_app. left. exact Hin.
Qed.

Lemma not_in_by_eqb (d : ascii) (v : text) :
  existsb (Ascii.eqb d) v = false -> ~ In d v.
Proof.
  intros H Hin.
  assert (X : existsb (Ascii.eqb d) v = true).
  { apply existsb_exists. exists d. split; [exact Hin | apply Ascii.eqb_refl]. }
  congruence.
Qed.

Lemma contains_app_l : forall (c x y : text),
  Str.contains c x = true -> Str.contains c (x ++ y) = true.
Proof.
  intros c x y. induction x as [|a x IH]; intros H.
  - cbn [Str.contains] in H. rewrite orb_false_r in H.
    destruct c; [|discriminate H]. destruct y; reflexivity.
  - cbn [Str.contains] in H. apply orb_true_iff in H.
    cbn [app Str.contains]. apply orb_true_iff. destruct H as [H|H].
    + left. destruct (starts_with_app _ _ H) as [rest E].
      change (a :: x ++ y) with ((a :: x) ++ y). rewrite E, <- app_assoc.
      apply starts_with_self.
    + right. apply IH. exact H.
Qed.

Lemma contains_app_r : forall (c x y : text),
  Str.contains c y = true -> Str.contains c (x ++ y) = true.
Proof.
  intros c x y H. induction x as [|a x IH]; [exact H|].
  cbn [app Str.contains]. rewrite IH. apply orb_true_r.
Qed.

Lemma contains_parts (c x b y : text) :
  Str.contains c (x ++ b ++ y) = false ->
  Str.contains c x = false /\ Str.contains c b = false /\ Str.contains c y = false.
Proof.
  intros H. repeat split.
  - destruct (Str.contains c x) eqn:E; [|reflexivity].
    rewrite (contains_app_l _ _ (b ++ y) E) in H. discriminate H.
  - destruct (Str.contains c b) eqn:E; [|reflexivity].
    rewrite (contains_app_r _ x _ (contains_app_l _ _ y E)) in H. discriminate H.
  - destruct (Str.contains c y) eqn:E; [|reflexivity].
    rewrite (contains_app_r _ x _ (contains_app_r _ b _ E)) in H. discriminate H.
Qed.

Section Passing.

Variable c : text.
Hypothesis Hlt : ~ In lt c.
Hypothesis Hgt : ~ In gt c.
Hypothesis Hlen : 8 < List.length c.

Lemma long_not_nil : c <> [].
Proof. destruct c; [simpl in Hlen; lia | discriminate]. Qed.

(** The replacement works apart before, inside and after a tag. *)
Lemma replace_over_tags x sb s :
  Str.replace_loop c (wrap c) 0 (x ++ T "<address>" ++ sb ++ T "</address>" ++ s)
  = Str.replace_loop c (wrap c) 0 x ++ T "<address>"
    ++ Str.replace_loop c (wrap c) 0 sb ++ T "</address>"
    ++ Str.replace_loop c (wrap c) 0 s.
Proof.
  pose proof long_not_nil as Hne.
  change (x ++ T "<address>" ++ sb ++ T "</address>" ++ s)
    with (x ++ lt :: (T "address>" ++ sb ++ T "</address>" ++ s)).
  rewrite (@replace_split c (wrap c) lt Hlt Hne x) by lia.
  change (lt :: T "address>" ++ sb ++ T "</address>" ++ s)
    with (T "<address>" ++ sb ++ lt :: (T "/address>" ++ s)).
  rewrite (proj1 (@replace_tag c (wrap c) _ Hlt Hgt Hlen)).
  rewrite (@replace_split c (wrap c) lt Hlt Hne sb) by lia.
  change (lt :: T "/address>" ++ s) with (T "</address>" ++ s).
  rewrite (proj2 (@replace_tag c (wrap c) _ Hlt Hgt Hlen)).
  reflexivity.
Qed.

(** Where the candidate does not occur in the text, it does not occur in
    its tagging. *)
Lemma replace_flat_absent W b sb :
  tagged_flat W b sb -> Str.contains c b = false ->
  Str.replace_loop c (wrap c) 0 sb = sb.
Proof.
  intros H. induction H as [x|x b y s Hb Hbne H IH]; intros Habs.
  - apply replace_absent. exact Habs.
  - apply contains_parts in Habs. destruct Habs as (Hx & Hb' & Hy).
    assert (E : x ++ wrap b ++ s = x ++ T "<address>" ++ b ++ T "</address>" ++ s)
      by (unfold wrap; rewrite <- !app_assoc; reflexivity).
    rewrite E, replace_over_tags.
    rewrite (@replace_absent c (wrap c) x Hx), (@replace_absent c (wrap c) b Hb'), (IH Hy).
    reflexivity.
Qed.

(** ** Tags two deep *)

Lemma tagged_two_mono W1 W2 W1' W2' t s :
  (forall b, In b W1 -> In b W1') -> (forall b, In b W2 -> In b W2') ->
  tagged_two W1 W2 t s -> tagged_two W1' W2' t s.
Proof.
  intros H1 H2 H. induction H as [x|x b y sb s Hb Hne Hsb H IH].
  - apply two_leaf.
  - apply two_wrap; auto. eapply tagged_flat_mono; [exact H2 | exact Hsb].
Qed.

Lemma tagged_flat_two W W1 W2 t s :
  (forall b, In b W -> In b W1) -> tagged_flat W t s -> tagged_two W1 W2 t s.
Proof.
  intros Hsub H. induction H as [x|x b y s Hb Hne H IH].
  - apply two_leaf.
  - unfold wrap. rewrite <- !app_assoc.
    apply two_wrap; [apply Hsub; exact Hb | exact Hne | apply flat_leaf | exact IH].
Qed.

Lemma tagged_two_app W1 W2 : forall x sx, tagged_two W1 W2 x sx ->
  forall b y sb sy, In b W1 -> b <> [] -> tagged_flat W2 b sb -> tagged_two W1 W2 y sy ->
  tagged_two W1 W2 (x ++ b ++ y) (sx ++ T "<address>" ++ sb ++ T "</address>" ++ sy).
Proof.
  intros x sx H.
  induction H as [x|x b0 y0 sb0 s0 Hb0 Hne0 Hsb0 H IH]; intros b y sb sy Hb Hne Hsb Hy.
  - apply two_wrap; assumption.
  - rewrite <- !app_assoc.
    apply two_wrap; [assumption | assumption | assumption |].
    apply IH; assumption.
Qed.

Lemma replace_leaf_two W1 W2 x :
  tagged_two (c :: W1) W2 x (Str.replace_loop c (wrap c) 0 x).
Proof.
  apply (@tagged_flat_two [c]).
  - intros b [<-|[]]. left. reflexivity.
  - apply (@replace_leaf c long_not_nil (List.length x)). lia.
Qed.

(** A candidate found inside tags, but inside no tag that lies in
    another. *)
Lemma replace_two_inside W1 W2 t s :
  (forall b, In b W2 -> Str.contains c b = false) ->
  tagged_two W1 W2 t s ->
  tagged_two (c :: W1) (c :: W2) t (Str.replace_loop c (wrap c) 0 s).
Proof.
  intros Habs H. induction H as [x|x b y sb s Hb Hne Hsb H IH].
  - eapply tagged_two_mono; [| |apply (@replace_leaf_two W1 W2 x)]; auto.
    intros b Hb. right. exact Hb.
  - rewrite replace_over_tags.
    apply tagged_two_app.
    + eapply tagged_two_mono; [| |apply (@replace_leaf_two W1 W2 x)]; auto.
      intros b' Hb'. right. exact Hb'.
    + right. exact Hb.
    + exact Hne.
    + apply replace_flat; assumption.
    + exact IH.
Qed.

(** A candidate found inside no tag. *)
Lemma replace_two_outside W1 W2 t s :
  (forall b, In b W1 -> Str.contains c b = false) ->
  tagged_two W1 W2 t s ->
  tagged_two (c :: W1) W2 t (Str.replace_loop c (wrap c) 0 s).
Proof.
  intros Habs H. induction H as [x|x b y sb s Hb Hne Hsb H IH].
  - apply replace_leaf_two.
  - rewrite replace_over_tags.
    rewrite (replace_flat_absent Hsb (Habs b Hb)).
    apply tagged_two_app.
    + apply replace_leaf_two.
    + right. exact Hb.
    + exact Hne.
    + exact Hsb.
    + exact IH.
Qed.

End Passing.

Lemma not_exists_contains c (l : list text) :
  existsb (Str.contains c) l = false -> forall b, In b l -> Str.contains c b = false.
Proof.
  intros H b Hb. destruct (Str.contains c b) eqn:E; [|reflexivity].
  assert (X : existsb (Str.contains c) l = true)
    by (apply existsb_exists; exists b; auto).
  congruence.
Qed.

(** The loop of lines 271-283 keeps the tags at most two deep when no
    accepted candidate occurs inside one that is inside another. *)
Lemma tag_candidates_two requests_put self t : forall cands W1 W2 tagged out,
  (forall c, In c cands -> ~ In lt c /\ ~ In gt c /\ 8 < List.length c) ->
  two_deep (accepted requests_put self) W1 W2 cands = true ->
  tagged_two W1 W2 t tagged ->
  snd (tag_candidates requests_put self cands tagged) = Return out ->
  exists W1' W2', tagged_two W1' W2' t out.
Proof.
  induction cands as [|c cands IH]; intros W1 W2 tagged out Hc Hap Htwo H.
  - injection H as <-. exists W1, W2. exact Htwo.
  - cbn [tag_candidates] in H. unfold validate, observe, bind in H.
    cbn [two_deep] in Hap. unfold accepted at 1 in Hap.
    destruct (parse_address_with_shipengine requests_put self c) as [r|e]; [|discriminate H].
    destruct (Hc c (or_introl eq_refl)) as (Hlt & Hgt & Hlen).
    assert (Hrest : forall c', In c' cands ->
                      ~ In lt c' /\ ~ In gt c' /\ 8 < List.length c')
      by (intros c' Hin; apply Hc; right; exact Hin).
    destruct (is_some r && is_valid_address r)%bool.
    + assert (Step : exists W1' W2',
                two_deep (accepted requests_put self) W1' W2' cands = true /\
                tagged_two W1' W2' t tagged /\
                tagged_two W1' W2' t (Str.replace c (wrap c) tagged)).
      { assert (Er : Str.replace c (wrap c) tagged = Str.replace_loop c (wrap c) 0 tagged).
        { destruct c; [simpl in Hlen; lia | reflexivity]. }
        rewrite Er.
        destruct (existsb (Str.contains c) W1) eqn:Ein.
        - apply andb_true_iff in Hap. destruct Hap as [Hout Hap].
          rewrite forallb_forall in Hout.
          exists (c :: W1), (c :: W2). split; [exact Hap|]. split.
          + eapply tagged_two_mono; [| |exact Htwo]; intros b Hb; right; exact Hb.
          + apply replace_two_inside; try assumption.
            intros b Hb. apply negb_true_iff. apply Hout. exact Hb.
        - exists (c :: W1), W2. split; [exact Hap|]. split.
          + eapply tagged_two_mono; [| |exact Htwo]; auto. intros b Hb; right; exact Hb.
          + apply replace_two_outside; try assumption.
            apply not_exists_contains. exact Ein. }
      destruct Step as (W1' & W2' & Hap' & Hsame & Hrep).
      destruct (negb (Str.contains (wrap c) tagged)).
      * specialize (IH W1' W2' _ out Hrest Hap' Hrep).
        destruct (tag_candidates requests_put self cands _) as [tr' res'].
        apply IH. exact H.
      * specialize (IH W1' W2' _ out Hrest Hap' Hsame).
        destruct (tag_candidates requests_put self cands _) as [tr' res'].
        apply IH. exact H.
    + specialize (IH W1 W2 _ out Hrest Hap Htwo).
      destruct (tag_candidates requests_put self cands _) as [tr' res'].
      apply IH. exact H.
Qed.

(** ** The renderer on tags two deep *)

(** The fourth pattern on an address tag without coordinates. *)
Lemma address_on_bare txt rest prev :
  inner_text txt ->
  exists st,
    try_match false address_pattern prev (seg_text (Bare Address txt) ++ rest) = Some st /\
    ms_rest st = rest /\ ms_acc st <> [] /\ group 1 st = txt.
Proof.
  intros [Hne Hlt].
  normalize_text; unfold try_match, address_pattern.
  eexists; split; [run_match|];
    split; [reflexivity|]; split; [discriminate | group_text].
Qed.

(** The third pattern does not match at a tag that has a tag inside. *)
Lemma simple_skips_nest x rest prev :
  ~ In lt x ->
  try_match false simple_pattern prev (T "<address>" ++ x ++ lt :: "a"%char :: rest) = None.
Proof.
  intros Hx. unfold try_match, simple_pattern.
  cbn [T list_ascii_of_string app]. cbn.
  rewrite rep_greedy_fail; [reflexivity | reflexivity | reflexivity |].
  intros x2 [pv ac rs cp] [x1 E] Hrs. cbn in Hrs. subst rs.
  destruct x2 as [|c x2]; cbn; [reflexivity|].
  assert (H : Ascii.eqb c lt = false).
  { apply Ascii.eqb_neq. intros ->. apply Hx. rewrite E.
    apply in_or_app. right. left. reflexivity. }
  unfold lit_match, fold. unfold lt in H. rewrite H. reflexivity.
Qed.

Section Markup.

Variable r : regex.
Hypothesis Hlt : starts_with_lt r.
Hypothesis Hskip : skips_markup r.

Lemma inert_closing : inert false r (T "</address>").
Proof.
  change (T "</address>") with (lt :: T "/address>").
  apply inert_open; [exact Hlt | unfold lt; cbn; intuition discriminate |].
  intros prev rest. apply (proj1 Hskip).
Qed.

Lemma sub_inert repl s : inert false r s -> sub false r repl s = s.
Proof.
  intros Hi. unfold sub, scan. fold (sub_from false r repl None s).
  destruct (@sub_from_inert false r repl s [] None Hi) as [prev' E].
  rewrite app_nil_r in E. rewrite E, sub_from_nil, app_nil_r; [reflexivity|].
  apply Hskip.
Qed.

Hypothesis Hbare : skips_bare r.

Lemma inert_opening : inert false r (T "<address>").
Proof. apply (@inert_bare_open r Hlt Address Hbare). Qed.

Lemma tagged_flat_inert W t s :
  tagged_flat W t s -> ~ In lt t -> inert false r s.
Proof.
  intros H. induction H as [x|x c y s Hc Hne H IH]; intros Ht.
  - apply inert_lt_free; assumption.
  - apply not_in_app_inv in Ht. destruct Ht as [Hx Ht].
    apply not_in_app_inv in Ht. destruct Ht as [Hcl Hy].
    apply inert_app; [apply inert_lt_free; assumption|].
    apply inert_app; [|apply IH; exact Hy].
    unfold wrap. apply inert_app; [apply inert_opening|].
    apply inert_app; [apply inert_lt_free; assumption | apply inert_closing].
Qed.

Lemma tagged_two_inert W1 W2 t s :
  tagged_two W1 W2 t s -> ~ In lt t -> inert false r s.
Proof.
  intros H. induction H as [x|x b y sb s Hb Hne Hsb H IH]; intros Ht.
  - apply inert_lt_free; assumption.
  - apply not_in_app_inv in Ht. destruct Ht as [Hx Ht].
    apply not_in_app_inv in Ht. destruct Ht as [Hbl Hy].
    apply inert_app; [apply inert_lt_free; assumption|].
    apply inert_app; [apply inert_opening|].
    apply inert_app; [apply (tagged_flat_inert Hsb Hbl)|].
    apply inert_app; [apply inert_closing | apply IH; exact Hy].
Qed.

End Markup.

(** A pattern that matches every address tag without coordinates takes
    the tags of a text away when none is inside another. *)
Section Strip.

Variable r : regex.
Variable n : nat.
Hypothesis Hlt : starts_with_lt r.
Hypothesis Hmatch : forall txt rest prev,
  inner_text txt ->
  exists st,
    try_match false r prev (seg_text (Bare Address txt) ++ rest) = Some st /\
    ms_rest st = rest /\ ms_acc st <> [] /\ group n st = txt.

Lemma strip_wrap c rest prev :
  c <> [] -> ~ In lt c ->
  exists prev',
    sub_from false r (group n) prev (wrap c ++ rest)
    = c ++ sub_from false r (group n) prev' rest.
Proof.
  intros Hne Hc.
  destruct (@Hmatch c rest prev (conj Hne Hc)) as (st & Hm & Hrest & Hacc & Hg).
  change (wrap c) with (seg_text (Bare Address c)).
  destruct (@sub_from_match false r (group n) _ _ _ Hm Hacc) as [prev' Hs].
  exists prev'. rewrite Hs, Hrest, Hg. reflexivity.
Qed.

Lemma strip_flat W t s :
  tagged_flat W t s -> ~ In lt t ->
  forall rest prev, exists prev',
    sub_from false r (group n) prev (s ++ rest)
    = t ++ sub_from false r (group n) prev' rest.
Proof.
  intros H. induction H as [x|x c y s Hc Hne H IH]; intros Ht rest prev.
  - apply sub_from_inert. apply inert_lt_free; assumption.
  - apply not_in_app_inv in Ht. destruct Ht as [Hx Ht].
    apply not_in_app_inv in Ht. destruct Ht as [Hcl Hy].
    rewrite <- !app_assoc.
    destruct (@sub_from_inert false r (group n) x (wrap c ++ s ++ rest) prev
                (inert_lt_free Hlt Hx)) as [p1 E1].
    destruct (@strip_wrap c (s ++ rest) p1 Hne Hcl) as [p2 E2].
    destruct (IH Hy rest p2) as [p3 E3].
    exists p3. rewrite E1, E2, E3, <- !app_assoc. reflexivity.
Qed.

End Strip.

(** ** The substitutions on tags two deep *)

Lemma tagged_flat_prepend W p t s : tagged_flat W t s -> tagged_flat W (p ++ t) (p ++ s).
Proof.
  intros H. induction p as [|a p IH]; [exact H|].
  cbn [app]. apply tagged_flat_cons. exact IH.
Qed.

(** The third substitution on a text with tags two deep. *)
Lemma strip_two W1 W2 t s :
  tagged_two W1 W2 t s -> ~ In lt t ->
  forall rest prev, exists prev' s3,
    sub_from false simple_pattern (group 2) prev (s ++ rest)
    = s3 ++ sub_from false simple_pattern (group 2) prev' rest /\
    tagged_flat W1 t s3.
Proof.
  pose proof simple_pattern_starts_with_lt as Hlt.
  pose proof simple_pattern_skips_markup as Hskip.
  assert (Hbare : forall txt rest prev, inner_text txt ->
    exists st,
      try_match false simple_pattern prev (seg_text (Bare Address txt) ++ rest) = Some st /\
      ms_rest st = rest /\ ms_acc st <> [] /\ group 2 st = txt).
  { intros txt rest prev Htxt. apply simple_on_bare. exact Htxt. }
  intros H. induction H as [x|x b y sb s Hb Hne Hsb H IH]; intros Ht rest prev.
  - destruct (@sub_from_inert false simple_pattern (group 2) x rest prev
                (inert_lt_free Hlt Ht)) as [p1 E1].
    exists p1, x. split; [exact E1 | apply flat_leaf].
  - apply not_in_app_inv in Ht. destruct Ht as [Hx Ht].
    apply not_in_app_inv in Ht. destruct Ht as [Hbl Hy].
    rewrite <- !app_assoc.
    destruct (@sub_from_inert false simple_pattern (group 2) x
                (T "<address>" ++ sb ++ T "</address>" ++ s ++ rest) prev
                (inert_lt_free Hlt Hx)) as [p1 E1].
    rewrite E1.
    destruct Hsb as [b|x0 c0 y0 s0 Hc0 Hne0 Hs0].
    + (* no tag inside: the tag goes *)
      assert (Ew : T "<address>" ++ b ++ T "</address>" ++ s ++ rest
                   = wrap b ++ s ++ rest)
        by (unfold wrap; rewrite <- !app_assoc; reflexivity).
      rewrite Ew.
      destruct (@strip_wrap simple_pattern 2 Hbare b (s ++ rest) p1 Hne Hbl) as [p2 E2].
      destruct (IH Hy rest p2) as (p3 & s3 & E3 & F3).
      exists p3, (x ++ b ++ s3). rewrite E2, E3, <- !app_assoc.
      split; [reflexivity|].
      apply tagged_flat_prepend. apply tagged_flat_prepend. exact F3.
    + (* a tag inside: the outer tag stays *)
      apply not_in_app_inv in Hbl. destruct Hbl as [Hx0 Hbl].
      apply not_in_app_inv in Hbl. destruct Hbl as [Hc0l Hy0].
      assert (Fail : try_match false simple_pattern p1
                (T "<address>" ++ (x0 ++ wrap c0 ++ s0) ++ T "</address>" ++ s ++ rest)
              = None).
      { rewrite <- !app_assoc. unfold wrap. rewrite <- !app_assoc.
        apply simple_skips_nest. exact Hx0. }
      change (T "<address>" ++ (x0 ++ wrap c0 ++ s0) ++ T "</address>" ++ s ++ rest)
        with (lt :: T "address>" ++ (x0 ++ wrap c0 ++ s0) ++ T "</address>" ++ s ++ rest)
        in Fail |- *.
      rewrite (@sub_from_char false simple_pattern (group 2) _ _ _ Fail).
      rewrite <- !app_assoc.
      rewrite (app_assoc (T "address>") x0).
      assert (Hin : ~ In lt (T "address>" ++ x0)).
      { apply not_in_app; [unfold lt; cbn; intuition discriminate | exact Hx0]. }
      destruct (@sub_from_inert false simple_pattern (group 2) (T "address>" ++ x0)
                  (wrap c0 ++ s0 ++ T "</address>" ++ s ++ rest) (Some lt)
                  (inert_lt_free Hlt Hin)) as [p2 E2].
      rewrite E2.
      destruct (@strip_wrap simple_pattern 2 Hbare c0
                  (s0 ++ T "</address>" ++ s ++ rest) p2 Hne0 Hc0l) as [p3 E3].
      rewrite E3.
      destruct (@strip_flat simple_pattern 2 Hlt Hbare W2 y0 s0 Hs0 Hy0
                  (T "</address>" ++ s ++ rest) p3) as [p4 E4].
      rewrite E4.
      destruct (@sub_from_inert false simple_pattern (group 2) (T "</address>")
                  (s ++ rest) p4 (inert_closing Hlt Hskip)) as [p5 E5].
      rewrite E5.
      destruct (IH Hy rest p5) as (p6 & s3 & E6 & F6).
      rewrite E6.
      exists p6, (x ++ wrap (x0 ++ c0 ++ y0) ++ s3).
      split.
      * unfold wrap. rewrite <- !app_assoc. reflexivity.
      * assert (Et : x ++ x0 ++ c0 ++ y0 ++ y = x ++ (x0 ++ c0 ++ y0) ++ y)
          by (rewrite <- !app_assoc; reflexivity).
        rewrite Et. exact (@flat_wrap W1 x (x0 ++ c0 ++ y0) y s3 Hb Hne F6).
Qed.

(** Rendering a text with tags at most two deep gives the text back. *)
Lemma tagged_two_renders W1 W2 t s :
  tagged_two W1 W2 t s -> ~ In lt t -> transform_xml_to_html_links s = t.
Proof.
  intros H Ht. unfold transform_xml_to_html_links, count_matches.
  rewrite !sub_when_counted.
  rewrite (@sub_inert pattern pattern_skips_markup);
    [|apply (tagged_two_inert pattern_starts_with_lt pattern_skips_markup
               pattern_skips_bare H Ht)].
  rewrite (@sub_inert legacy_pattern legacy_pattern_skips_markup);
    [|apply (tagged_two_inert legacy_pattern_starts_with_lt legacy_pattern_skips_markup
               legacy_pattern_skips_bare H Ht)].
  destruct (strip_two H Ht [] None) as (p & s3 & E & F).
  rewrite app_nil_r in E.
  unfold sub at 2, scan. fold (sub_from false simple_pattern (group 2) None s).
  rewrite E, sub_from_nil, app_nil_r by apply simple_pattern_skips_markup.
  assert (Hbare : forall txt rest prev, inner_text txt ->
    exists st,
      try_match false address_pattern prev (seg_text (Bare Address txt) ++ rest) = Some st /\
      ms_rest st = rest /\ ms_acc st <> [] /\ group 1 st = txt).
  { intros txt rest prev Htxt. apply address_on_bare. exact Htxt. }
  destruct (@strip_flat address_pattern 1 address_pattern_starts_with_lt Hbare
              W1 t s3 F Ht [] None) as [p' E'].
  rewrite app_nil_r in E'.
  unfold sub, scan. fold (sub_from false address_pattern (group 1) None s3).
  rewrite E', sub_from_nil, app_nil_r by apply address_pattern_skips_markup.
  reflexivity.
Qed.

(** ** The round trip *)

(** C7, as stated, fails, in three ways.  A tagged span that contains [<]
    keeps its tags.  Three candidates, each inside the one accepted before
    it, are wrapped three deep, and rendering leaves the outer tag.  A
    candidate with [>] in it is found again across the end of a tag and
    wrapped there, and rendering leaves a tag as well.  In each text the
    other two conditions of the amended claim hold. *)
Lemma tags_survive_rendering :
  (render_after_tag unreachable offline address_with_angle
   = Return (T "<address>123 Main Street < Anytown, CA 90210</address>") /\
   Str.eqb (T "<address>123 Main Street < Anytown, CA 90210</address>")
           address_with_angle = false /\
   existsb (Ascii.eqb gt) address_with_angle = false /\
   two_deep (accepted unreachable offline) [] []
     (find_address_candidates address_with_angle) = true) /\
  (find_address_candidates three_deep =
     [T "1 A. Reno, NV 89501 is near 22 Oak Street. B Street, Reno, NV 89501";
      T "1 A. Reno, NV 89501 is near 22 Oak Street. B Street";
      T "Reno, NV 89501 is near 22 Oak Street"] /\
   tag_addresses_in_text unreachable offline three_deep
   = Return (T "<address><address>1 A. <address>Reno, NV 89501 is near 22 Oak Street</address>. B Street</address>, Reno, NV 89501</address>") /\
   render_after_tag unreachable offline three_deep
   = Return (T "<address>1 A. Reno, NV 89501 is near 22 Oak Street. B Street, Reno, NV 89501</address>") /\
   Str.eqb (T "<address>1 A. Reno, NV 89501 is near 22 Oak Street. B Street, Reno, NV 89501</address>")
           three_deep = false /\
   existsb (Ascii.eqb lt) three_deep = false /\
   existsb (Ascii.eqb gt) three_deep = false) /\
  (find_address_candidates tag_ends =
     [T "1234 Main Street, Anytown, CA 90210";
      T "s>1234 Main Street, Anytown, CA 90210";
      T "ss>s>1234 Main Street, Anytown, CA 90210"] /\
   tag_addresses_in_text unreachable offline tag_ends
   = Return (T "s><addres<addre<address>ss>s>1234 Main Street, Anytown, CA 90210</address></address></address>! ss>s><addres<addre<address>ss>s>1234 Main Street, Anytown, CA 90210</address></address></address>") /\
   render_after_tag unreachable offline tag_ends
   = Return (T "s><address>1234 Main Street, Anytown, CA 90210</address>! ss>s><address>1234 Main Street, Anytown, CA 90210</address>") /\
   Str.eqb (T "s><address>1234 Main Street, Anytown, CA 90210</address>! ss>s><address>1234 Main Street, Anytown, CA 90210</address>")
           tag_ends = false /\
   existsb (Ascii.eqb lt) tag_ends = false /\
   two_deep (accepted unreachable offline) [] []
     (find_address_candidates tag_ends) = true).
Proof. repeat split; vm_compute; reflexivity. Qed.

(** C7, amended: for a text that contains neither [<] nor [>], and in which
    no candidate the validator accepts occurs inside an accepted candidate
    that itself occurs inside a candidate accepted before it, rendering
    what [tag_addresses_in_text] returns gives back the text: the tags
    removed, every inner text as it was. *)
Theorem render_of_flat_tagging (requests_put : text -> put_outcome) (self : parser)
    (t out : text) :
  ~ In lt t -> ~ In gt t ->
  two_deep (accepted requests_put self) [] [] (find_address_candidates t) = true ->
  tag_addresses_in_text requests_put self t = Return out ->
  transform_xml_to_html_links out = t /\
  render_after_tag requests_put self t = Return t.
Proof.
  intros Hlt Hgt Hap H.
  enough (R : transform_xml_to_html_links out = t).
  { split; [exact R|]. unfold render_after_tag. rewrite H, R. reflexivity. }
  rewrite tag_unfold in H.
  assert (Same : Return t = Return out -> transform_xml_to_html_links out = t).
  { intros E. injection E as <-.
    apply (@tagged_two_renders [] [] t t); [apply two_leaf | exact Hlt]. }
  destruct t as [|a t]; [apply Same; exact H|].
  destruct (Str.strip (a :: t)); [apply Same; exact H|].
  destruct (find_address_candidates (a :: t)) as [|c cands] eqn:Ec.
  - destruct (parse_address_with_shipengine requests_put self (a :: t)) as [[res|]|e];
      [| apply Same; exact H | discriminate H].
    destruct (is_valid_address (Some res)); [|apply Same; exact H].
    destruct (_extract_address_text_from_entities res (a :: t)) as [[|c address_text]|];
      try (apply Same; exact H).
    injection H as <-.
    apply (@tagged_two_renders [c :: address_text] [] (a :: t)); [|exact Hlt].
    unfold Str.replace.
    apply (@tagged_flat_two [c :: address_text]); [auto|].
    apply (@replace_leaf (c :: address_text)) with (n := List.length (a :: t));
      [discriminate | lia].
  - destruct (@tag_candidates_two requests_put self (a :: t) (c :: cands) [] []
                (a :: t) out) as (W1 & W2 & F); try assumption.
    + intros c' Hin. rewrite <- Ec in Hin.
      split; [|split].
      * eapply substring_not_in; [apply find_address_candidates_substring; exact Hin | exact Hlt].
      * eapply substring_not_in; [apply find_address_candidates_substring; exact Hin | exact Hgt].
      * unfold find_address_candidates in Hin. apply unique_loop_In in Hin. lia.
    + apply two_leaf.
    + apply (tagged_two_renders F Hlt).
Qed.

Lemma render_of_flat_tagging_witness :
  find_address_candidates one_inside =
    [T "1 A. Reno, NV 89501 is near 22 Oak Street, Reno, NV 89501";
     T "1 A. Reno, NV 89501 is near 22 Oak Street";
     T "Reno, NV 89501 is near 22 Oak Street, Reno, NV 89501"] /\
  tag_addresses_in_text unreachable offline one_inside
  = Return (T "<address><address>1 A. Reno, NV 89501 is near 22 Oak Street</address>, Reno, NV 89501</address>") /\
  render_after_tag unreachable offline one_inside = Return one_inside.
Proof.
  assert (Htag : tag_addresses_in_text unreachable offline one_inside
    = Return (T "<address><address>1 A. Reno, NV 89501 is near 22 Oak Street</address>, Reno, NV 89501</address>"))
    by (vm_compute; reflexivity).
  assert (Hlt : ~ In lt one_inside) by (apply not_in_by_eqb; vm_compute; reflexivity).
  assert (Hgt : ~ In gt one_inside) by (apply not_in_by_eqb; vm_compute; reflexivity).
  assert (Hap : two_deep (accepted unreachable offline) [] []
                  (find_address_candidates one_inside) = true)
    by (vm_compute; reflexivity).
  split; [vm_compute; reflexivity|].
  split; [exact Htag|].
  exact (proj2 (@render_of_flat_tagging unreachable offline one_inside _
                  Hlt Hgt Hap Htag)).
Defined.

(** Two addresses in two sentences are tagged side by side and rendered
    back. *)
Example two_stops_round_trip :
  tag_addresses_in_text unreachable offline two_stops
  = Return (T "Send it to <address>123 Main Street, Anytown, CA 90210</address>. Bill <address>77 Oak Avenue, Reno, NV 89501</address>.") /\
  render_after_tag unreachable offline two_stops = Return two_stops.
Proof. split; vm_compute; reflexivity. Qed.
